(** * pyqmc: orthogonal optimisation of excited states ([optimize_ortho.py])

    A shallow embedding of the overlap sampler, the correlated sampler, the
    distributed combination and the optimisation driver, together with the
    properties their specification states.

    Numbers.  The program computes with numpy double precision arrays.  The
    embedding reads every such number as a real number ([R]): rounding,
    overflow, [inf] and [nan] are outside the model.  Division by zero, which
    numpy answers with [inf] or [nan], is the total division of [R] here; the
    statements below say so wherever a denominator may vanish.

    Arrays.  A one dimensional array is a [list R], a matrix is a list of
    rows.  Arrays whose rank matters (the statistics handled by the
    distributed combination, [Starget] and [forcing]) carry their shape.

    Dictionaries.  Python dictionaries keyed by strings are [gmap string _]. *)

From Stdlib Require Import Reals Lra Lia.
From stdpp Require Import base option list gmap strings.

Open Scope R_scope.

(* ===================================================================== *)
(** * Part I.  The model                                                  *)
(* ===================================================================== *)

(** ** Real comparisons as decisions, so that numpy's boolean tests read
       [bool_decide (x > y)]. *)

#[export] Instance Rlt_decision : RelDecision Rlt := Rlt_dec.
#[export] Instance Rgt_decision : RelDecision Rgt := fun x y => Rlt_dec y x.
#[export] Instance Rle_decision : RelDecision Rle := Rle_dec.
#[export] Instance Req_decision : EqDecision R := Req_dec_T.

(** ** numpy primitives on one dimensional arrays *)

Abbreviation vec := (list R) (only parsing).
Abbreviation matrix := (list (list R)) (only parsing).

(** [np.sum] *)
Definition vsum (v : vec) : R := foldr Rplus 0 v.

(** [np.mean]: sum over the number of entries. *)
Definition mean (v : vec) : R := vsum v / INR (length v).

(** [np.dot] of two vectors. *)
Definition dot (u v : vec) : R := vsum (zip_with Rmult u v).

(** [np.linalg.norm], the Euclidean norm. *)
Definition norm (v : vec) : R := sqrt (dot v v).

(** [c * v] *)
Definition scale (c : R) (v : vec) : vec := map (Rmult c) v.

(** [np.average(v, weights=w)]: numpy raises [ZeroDivisionError] when the
    weights sum to zero. *)
Definition average (v w : vec) : option R :=
  if decide (vsum w = 0) then None else Some (vsum (zip_with Rmult v w) / vsum w).

(** [np.max] over a non-empty array; numpy raises [ValueError] on an empty one. *)
Definition vmax (v : vec) : option R :=
  match v with
  | [] => None
  | x :: xs => Some (foldr Rmax x xs)
  end.

(** Matrix times vector: [out[i] = sum_j M[i][j] * v[j]]. *)
Definition matvec (M : matrix) (v : vec) : vec := map (fun row => dot row v) M.

(** [np.eye(n)] *)
Definition eye (n : nat) : matrix :=
  map (fun i => map (fun j => if decide (i = j) then 1 else 0) (seq 0 n)) (seq 0 n).

(** Entrywise sum of two matrices and product by a scalar. *)
Definition madd (A B : matrix) : matrix := zip_with (zip_with Rplus) A B.
Definition mscale (c : R) (A : matrix) : matrix := map (scale c) A.

(** ** The optimisation driver, [optimize_orthogonal]: the steps between
       gradient assembly and the line search (lines 565 to 583). *)

(** Conditioning (lines 566-570):
    [np.einsum("ij,dj->di", inv(condition + 0.1 eye), [total, N])].
    The matrix inverse is numpy's; it is a parameter [inv] of the step. *)
Definition sr_condition (inv : matrix -> matrix) (condition : matrix)
    (total_derivative N_derivative : vec) : vec * vec :=
  let Minv := inv (madd condition (mscale 0.1 (eye (length condition)))) in
  (matvec Minv total_derivative, matvec Minv N_derivative).

(** Projection (lines 574-579):
    [if norm(N) > 1e-8: total -= dot(total, N) * N / norm(N) ** 2]. *)
Definition project (total_derivative N_derivative : vec) : vec :=
  if bool_decide (norm N_derivative > 1e-8) then
    zip_with
      (fun t n => t - dot total_derivative N_derivative * n / (norm N_derivative) ^ 2)
      total_derivative N_derivative
  else total_derivative.

(** Step clipping (lines 581-583):
    [if deriv_norm > max_step: total = total * max_step / deriv_norm]. *)
Definition clip (max_step : R) (total_derivative : vec) : vec :=
  let deriv_norm := norm total_derivative in
  if bool_decide (deriv_norm > max_step) then
    map (fun t => t * max_step / deriv_norm) total_derivative
  else total_derivative.

(** ** The line search filter (lines 608-613) *)

(** One entry of the mask: [(abs(w - 1.0) > wb) & (abs(w) > wb)]. *)
Definition mask_entry (weight_boundaries w : R) : bool :=
  bool_decide (Rabs (w - 1) > weight_boundaries)
  && bool_decide (Rabs w > weight_boundaries).

(** [np.all(mask, axis=0)] of a two dimensional boolean array given by rows:
    the entrywise conjunction of the rows.  The driver reaches this line with
    at least one row (one per reference). *)
Definition all_axis0 (m : list (list bool)) : list bool :=
  match m with
  | [] => []
  | r :: rs => foldl (zip_with andb) r rs
  end.

(** The mask over candidates: [line_weight] is [line_data["weight"]], one row
    per reference and one column per candidate step. *)
Definition line_mask (weight_boundaries : R) (line_weight : matrix) : list bool :=
  all_axis0 (map (map (mask_entry weight_boundaries)) line_weight).

(** Boolean indexing [xs[mask]]. *)
Definition select {A} (mask : list bool) (xs : list A) : list A :=
  omap (fun bx : bool * A => if bx.1 then Some bx.2 else None) (zip mask xs).

(** ** Exceptions and mutable state

    A Python call either returns or raises, and the objects it mutated stay
    mutated in both cases.  A computation over a store [S] therefore yields
    its outcome together with the store it leaves behind. *)

Inductive error :=
  | ValueError
  | IndexError
  | KeyError
  | ZeroDivisionError
  | NotImplementedError
  | NameError
  | Raised       (* an exception coming out of an external collaborator *)
  | Unfinished.  (* no exception: the bound the model puts on a [while True] ran out *)

#[export] Instance error_eq_dec : EqDecision error.
Proof. solve_decision. Defined.

Definition M (S A : Type) : Type := S -> (error + A) * S.

#[export] Instance M_ret {S} : MRet (M S) := fun A a s => (inr a, s).
#[export] Instance M_bind {S} : MBind (M S) := fun A B f m s =>
  match m s with
  | (inr a, s') => f a s'
  | (inl e, s') => (inl e, s')
  end.

Definition raise {S A} (e : error) : M S A := fun s => (inl e, s).
Definition get {S} : M S S := fun s => (inr s, s).
Definition put {S} (s : S) : M S unit := fun _ => (inr (), s).

(** An operation that raises [e] where the option is empty. *)
Definition lift {S A} (e : error) (o : option A) : M S A :=
  match o with
  | Some a => mret a
  | None => raise e
  end.

(** [for x in l: body(x)], collecting what each round produces. *)
Fixpoint for_each {S A B} (body : A -> M S B) (l : list A) : M S (list B) :=
  match l with
  | [] => mret []
  | a :: l' => b ← body a; bs ← for_each body l'; mret (b :: bs)
  end.

(** ** Arrays with a shape

    The statistics a sampler returns are numpy arrays of any rank: a shape
    and the entries in row-major order. *)

Record ndarray := NDArray {
  shape : list nat;
  data : list R;
}.

#[export] Instance ndarray_eq_dec : EqDecision ndarray.
Proof. solve_decision. Defined.

Definition rank (a : ndarray) : nat := length (shape a).

(** [np.zeros(sh)] *)
Definition nd_zeros (sh : list nat) : ndarray :=
  NDArray sh (replicate (foldr Nat.mul 1%nat sh) 0).

(** A vector and a matrix (given by rows of length [ncols]) as arrays. *)
Definition nd_vector (v : list R) : ndarray := NDArray [length v] v.
Definition nd_matrix (ncols : nat) (M : list (list R)) : ndarray :=
  NDArray [length M; ncols] (concat M).

(** [a / n] for a number [n]. *)
Definition nd_div (a : ndarray) (n : R) : ndarray :=
  NDArray (shape a) (map (fun x => x / n) (data a)).

(** [a += b] for arrays of one shape.  numpy raises [ValueError] when [b]
    cannot be broadcast to the shape of [a]; shapes that differ but
    broadcast are not modelled and count as an error here too. *)
Definition nd_add (a b : ndarray) : option ndarray :=
  if decide (shape a = shape b)
  then Some (NDArray (shape a) (zip_with Rplus (data a) (data b)))
  else None.

(** ** The external collaborators

    A walker ensemble is the list of its walkers; what a walker is made of
    (electron coordinates) is left open.  A wavefunction object carries its
    evaluation method, its mutable [parameters] mapping and the internal
    values that [recompute] stores and [value()] reads back: one pair
    (phase, log-magnitude) per walker.  An evaluation may raise. *)

Section Collaborators.
Context {Walker : Type}.

Record wavefunction := Wavefunction {
  amplitude : gmap string (list R) -> Walker -> option (R * R);
  parameters : gmap string (list R);
  internals : list (R * R);
}.

Definition set_parameters (P : gmap string (list R)) (wf : wavefunction) : wavefunction :=
  Wavefunction (amplitude wf) P (internals wf).

Definition set_internals (vals : list (R * R)) (wf : wavefunction) : wavefunction :=
  Wavefunction (amplitude wf) (parameters wf) vals.

(** The values [wf.recompute(configs)] computes, for parameters [P]. *)
Definition eval_at (wf : wavefunction) (P : gmap string (list R))
    (configs : list Walker) : option (list (R * R)) :=
  mapM (amplitude wf P) configs.

(** [wf.recompute(configs)] *)
Definition recompute (configs : list Walker) (wf : wavefunction) : option wavefunction :=
  vals ← eval_at wf (parameters wf) configs; Some (set_internals vals wf).

(** [wf.value()]: the phase array and the log-magnitude array. *)
Definition value (wf : wavefunction) : list R * list R :=
  ((internals wf).*1, (internals wf).*2).

(** The parameter transform owned by the accumulator. *)
Class Transform := {
  serialize_parameters : gmap string (list R) -> list R;
  deserialize : list R -> gmap string (list R);
}.

(** The accumulator [pgrad].
    [enacc_total wf w] is [enacc(configs, wf)["total"]] at walker [w], the
    local energy.
    [dppsi_regularized configs wf] is lines 116-118,
    [serialize_gradients(wf.pgradient()) * f[:, np.newaxis]] with [f] from
    [_node_regr(configs, wf)]: one array over walkers for each parameter.
    [avg configs wf weights] is [pgrad.avg(configs, wf, weights)], a
    dictionary of arrays. *)
Class Accumulator := {
  enacc_total : wavefunction -> Walker -> option R;
  dppsi_regularized : list Walker -> wavefunction -> list (list R);
  avg : list Walker -> wavefunction -> list R -> gmap string ndarray;
}.
End Collaborators.

Arguments wavefunction : clear implicits.
Arguments Accumulator : clear implicits.

(** ** Array helpers shared by the samplers *)

(** [np.sum(rows, axis=0)] for rows of length [n]. *)
Definition sum_axis0 (n : nat) (rows : matrix) : vec :=
  foldr (zip_with Rplus) (replicate n 0) rows.

(** [1.0 / x] entrywise. *)
Definition reciprocal (v : vec) : vec := map (fun x => 1 / x) v.

(** [l[-1]] is [last l]; the function below mutates it in place. *)
Fixpoint alter_last {A} (f : A -> A) (l : list A) : list A :=
  match l with
  | [] => []
  | [x] => [f x]
  | x :: l' => x :: alter_last f l'
  end.

(** ** The correlated sampler, [correlated_sample] (lines 208-290) *)

Record corr_data := CorrData {
  data_total : vec;
  data_weight : vec;
  data_overlap : matrix;
  data_rhoprime : vec;
  data_base_weight : vec;
}.

Section CorrelatedSample.
Context {Walker : Type} {Tr : Transform} {Acc : Accumulator Walker}.

(** [for wf in wfs: wf.recompute(configs)], in order, stopping at the first
    evaluation that raises. *)
Fixpoint recompute_all (configs : list Walker) (wfs : list (wavefunction Walker))
    : (error + unit) * list (wavefunction Walker) :=
  match wfs with
  | [] => (inr (), [])
  | wf :: rest =>
      match recompute configs wf with
      | None => (inl Raised, wf :: rest)
      | Some wf' =>
          let '(r, rest') := recompute_all configs rest in (r, wf' :: rest')
      end
  end.

(** [for k, it in d.items(): wfs[-1].parameters[k] = it] *)
Definition install (d : gmap string (list R)) : M (list (wavefunction Walker)) unit :=
  fun wfs => (inr (), alter_last (fun wf => set_parameters (d ∪ parameters wf) wf) wfs).

(** [wfs[-1].recompute(configs)] *)
Definition recompute_last (configs : list Walker) : M (list (wavefunction Walker)) unit :=
  wfs ← get;
  wf ← lift IndexError (last wfs);
  wf' ← lift Raised (recompute configs wf);
  put (alter_last (fun _ => wf') wfs).

(** Lines 243-244, from the baseline values [log_values0]. *)
Definition normalized_values0 (ref : R) (log_values0 : list (vec * vec)) : matrix :=
  map (fun v => zip_with (fun s a => s * exp (a - ref)) v.1 v.2) log_values0.

Definition denominator0 (nconf : nat) (ref : R) (log_values0 : list (vec * vec)) : vec :=
  sum_axis0 nconf (map (fun v => map (fun a => exp (2 * (a - ref))) v.2) log_values0).

(** Lines 246-252: [weight[i] = mean_k 1 / sum_m exp(-2 (a_i[k] - a_m[k]))]. *)
Definition base_weight (nconf : nat) (log_values0 : list (vec * vec)) : vec :=
  map (fun vi =>
         mean (reciprocal
                 (sum_axis0 nconf
                    (map (fun vm => zip_with (fun a b => exp (- 2 * (a - b))) vi.2 vm.2)
                         log_values0))))
      log_values0.

(** Lines 269-271. *)
Definition reweight (nconf : nat) (log_values0 : list (vec * vec)) (val : vec * vec) : vec :=
  reciprocal
    (sum_axis0 nconf
       (map (fun v0 => zip_with (fun a b => exp (2 * a - 2 * b)) v0.2 val.2) log_values0)).

(** Line 272. *)
Definition normalized_candidate (ref : R) (val : vec * vec) : vec :=
  zip_with (fun s a => s * exp (a - ref)) val.1 val.2.

(** Lines 274-277: [log_values0[0:-1]] drops the active wavefunction. *)
Definition rhoprime_of (nconf : nat) (ref : R) (log_values0 : list (vec * vec))
    (denominator : vec) (val : vec * vec) : vec :=
  zip_with Rdiv
    (zip_with Rplus
       (sum_axis0 nconf
          (map (fun v0 => map (fun a => exp (2 * a - 2 * ref)) v0.2)
               (removelast log_values0)))
       (map (fun b => exp (2 * b - 2 * ref)) val.2))
    denominator.

(** Line 279: [einsum("k,jk->jk", normalized_val, normalized_values) / denominator]. *)
Definition overlap_of (normalized_val : vec) (normalized_values : matrix)
    (denominator : vec) : matrix :=
  map (fun nj => zip_with Rdiv (zip_with Rmult normalized_val nj) denominator)
      normalized_values.

(** What one round of the loop stores at index [p] of the four arrays. *)
Record corr_row := CorrRow {
  row_total : R;
  row_rhoprime : R;
  row_weight : R;
  row_overlap : vec;
}.

(** Lines 269-284 once the candidate's values [val] and the accumulator's
    per-walker energies [dat_total] are known: the four numbers stored at
    index [p].  [np.average] raises when the weights sum to zero. *)
Definition candidate_row (nconf : nat) (ref : R) (log_values0 : list (vec * vec))
    (weight : vec) (val : vec * vec) (dat_total : vec) : option corr_row :=
  let wt := reweight nconf log_values0 val in
  let normalized_val := normalized_candidate ref val in
  let denominator := denominator0 nconf ref log_values0 in
  let rhoprime := rhoprime_of nconf ref log_values0 denominator val in
  let overlap := overlap_of normalized_val (normalized_values0 ref log_values0) denominator in
  total ← average dat_total wt;
  Some (CorrRow total
                (mean rhoprime)
                (mean wt / mean rhoprime)
                (zip_with (fun o w => mean o / sqrt (mean wt * w)) overlap weight)).

(** The body of the loop over candidates (lines 262-284). *)
Definition candidate (configs : list Walker) (ref : R) (log_values0 : list (vec * vec))
    (weight : vec) (parameter : vec) : M (list (wavefunction Walker)) corr_row :=
  _ ← install (deserialize parameter);
  _ ← recompute_last configs;
  wfs ← get;
  wf ← lift IndexError (last wfs);
  let val := value wf in
  dat_total ← lift Raised (mapM (enacc_total wf) configs);
  lift ZeroDivisionError
       (candidate_row (length configs) ref log_values0 weight val dat_total).

Definition correlated_sample (configs : list Walker) (parameters_list : list vec)
    : M (list (wavefunction Walker)) corr_data :=
  let nconf := length configs in
  wfs ← get;
  active ← lift IndexError (last wfs);
  let p0 := serialize_parameters (parameters active) in
  _ ← recompute_all configs;
  wfs ← get;
  let log_values0 := map value wfs in
  ref ← lift ValueError (vmax (concat (map snd log_values0)));
  let weight := base_weight nconf log_values0 in
  rows ← for_each (candidate configs ref log_values0 weight) parameters_list;
  _ ← install (deserialize p0);
  mret (CorrData (map row_total rows) (map row_weight rows) (map row_overlap rows)
                 (map row_rhoprime rows) weight).
End CorrelatedSample.

(** ** The correlated sampler in the words of its specification

    The quantities of one walker [w], written with the wavefunctions'
    evaluation methods instead of arrays. *)

Section CorrelatedSpec.
Context {Walker : Type} {Tr : Transform} {Acc : Accumulator Walker}.

(** Phase and log-magnitude of [wf] at walker [w] for parameters [P]. *)
Definition amp (wf : wavefunction Walker) (P : gmap string (list R)) (w : Walker) : R * R :=
  default (0, 0) (amplitude wf P w).
Definition phase_at (wf : wavefunction Walker) P (w : Walker) : R := (amp wf P w).1.
Definition logmag_at (wf : wavefunction Walker) P (w : Walker) : R := (amp wf P w).2.

(** The active wavefunction once candidate [c] is installed and recomputed. *)
Definition install_params (c : vec) (a : wavefunction Walker) : wavefunction Walker :=
  set_parameters (deserialize c ∪ parameters a) a.

Definition after_candidate (configs : list Walker) (a : wavefunction Walker) (c : vec)
    : wavefunction Walker :=
  let a1 := install_params c a in
  set_internals (map (amp a1 (parameters a1)) configs) a1.

Definition active_after (configs : list Walker) (a : wavefunction Walker)
    (cands : list vec) : wavefunction Walker :=
  foldl (after_candidate configs) a cands.

(** A wavefunction after a successful [recompute]. *)
Definition recomputed (configs : list Walker) (wf : wavefunction Walker) : wavefunction Walker :=
  set_internals (map (amp wf (parameters wf)) configs) wf.

(** Every evaluation the loop over [cands] makes returns. *)
Fixpoint candidates_ok (configs : list Walker) (a : wavefunction Walker)
    (cands : list vec) : Prop :=
  match cands with
  | [] => True
  | c :: cs =>
      let a1 := install_params c a in
      let a' := after_candidate configs a c in
      is_Some (eval_at a1 (parameters a1) configs) /\
      is_Some (mapM (enacc_total a') configs) /\
      candidates_ok configs a' cs
  end.

(** [wt] of the specification:
    [1 / sum_i exp(2 (logmag_i,baseline - logmag_active,candidate))]. *)
Definition spec_wt (wfs : list (wavefunction Walker)) (cand : wavefunction Walker)
    (w : Walker) : R :=
  1 / vsum (map (fun wf => exp (2 * (logmag_at wf (parameters wf) w
                                     - logmag_at cand (parameters cand) w))) wfs).

(** Normalized value [Psi * exp(logmag - ref)]. *)
Definition spec_normalized (ref : R) (wf : wavefunction Walker) (w : Walker) : R :=
  phase_at wf (parameters wf) w * exp (logmag_at wf (parameters wf) w - ref).

(** [denominator = sum_i exp(2 (logmag_i - ref))] at baseline. *)
Definition spec_denominator (ref : R) (wfs : list (wavefunction Walker)) (w : Walker) : R :=
  vsum (map (fun wf => exp (2 * (logmag_at wf (parameters wf) w - ref))) wfs).

(** The mixture density with the candidate in place of the active
    wavefunction, relative to the baseline one. *)
Definition spec_rhoprime (ref : R) (wfs : list (wavefunction Walker))
    (cand : wavefunction Walker) (w : Walker) : R :=
  (vsum (map (fun wf => exp (2 * logmag_at wf (parameters wf) w - 2 * ref))
             (removelast wfs))
   + exp (2 * logmag_at cand (parameters cand) w - 2 * ref))
  / spec_denominator ref wfs w.

(** The baseline weight of wavefunction [wf]:
    the walker mean of [1 / sum_m exp(-2 (logmag_wf - logmag_m))]. *)
Definition spec_base_weight (configs : list Walker) (wfs : list (wavefunction Walker))
    (wf : wavefunction Walker) : R :=
  mean (map (fun w =>
               1 / vsum (map (fun wm => exp (- 2 * (logmag_at wf (parameters wf) w
                                                  - logmag_at wm (parameters wm) w))) wfs))
            configs).

(** The walker mean of [normalized_candidate * normalized_j / denominator]. *)
Definition spec_raw_overlap (configs : list Walker) (ref : R)
    (wfs : list (wavefunction Walker)) (cand wfj : wavefunction Walker) : R :=
  mean (map (fun w => spec_normalized ref cand w * spec_normalized ref wfj w
                      / spec_denominator ref wfs w) configs).

(** The overlap of candidate [cand] with wavefunction [wfj] as the
    specification words it: the raw overlap divided by
    [sqrt(mean(wt) * mean(rhoprime))]. *)
Definition spec_overlap_rhoprime (configs : list Walker) (ref : R)
    (wfs : list (wavefunction Walker)) (cand wfj : wavefunction Walker) : R :=
  spec_raw_overlap configs ref wfs cand wfj
  / sqrt (mean (map (spec_wt wfs cand) configs)
          * mean (map (spec_rhoprime ref wfs cand) configs)).

(** The same with the baseline weight of [wfj] in place of
    [mean(rhoprime)]. *)
Definition spec_overlap_base (configs : list Walker) (ref : R)
    (wfs : list (wavefunction Walker)) (cand wfj : wavefunction Walker) : R :=
  spec_raw_overlap configs ref wfs cand wfj
  / sqrt (mean (map (spec_wt wfs cand) configs) * spec_base_weight configs wfs wfj).

(** The largest baseline log-magnitude, over wavefunctions and walkers. *)
Definition spec_ref (configs : list Walker) (wfs : list (wavefunction Walker)) : option R :=
  vmax (concat (map (fun wf => map (logmag_at wf (parameters wf)) configs) wfs)).
End CorrelatedSpec.

(** ** The overlap sampler, [sample_overlap] (lines 26-148) *)

(** Lines 61-93, the loop over electrons: a drift-diffusion proposal from the
    mean gradient, the acceptance test against fresh uniform draws, the move
    of the accepted walkers.  It rests on the wavefunctions' gradients and
    test values and on numpy's random numbers, and is taken as one operation
    [sweep] on the ensemble and the generator state.  [updateinternals] keeps
    every wavefunction's internal values in step with the moved walkers. *)
Class Dynamics (Walker : Type) := {
  Rng : Type;
  sweep : list (wavefunction Walker) -> list Walker -> Rng -> list Walker * Rng;
}.

Record sampler_state (Walker RngT : Type) := SamplerState {
  st_wfs : list (wavefunction Walker);
  st_configs : list Walker;
  st_rng : RngT;
}.
Arguments SamplerState {Walker RngT}.
Arguments st_wfs {Walker RngT}.
Arguments st_configs {Walker RngT}.
Arguments st_rng {Walker RngT}.

(** [np.max(rows, axis=0)]; with no row at all the indexing that precedes it
    raises. *)
Definition max_axis0 (rows : matrix) : option vec :=
  match rows with
  | [] => None
  | r :: rs => Some (foldl (zip_with Rmax) r rs)
  end.

(** Line 100. *)
Definition step_denominator (nconf : nat) (ref : vec) (log_values : list (vec * vec)) : vec :=
  sum_axis0 nconf (map (fun v => zip_with (fun a r => exp (2 * (a - r))) v.2 ref) log_values).

(** Line 101. *)
Definition step_normalized (ref : vec) (log_values : list (vec * vec)) : matrix :=
  map (fun v => zip_with Rmult v.1 (zip_with (fun a r => exp (a - r)) v.2 ref)) log_values.

(** Lines 102-106:
    [mean(einsum("ik,jk->ijk", normalized, normalized) / denominator, axis=-1)]. *)
Definition step_overlap (normalized_values : matrix) (denominator : vec) : matrix :=
  map (fun ni =>
         map (fun nj => mean (zip_with Rdiv (zip_with Rmult ni nj) denominator))
             normalized_values)
      normalized_values.

(** Lines 107-113: [weight[i][k] = 1 / sum_m exp(-2 (a_i[k] - a_m[k]))]. *)
Definition step_weight (nconf : nat) (log_values : list (vec * vec)) : matrix :=
  map (fun vi =>
         reciprocal
           (sum_axis0 nconf
              (map (fun vm => zip_with (fun a b => exp (- 2 * (a - b))) vi.2 vm.2)
                   log_values)))
      log_values.

(** Lines 120-129:
    [mean(einsum("km,k,jk->jmk", dppsi_regularized, normalized[-1], normalized)
          / denominator, axis=-1)]. *)
Definition step_overlap_gradient (dppsi_reg : matrix) (normalized_values : matrix)
    (denominator : vec) : matrix :=
  let normalized_last := default [] (last normalized_values) in
  map (fun nj =>
         map (fun dm =>
                mean (zip_with Rdiv
                        (zip_with Rmult (zip_with Rmult dm normalized_last) nj)
                        denominator))
             dppsi_reg)
      normalized_values.

(** Rolling average within a block (lines 138-141), for one key:
    [block_avg[k] (zeros if absent) += save_dat[k] / nsteps_per_block]. *)
Definition accumulate_key (nsteps_per_block : nat) (old : option ndarray) (it : ndarray)
    : option ndarray :=
  nd_add (default (nd_zeros (shape it)) old) (nd_div it (INR nsteps_per_block)).

(** The same for every key of [save_dat]; a shape mismatch on any key raises. *)
Definition accumulate (nsteps_per_block : nat) (block_avg save_dat : gmap string ndarray)
    : option (gmap string ndarray) :=
  let merged : gmap string (option ndarray) :=
    merge (fun old it =>
             match it with
             | Some x => Some (accumulate_key nsteps_per_block old x)
             | None => Some <$> old
             end) block_avg save_dat in
  if decide (map_Forall (fun _ o => is_Some o) merged)
  then Some (omap (fun o => o) merged)
  else None.

(** Blocks stored (lines 144-147), for one key: a new key gets
    [np.zeros((nblocks, *it.shape))], then row [block] is overwritten. *)
Definition store_key (nblocks block : nat) (old : option (list ndarray)) (it : ndarray)
    : option (list ndarray) :=
  let rows := default (replicate nblocks (nd_zeros (shape it))) old in
  if decide (Forall (fun row => shape row = shape it) rows)
  then Some (<[block := it]> rows)
  else None.

Definition store_block (nblocks block : nat) (return_data : gmap string (list ndarray))
    (block_avg : gmap string ndarray) : option (gmap string (list ndarray)) :=
  let merged : gmap string (option (list ndarray)) :=
    merge (fun old it =>
             match it with
             | Some x => Some (store_key nblocks block old x)
             | None => Some <$> old
             end) return_data block_avg in
  if decide (map_Forall (fun _ o => is_Some o) merged)
  then Some (omap (fun o => o) merged)
  else None.

(** The rows of a key put together as one array with a leading block axis. *)
Definition nd_stack (rows : list ndarray) : ndarray :=
  NDArray (length rows :: default [] (shape <$> head rows)) (concat (map data rows)).

Section SampleOverlap.
Context {Walker : Type} {Acc : Accumulator Walker} {Dyn : Dynamics Walker}.

(** Lines 96-135: what one step saves, from the values after the sweep. *)
Definition step_stats (configs : list Walker) (wfs : list (wavefunction Walker))
    (wf : wavefunction Walker) (ref : vec) : gmap string ndarray :=
  let nconf := length configs in
  let log_values := map value wfs in
  let denominator := step_denominator nconf ref log_values in
  let normalized_values := step_normalized ref log_values in
  let weight := step_weight nconf log_values in
  let dat := avg configs wf (default [] (last weight)) in
  <["weight"%string := nd_vector (map mean weight)]>
    (dat ∪
     <["overlap_gradient"%string :=
         nd_matrix (length (dppsi_regularized configs wf))
                   (step_overlap_gradient (dppsi_regularized configs wf)
                                          normalized_values denominator)]>
       (<["overlap"%string :=
            nd_matrix (length wfs) (step_overlap normalized_values denominator)]> ∅)).

(** One pass of the loop over steps (lines 60-141). *)
Definition sample_step (nsteps_per_block : nat) (block_avg : gmap string ndarray)
    : M (sampler_state Walker Rng) (gmap string ndarray) :=
  st ← get;
  let '(configs, rng) := sweep (st_wfs st) (st_configs st) (st_rng st) in
  let '(r, wfs) := recompute_all configs (st_wfs st) in
  _ ← put (SamplerState wfs configs rng);
  _ ← (match r with inl e => raise e | inr _ => mret () end);
  wf ← lift IndexError (last wfs);
  ref ← lift IndexError (max_axis0 (map snd (map value wfs)));
  lift ValueError
       (accumulate nsteps_per_block block_avg (step_stats configs wfs wf ref)).

(** The loop over the steps of one block, from an empty [block_avg]. *)
Fixpoint run_steps (n nsteps_per_block : nat) (block_avg : gmap string ndarray)
    : M (sampler_state Walker Rng) (gmap string ndarray) :=
  match n with
  | O => mret block_avg
  | S n' =>
      block_avg' ← sample_step nsteps_per_block block_avg;
      run_steps n' nsteps_per_block block_avg'
  end.

Definition run_block (nsteps_per_block : nat)
    : M (sampler_state Walker Rng) (gmap string ndarray) :=
  run_steps nsteps_per_block nsteps_per_block ∅.

(** The loop over blocks (lines 58-147). *)
Fixpoint run_blocks (blocks : list nat) (nblocks nsteps_per_block : nat)
    (return_data : gmap string (list ndarray))
    : M (sampler_state Walker Rng) (gmap string (list ndarray)) :=
  match blocks with
  | [] => mret return_data
  | block :: rest =>
      block_avg ← run_block nsteps_per_block;
      return_data' ← lift ValueError (store_block nblocks block return_data block_avg);
      run_blocks rest nblocks nsteps_per_block return_data'
  end.

(** [sample_overlap(wfs, configs, pgrad, nblocks, nsteps_per_block, nsteps)];
    the ensemble it returns is the one left in the state. *)
Definition sample_overlap (nblocks nsteps_per_block : nat) (nsteps : option nat)
    : M (sampler_state Walker Rng) (gmap string ndarray) :=
  let nblocks' := match nsteps with Some n => n | None => nblocks end in
  let nsteps_per_block' := match nsteps with Some _ => 1%nat | None => nsteps_per_block end in
  st ← get;
  let '(r, wfs) := recompute_all (st_configs st) (st_wfs st) in
  _ ← put (SamplerState wfs (st_configs st) (st_rng st));
  _ ← (match r with inl e => raise e | inr _ => mret () end);
  return_data ← run_blocks (seq 0 nblocks') nblocks' nsteps_per_block' ∅;
  mret (nd_stack <$> return_data).
End SampleOverlap.

(** ** The overlap sampler in the words of its specification *)

Section SampleOverlapSpec.
Context {Walker : Type} {Acc : Accumulator Walker} {Dyn : Dynamics Walker}.

(** [ref]: the largest log-magnitude over the wavefunctions, at walker [w]. *)
Definition sampler_ref (wfs : list (wavefunction Walker)) (w : Walker) : R :=
  match wfs with
  | [] => 0
  | wf :: rest =>
      foldl Rmax (logmag_at wf (parameters wf) w)
            (map (fun wf' => logmag_at wf' (parameters wf') w) rest)
  end.

(** [Psi_i * exp(logmag_i - ref)] and [sum_i exp(2 (logmag_i - ref))]. *)
Definition sampler_normalized (wfs : list (wavefunction Walker))
    (wf : wavefunction Walker) (w : Walker) : R :=
  phase_at wf (parameters wf) w * exp (logmag_at wf (parameters wf) w - sampler_ref wfs w).

Definition sampler_denominator (wfs : list (wavefunction Walker)) (w : Walker) : R :=
  vsum (map (fun wf => exp (2 * (logmag_at wf (parameters wf) w - sampler_ref wfs w))) wfs).

(** [overlap[i,j]] of one step: the mean over the walkers of
    [normalized_i * normalized_j / denominator]. *)
Definition sampler_overlap (configs : list Walker) (wfs : list (wavefunction Walker))
    (wfi wfj : wavefunction Walker) : R :=
  mean (map (fun w => sampler_normalized wfs wfi w * sampler_normalized wfs wfj w
                      / sampler_denominator wfs w) configs).

(** The state after one pass of the loop over electrons whose evaluations
    all return, and after [n] passes. *)
Definition after_sweep (st : sampler_state Walker Rng) : sampler_state Walker Rng :=
  let cr := sweep (st_wfs st) (st_configs st) (st_rng st) in
  SamplerState (map (recomputed cr.1) (st_wfs st)) cr.1 cr.2.

Definition after_sweeps (n : nat) (st : sampler_state Walker Rng)
    : sampler_state Walker Rng :=
  Nat.iter n after_sweep st.

(** Every evaluation of the first [n] passes returns. *)
Definition sweeps_ok (n : nat) (st : sampler_state Walker Rng) : Prop :=
  forall t, (1 <= t <= n)%nat ->
    Forall (fun wf => is_Some (eval_at wf (parameters wf)
                                         (st_configs (after_sweeps t st))))
           (st_wfs st).

(** What the step that ends in state [st] saves. *)
Definition stats_of (st : sampler_state Walker Rng) : option (gmap string ndarray) :=
  wf ← last (st_wfs st);
  ref ← max_axis0 (map snd (map value (st_wfs st)));
  Some (step_stats (st_configs st) (st_wfs st) wf ref).

(** The statistics saved by any two of the first [n] steps have, key by key,
    the same shape: what the in-place sums of lines 138-141 need. *)
Definition shapes_stable (n : nat) (st : sampler_state Walker Rng) : Prop :=
  forall t t' k sd sd' x x',
    (1 <= t <= n)%nat -> (1 <= t' <= n)%nat ->
    stats_of (after_sweeps t st) = Some sd -> stats_of (after_sweeps t' st) = Some sd' ->
    sd !! k = Some x -> sd' !! k = Some x' -> shape x = shape x'.

(** The accumulator has no statistic of its own called ["overlap"]. *)
Definition avg_leaves_overlap : Prop :=
  forall configs wf weights, avg configs wf weights !! "overlap"%string = None.

(** The overlap matrix of the block: entry (i, j) is the mean, over the
    steps of the block, of the step's [overlap[i,j]]. *)
Definition block_overlap (nsteps_per_block : nat) (st : sampler_state Walker Rng) : matrix :=
  let wfs := st_wfs st in
  map (fun wfi =>
         map (fun wfj =>
                mean (map (fun t => sampler_overlap (st_configs (after_sweeps t st))
                                                    wfs wfi wfj)
                          (seq 1 nsteps_per_block)))
             wfs)
      wfs.
End SampleOverlapSpec.

(** ** The distributed overlap sampler, [dist_sample_overlap] (lines 151-205)

    The worker pool is external: what the combination sees of it is, for
    every partition, the number of walkers it was given and the outcome of
    its future, either an exception or the pair of the statistics (a
    dictionary, in insertion order) and the partition's ensemble. *)

#[export] Instance result_ret : MRet (sum error) := fun A a => inr a.
#[export] Instance result_bind : MBind (sum error) := fun A B f m =>
  match m with
  | inr a => f a
  | inl e => inl e
  end.

(** [k in ["weight", "overlap", "overlap_gradient"]] *)
Definition special (k : string) : bool :=
  bool_decide (k ∈ ["weight"; "overlap"; "overlap_gradient"]%string).

(** [c * a] *)
Definition nd_scale (c : R) (a : ndarray) : ndarray :=
  NDArray (shape a) (map (fun x => x * c) (data a)).

(** [w[:, -1]], the last column of a two dimensional array: the weight of
    the last wavefunction, block by block.  Indexing raises [IndexError] on
    an array of lower rank or without columns; on an array of higher rank it
    yields an array whose product no longer fits [df[k]], which numpy
    reports as [ValueError]. *)
Definition weight_column (w : ndarray) : error + vec :=
  match shape w with
  | [] | [_] => inl IndexError
  | [nb; nwf] =>
      if decide (nwf = 0%nat) then inl IndexError
      else inr (map (fun b => nth (b * nwf + (nwf - 1)) (data w) 0) (seq 0 nb))
  | _ => inl ValueError
  end.

(** [a * col[:, np.newaxis, ...]] and [a / (n * col[:, np.newaxis, ...])]:
    every entry of block [b] of [a] is multiplied by [col[b]] (divided by
    [n * col[b]]).  The column must have one entry per block, or a single
    entry; otherwise numpy raises [ValueError] (the few cases where the
    shapes differ and still broadcast count as errors here too). *)
Definition map_blocks (f : R -> R -> R) (a : ndarray) (col : vec) : error + ndarray :=
  match shape a with
  | [] => inl ValueError
  | nb :: rest =>
      let block_size := foldr Nat.mul 1%nat rest in
      if decide (length col = nb) then
        inr (NDArray (shape a)
                     (imap (fun idx x => f x (nth (idx / block_size) col 0)) (data a)))
      else if decide (length col = 1%nat) then
        inr (NDArray (shape a) (map (fun x => f x (nth 0 col 0)) (data a)))
      else inl ValueError
  end.

Definition scale_blocks (a : ndarray) (col : vec) : error + ndarray :=
  map_blocks Rmult a col.

Definition divide_blocks (n : R) (a : ndarray) (col : vec) : error + ndarray :=
  map_blocks (fun x c => x / (n * c)) a col.

(** [df[k] += x], raising [ValueError] when the shapes do not fit. *)
Definition iadd (a b : ndarray) : error + ndarray :=
  match nd_add a b with
  | Some c => inr c
  | None => inl ValueError
  end.

(** The body of the loop over keys (lines 175-192), for key [k] with
    [x = result[0][k]]; [weight] is [result[0]["weight"]] once multiplied by
    [confweight[i]], [nruns] is [len(allruns)]. *)
Definition combine_key (nruns : nat) (confweight_i : R) (weight : ndarray)
    (df : gmap string ndarray) (k : string) (x : ndarray)
    : error + gmap string ndarray :=
  let dfk := default (nd_zeros (shape x)) (df !! k) in
  if special k then
    dfk' ← iadd dfk (nd_div (nd_scale confweight_i x) (INR nruns));
    mret (<[k := dfk']> df)
  else
    match rank dfk with
    | 1%nat | 2%nat | 3%nat =>
        col ← weight_column weight;
        y ← scale_blocks x col;
        dfk' ← iadd dfk y;
        mret (<[k := dfk']> df)
    | _ => inl NotImplementedError
    end.

(** [for k in keys: ...] over the entries of one result. *)
Fixpoint combine_keys (nruns : nat) (confweight_i : R) (weight : ndarray)
    (df : gmap string ndarray) (stats : list (string * ndarray))
    : error + gmap string ndarray :=
  match stats with
  | [] => mret df
  | (k, x) :: rest =>
      df' ← combine_key nruns confweight_i weight df k x;
      combine_keys nruns confweight_i weight df' rest
  end.

(** [result[0][k]] *)
Fixpoint item (k : string) (stats : list (string * ndarray)) : error + ndarray :=
  match stats with
  | [] => inl KeyError
  | (k', x) :: rest => if decide (k' = k) then inr x else item k rest
  end.

(** [result[0]["weight"] *= confweight[i]], in place. *)
Definition scale_weight (c : R) (stats : list (string * ndarray)) : list (string * ndarray) :=
  map (fun kx => if decide (kx.1 = "weight"%string) then (kx.1, nd_scale c kx.2) else kx)
      stats.

(** One partition: the number of walkers it was given and the outcome of its
    future. *)
Record partition_run (Walker : Type) := PartitionRun {
  run_size : nat;
  run_result : error + (list (string * ndarray) * list Walker);
}.
Arguments PartitionRun {Walker}.
Arguments run_size {Walker}.
Arguments run_result {Walker}.

(** The loop over the futures (lines 169-192); [confweight] is the array of
    line 163-164.  The pair returned holds [df] and [final_coords]. *)
Fixpoint combine_runs {Walker} (nruns : nat) (confweight : vec)
    (runs : list (partition_run Walker))
    (df : gmap string ndarray) (final_coords : list (list Walker)) {struct runs}
    : error + (gmap string ndarray * list (list Walker)) :=
  match runs, confweight with
  | [], _ => mret (df, final_coords)
  | r :: rest, cw :: cws =>
      result ← run_result r;
      weight0 ← item "weight"%string result.1;
      let stats := scale_weight cw result.1 in
      let weight := nd_scale cw weight0 in
      df' ← combine_keys nruns cw weight df stats;
      combine_runs nruns cws rest df' (final_coords ++ [result.2])
  | _ :: _, [] => inl IndexError
  end.

(** The second loop (lines 194-201), for one key. *)
Definition normalize_key (nruns : nat) (df : gmap string ndarray) (k : string)
    : error + gmap string ndarray :=
  if special k then mret df
  else
    dfk ← match df !! k with Some a => inr a | None => inl KeyError end;
    match rank dfk with
    | 1%nat | 2%nat | 3%nat =>
        weight ← match df !! "weight"%string with Some a => inr a | None => inl KeyError end;
        col ← weight_column weight;
        dfk' ← divide_blocks (INR nruns) dfk col;
        mret (<[k := dfk']> df)
    | _ => mret df
    end.

Fixpoint normalize_keys (nruns : nat) (df : gmap string ndarray) (keys : list string)
    : error + gmap string ndarray :=
  match keys with
  | [] => mret df
  | k :: rest => df' ← normalize_key nruns df k; normalize_keys nruns df' rest
  end.

(** Lines 161-205.  [keys] of the second loop is the variable left by the
    last round of the first loop; with no round at all its use raises
    [NameError].  The ensemble returned is the join of the partitions'. *)
Definition dist_sample_overlap {Walker} (runs : list (partition_run Walker))
    : error + (gmap string ndarray * list Walker) :=
  let nruns := length runs in
  let sizes := map (fun r => INR (run_size r)) runs in
  let confweight := map (fun s => s / mean sizes) sizes in
  '(df, final_coords) ← combine_runs nruns confweight runs ∅ [];
  keys ← match last runs with
         | None => inl NameError
         | Some r => result ← run_result r; mret (map fst result.1)
         end;
  df' ← normalize_keys nruns df keys;
  mret (df', concat final_coords).

(** ** The distributed combination in the words of its specification *)

(** The layout of a result: its keys, in order, with the shape of each. *)
Definition layout (stats : list (string * ndarray)) : list (string * list nat) :=
  map (fun kx => (kx.1, shape kx.2)) stats.

(** Results fit for combination: at least one partition; every future
    returned; all results have the layout [sig], a dictionary (no key twice)
    holding a ["weight"] of [nb] blocks by [nwf >= 1] wavefunctions; every
    other statistic of rank 1 to 3 has [nb] blocks. *)
Record well_formed_runs {Walker} (runs : list (partition_run Walker))
    (sig : list (string * list nat)) (nb nwf : nat) : Prop := {
  wf_nonempty : runs <> [];
  wf_results : Forall (fun r => exists stats configs,
                         run_result r = inr (stats, configs) /\ layout stats = sig) runs;
  wf_nodup : NoDup (map fst sig);
  wf_weight : ("weight"%string, [nb; nwf]) ∈ sig;
  wf_nwf : (0 < nwf)%nat;
  wf_blocks : forall k sh, (k, sh) ∈ sig -> special k = false ->
                (1 <= length sh <= 3)%nat -> exists rest, sh = nb :: rest;
}.

(** Some statistic other than the three special ones has a rank outside
    1, 2, 3. *)
Definition unsupported_rank (sig : list (string * list nat)) : Prop :=
  exists k sh, (k, sh) ∈ sig /\ special k = false /\ ~ (1 <= length sh <= 3)%nat.

(** ** The optimisation driver, [optimize_orthogonal] (lines 373-642) *)

(** *** Arrays of rank 0 and 1, and numpy's broadcasting

    [Starget] and [forcing] are whatever the caller passes through
    [np.asarray]: a number becomes an array of rank 0, a sequence of numbers
    an array of rank 1.  No line of the driver looks at their length. *)

Inductive arr01 :=
  | Scalar (x : R)
  | Array1 (v : vec).

(** [f(a, b)] entrywise with broadcasting: equal lengths, or one operand of
    a single entry; anything else raises [ValueError]. *)
Definition broadcast2 (f : R -> R -> R) (a b : arr01) : error + arr01 :=
  match a, b with
  | Scalar x, Scalar y => inr (Scalar (f x y))
  | Scalar x, Array1 v => inr (Array1 (map (f x) v))
  | Array1 u, Scalar y => inr (Array1 (map (fun x => f x y) u))
  | Array1 u, Array1 v =>
      if decide (length u = length v) then inr (Array1 (zip_with f u v))
      else match u, v with
           | [x], _ => inr (Array1 (map (f x) v))
           | _, [y] => inr (Array1 (map (fun x => f x y) u))
           | _, _ => inl ValueError
           end
  end.

(** [a[:, np.newaxis]]: a column; an array of rank 0 cannot be indexed. *)
Definition as_column (a : arr01) : error + vec :=
  match a with
  | Scalar _ => inl IndexError
  | Array1 v => inr v
  end.

(** [f(col[:, np.newaxis], M)] entrywise with broadcasting over the rows. *)
Definition broadcast_column (f : R -> R -> R) (col : vec) (M : matrix) : error + matrix :=
  if decide (length col = length M) then inr (zip_with (fun c row => map (f c) row) col M)
  else match col, M with
       | [c], _ => inr (map (map (f c)) M)
       | _, [row] => inr (map (fun c => map (f c) row) col)
       | _, _ => inl ValueError
       end.

(** [a + b] for two arrays of rank 1. *)
Definition vadd (a b : vec) : error + vec :=
  match broadcast2 Rplus (Array1 a) (Array1 b) with
  | inr (Array1 v) => inr v
  | inr (Scalar _) => inl ValueError
  | inl e => inl e
  end.

(** [a += b] for arrays of rank 1: [b] must fit the length of [a] (numpy
    also takes a [b] of one entry, which [evaluate] does not return). *)
Definition iadd_vec (a b : vec) : error + vec :=
  if decide (length b = length a) then inr (zip_with Rplus a b) else inl ValueError.

Definition iadd_matrix (A B : matrix) : error + matrix :=
  if decide (map length B = map length A) then inr (madd A B) else inl ValueError.

(** [np.linspace(a, b, n)] *)
Definition linspace (a b : R) (n : nat) : vec :=
  map (fun i => a + INR i * ((b - a) / INR (n - 1))) (seq 0 n).

(** [np.mean(M, axis=0)] for rows of length [n]. *)
Definition mean_axis0 (n : nat) (M : matrix) : vec :=
  map (fun x => x / INR (length M)) (sum_axis0 n M).

(** *** What the driver works with *)

(** The dictionary [evaluate] returns (lines 362-370). *)
Record derivative_bundle := DerivativeBundle {
  ev_N : vec;
  ev_S : matrix;
  ev_S_derivative : matrix;
  ev_energy_derivative : vec;
  ev_N_derivative : vec;
  ev_condition : matrix;
  ev_total : R;
}.

(** The arrays filled in the first part of an iteration (lines 500-539). *)
Record accumulated := Accumulated {
  acc_normalization : vec;
  acc_total_energy : R;
  acc_energy_derivative : vec;
  acc_N_derivative : vec;
  acc_condition : matrix;
  acc_overlaps : vec;
  acc_overlap_derivatives : matrix;
  acc_N : R;
}.

(** The record of one iteration, [save_data] (lines 623-636). *)
Record iteration_record := IterationRecord {
  rec_energy : R;
  rec_overlap : vec;
  rec_gradient : vec;
  rec_N : R;
  rec_parameters : vec;
  rec_iteration : nat;
  rec_normalization : vec;
  rec_overlap_derivatives : matrix;
  rec_energy_derivative : vec;
  rec_line_tsteps : vec;
  rec_line_cost : vec;
  rec_line_norm : matrix;
}.

(** The arguments of [optimize_orthogonal] that are numbers. *)
Record options := Options {
  opt_Starget : arr01;
  opt_forcing : arr01;
  opt_tstep : R;
  opt_max_iterations : nat;
  opt_Ntarget : R;
  opt_max_step : R;
  opt_step_offset : nat;
  opt_Ntol : R;
  opt_weight_boundaries : R;
}.

(** What the driver calls without defining: [np.linalg.inv],
    [pyqmc.linemin.sd_update] (the conditioner) and
    [pyqmc.linemin.stable_fit2]. *)
Class Numerics := {
  linalg_inv : matrix -> matrix;
  conditioner : vec -> matrix -> R -> vec;
  stable_fit2 : vec -> vec -> R;
}.

(** [evaluate(wfs, coords, pgrad, sampler, sample_options, warmup)]
    (lines 339-370) runs the overlap sampler on a pair (reference, active)
    and turns its block averages into the bundle above.  The driver uses it
    as one operation that moves the ensemble and the generator along.  What
    it leaves in the wavefunctions' internal values is not followed: every
    later use recomputes them first. *)
Class Sampling (Walker : Type) `{Dynamics Walker} := {
  evaluate : list (wavefunction Walker) -> list Walker -> Rng
             -> derivative_bundle * list Walker * Rng;
}.

(** The checkpoint file [hdf_file] as [ortho_hdf] leaves it: the attributes
    written at set-up, one row per call, the ensemble and the parameters of
    the last call. *)
Record hdf_state (Walker : Type) := HdfState {
  hdf_attr : option options;
  hdf_rows : list iteration_record;
  hdf_configs : option (list Walker);
  hdf_wf : gmap string vec;
}.
Arguments HdfState {Walker}.
Arguments hdf_attr {Walker}.
Arguments hdf_rows {Walker}.
Arguments hdf_configs {Walker}.
Arguments hdf_wf {Walker}.

(** The calls to the samplers, in order. *)
Inductive event :=
  | Sampled (i : nat)             (* [evaluate] on reference [i] *)
  | CorrelatedSampled (i : nat).  (* [correlated_sampler] on reference [i] *)

Record driver_state (Walker RngT : Type) := DriverState {
  ds_wfs : list (wavefunction Walker);
  ds_allcoords : list (list Walker);
  ds_rng : RngT;
  ds_parameters : vec;
  ds_hdf : option (hdf_state Walker);
  ds_trace : list event;
}.
Arguments DriverState {Walker RngT}.
Arguments ds_wfs {Walker RngT}.
Arguments ds_allcoords {Walker RngT}.
Arguments ds_rng {Walker RngT}.
Arguments ds_parameters {Walker RngT}.
Arguments ds_hdf {Walker RngT}.
Arguments ds_trace {Walker RngT}.

(** [ortho_hdf(hdf_file, data, attr, configs, parameters)] (lines 7-20). *)
Definition ortho_hdf {Walker} (hdf_file : option (hdf_state Walker))
    (data : iteration_record) (attr : options) (configs : list Walker)
    (parameters : gmap string vec) : option (hdf_state Walker) :=
  match hdf_file with
  | None => None
  | Some hdf =>
      let hdf1 :=
        match hdf_configs hdf with
        | None => HdfState (Some attr) (hdf_rows hdf) (Some configs) parameters
        | Some _ => hdf
        end in
      Some (HdfState (hdf_attr hdf1) (hdf_rows hdf1 ++ [data]) (Some configs)
                     (parameters ∪ hdf_wf hdf1))
  end.

(** *** Gradient assembly (lines 542-547) *)

Definition gradient_assembly (forcing Starget : arr01) (acc : accumulated) : error + vec :=
  diff ← broadcast2 Rminus (Array1 (acc_overlaps acc)) Starget;
  prod ← broadcast2 Rmult forcing diff;
  col ← as_column prod;
  rows ← broadcast_column Rmult (map (Rmult 2) col) (acc_overlap_derivatives acc);
  let overlap_derivative := sum_axis0 (length (acc_energy_derivative acc)) rows in
  vadd (acc_energy_derivative acc) overlap_derivative.

Section Driver.
Context {Walker : Type} {Tr : Transform} {Acc : Accumulator Walker}
        {Dyn : Dynamics Walker} {Smp : Sampling Walker} {Num : Numerics}.

Abbreviation dstate := (driver_state Walker Rng).

(** A result computed outside the store, raised if it is an error. *)
Definition lift_result {A} (r : error + A) : M dstate A :=
  match r with
  | inl e => raise e
  | inr a => mret a
  end.

(** *** Entry (lines 462-493): the parameter vector is read off the active
        wavefunction, [Starget] and [forcing] are passed through
        [np.asarray], and every reference gets its own copy of the
        ensemble. *)
Definition optimize_entry (wfs : list (wavefunction Walker)) (coords : list Walker)
    (rng : Rng) (hdf_file : option (hdf_state Walker)) : error + dstate :=
  match last wfs with
  | None => inl IndexError
  | Some active =>
      inr (DriverState wfs
                       (map (fun _ => coords) (removelast wfs))
                       rng
                       (serialize_parameters (parameters active))
                       hdf_file
                       [])
  end.

(** *** Sampling (lines 500-540) *)

(** [evaluate([wfs[i], wfs[-1]], allcoords[i], ...)] *)
Definition evaluate_pair (i : nat) : M dstate derivative_bundle :=
  st ← get;
  wf ← lift IndexError (ds_wfs st !! i);
  active ← lift IndexError (last (ds_wfs st));
  coords ← lift IndexError (ds_allcoords st !! i);
  let '(bundle, coords', rng') := evaluate [wf; active] coords (ds_rng st) in
  _ ← put (DriverState (ds_wfs st) (<[i := coords']> (ds_allcoords st)) rng'
                       (ds_parameters st) (ds_hdf st) (ds_trace st ++ [Sampled i]));
  mret bundle.

(** [renormalize(wfs, N)] (lines 322-336), followed by line 527. *)
Definition renormalize (N : R) : M dstate unit :=
  st ← get;
  active ← lift IndexError (last (ds_wfs st));
  coeff ← lift KeyError (parameters active !! "wf1det_coeff"%string);
  let P := <["wf1det_coeff"%string := scale (sqrt ((1 - N) / N)) coeff]> (parameters active) in
  put (DriverState (alter_last (set_parameters P) (ds_wfs st)) (ds_allcoords st) (ds_rng st)
                   (serialize_parameters P) (ds_hdf st) (ds_trace st)).

(** The [while True] of lines 509-527, at most [fuel] rounds of it. *)
Fixpoint renormalize_loop (fuel : nat) (Ntarget Ntol : R) : M dstate (derivative_bundle * R) :=
  match fuel with
  | O => raise Unfinished
  | S fuel' =>
      tmp_deriv ← evaluate_pair 0;
      N ← lift IndexError (last (ev_N tmp_deriv));
      if bool_decide (Rabs (N - Ntarget) < Ntol) then mret (tmp_deriv, N)
      else _ ← renormalize N; renormalize_loop fuel' Ntarget Ntol
  end.

(** Lines 517-523 and 533-539: the share of reference [i]. *)
Definition add_bundle (nref i : nat) (b : derivative_bundle) (acc : accumulated)
    : error + accumulated :=
  Nlast ← (match last (ev_N b) with Some x => inr x | None => inl IndexError end);
  energy_derivative ← iadd_vec (acc_energy_derivative acc)
                               (map (fun x => x / INR nref) (ev_energy_derivative b));
  N_derivative ← iadd_vec (acc_N_derivative acc)
                          (map (fun x => x / INR nref) (ev_N_derivative b));
  condition ← iadd_matrix (acc_condition acc)
                          (map (map (fun x => x / INR nref)) (ev_condition b));
  S_last ← (match last (ev_S b) with Some r => inr r | None => inl IndexError end);
  S_last0 ← (match head S_last with Some x => inr x | None => inl IndexError end);
  dS0 ← (match head (ev_S_derivative b) with Some r => inr r | None => inl IndexError end);
  if decide (length dS0 = length (acc_energy_derivative acc)) then
    inr (Accumulated (<[i := Nlast]> (acc_normalization acc))
                     (acc_total_energy acc + ev_total b / INR nref)
                     energy_derivative N_derivative condition
                     (<[i := S_last0]> (acc_overlaps acc))
                     (<[i := dS0]> (acc_overlap_derivatives acc))
                     (acc_N acc))
  else inl ValueError.

(** The loop of lines 529-539 over the references after the first. *)
Fixpoint accumulate_references (nref : nat) (indices : list nat) (acc : accumulated)
    : M dstate accumulated :=
  match indices with
  | [] => mret acc
  | i :: rest =>
      deriv_data ← evaluate_pair i;
      acc' ← lift_result (add_bundle nref i deriv_data acc);
      accumulate_references nref rest acc'
  end.

Definition sample_phase (fuel : nat) (opts : options) : M dstate accumulated :=
  st ← get;
  let nwf := length (ds_wfs st) in
  let nparm := length (ds_parameters st) in
  let zeros := Accumulated (replicate (nwf - 1) 0) 0 (replicate nparm 0) (replicate nparm 0)
                           (replicate nparm (replicate nparm 0))
                           (replicate (nwf - 1) 0)
                           (replicate (nwf - 1) (replicate nparm 0)) 0 in
  '(tmp_deriv, N) ← renormalize_loop fuel (opt_Ntarget opts) (opt_Ntol opts);
  acc ← lift_result (add_bundle (nwf - 1) 0 tmp_deriv zeros);
  let acc := Accumulated (acc_normalization acc) (acc_total_energy acc)
                         (acc_energy_derivative acc) (acc_N_derivative acc)
                         (acc_condition acc) (acc_overlaps acc)
                         (acc_overlap_derivatives acc) N in
  accumulate_references (nwf - 1) (seq 1 (nwf - 2)) acc.

(** *** The line search (lines 585-613) *)

(** [correlated_sampler([wfs[i], wfs[-1]], icoord, test_parameters, pgrad)]
    in single-process mode: the two objects are those of the driver's list,
    and whatever the call does to them is done to the list. *)
Definition correlated_pair (test_parameters : list vec) (i : nat) (icoord : list Walker)
    : M dstate corr_data :=
  st ← get;
  wf ← lift IndexError (ds_wfs st !! i);
  active ← lift IndexError (last (ds_wfs st));
  let '(r, objects) := correlated_sample icoord test_parameters [wf; active] in
  let wfs' :=
    match objects with
    | [wf'; active'] => alter_last (fun _ => active') (<[i := wf']> (ds_wfs st))
    | _ => ds_wfs st
    end in
  _ ← put (DriverState wfs' (ds_allcoords st) (ds_rng st) (ds_parameters st) (ds_hdf st)
                       (ds_trace st ++ [CorrelatedSampled i]));
  lift_result r.

(** What the line search hands to the update. *)
Record line_result := LineResult {
  line_tsteps : vec;
  line_cost : vec;
  line_weight : matrix;
  line_xfit : vec;
  line_yfit : vec;
}.

(** [a[mask]]: the mask must be as long as the array. *)
Definition boolean_index (mask : list bool) (a : vec) : error + vec :=
  if decide (length mask = length a) then inr (select mask a) else inl IndexError.

(** [ov[0]] *)
Definition first_entry (ov : vec) : error + R :=
  match head ov with
  | Some x => inr x
  | None => inl IndexError
  end.

(** Lines 601-613, from the correlated samples [data];
    [overlap0] is [line_data["overlap"][:, :, 0]]. *)
Definition line_fit (opts : options) (test_tsteps : vec) (data : list corr_data)
    : error + line_result :=
  _ ← (match head data with Some d => inr d | None => inl IndexError end);
  let ncand := length test_tsteps in
  overlap0 ← mapM (fun d => mapM first_entry (data_overlap d)) data;
  fcol ← as_column (opt_forcing opts);
  scol ← as_column (opt_Starget opts);
  diff ← broadcast_column (fun s x => x - s) scol overlap0;
  overlap_cost ← broadcast_column Rmult fcol (map (map (fun x => x ^ 2)) diff);
  cost ← vadd (mean_axis0 ncand (map data_total data)) (sum_axis0 ncand overlap_cost);
  let weight := map data_weight data in
  let mask := line_mask (opt_weight_boundaries opts) weight in
  xfit ← boolean_index mask test_tsteps;
  yfit ← boolean_index mask cost;
  mret (LineResult test_tsteps cost weight xfit yfit).

Definition line_search (opts : options) (total_derivative : vec) (condition : matrix)
    : M dstate line_result :=
  st ← get;
  let test_tsteps := linspace (- opt_tstep opts) (opt_tstep opts) 21 in
  test_parameters ← lift_result
    (mapM (fun x => vadd (ds_parameters st) (conditioner total_derivative condition x))
          test_tsteps);
  data ← for_each (fun ic => correlated_pair test_parameters ic.1 ic.2)
                  (zip (seq 0 (length (ds_wfs st))) (ds_allcoords st));
  lift_result (line_fit opts test_tsteps data).

(** *** Update and record (lines 615-640) *)

Definition commit (opts : options) (coords : list Walker) (step : nat) (acc : accumulated)
    (total_derivative : vec) (condition : matrix) (ls : line_result) : M dstate unit :=
  st ← get;
  parameters' ← lift_result
    (if bool_decide (0 < length (line_xfit ls))%nat then
       let min_tstep := stable_fit2 (line_xfit ls) (line_yfit ls) in
       iadd_vec (ds_parameters st) (conditioner total_derivative condition min_tstep)
     else inr (ds_parameters st));
  let wfs' := alter_last (fun wf => set_parameters (deserialize parameters' ∪ parameters wf) wf)
                         (ds_wfs st) in
  let save_data :=
    IterationRecord (acc_total_energy acc) (acc_overlaps acc) total_derivative (acc_N acc)
                    parameters' (step + opt_step_offset opts) (acc_normalization acc)
                    (acc_overlap_derivatives acc) (acc_energy_derivative acc)
                    (line_tsteps ls) (line_cost ls) (line_weight ls) in
  put (DriverState wfs' (ds_allcoords st) (ds_rng st) parameters'
                   (ortho_hdf (ds_hdf st) save_data opts coords (deserialize parameters'))
                   (ds_trace st)).

(** *** One iteration, and the driver *)

(** Lines 500-547. *)
Definition iteration_front (fuel : nat) (opts : options) : M dstate (accumulated * vec) :=
  acc ← sample_phase fuel opts;
  total_derivative ← lift_result (gradient_assembly (opt_forcing opts) (opt_Starget opts) acc);
  mret (acc, total_derivative).

(** Lines 585-640. *)
Definition iteration_tail (opts : options) (coords : list Walker) (step : nat)
    (acc : accumulated) (total_derivative : vec) (condition : matrix) : M dstate unit :=
  ls ← line_search opts total_derivative condition;
  commit opts coords step acc total_derivative condition ls.

Definition iteration (fuel : nat) (opts : options) (coords : list Walker) (step : nat)
    : M dstate unit :=
  '(acc, total_derivative) ← iteration_front fuel opts;
  let '(t, n) := sr_condition linalg_inv (acc_condition acc) total_derivative
                              (acc_N_derivative acc) in
  let total_derivative := clip (opt_max_step opts) (project t n) in
  iteration_tail opts coords step acc total_derivative (acc_condition acc).

(** [optimize_orthogonal]: entry, then [max_iterations] iterations.  Each
    [while True] gets [fuel] rounds. *)
Definition optimize_orthogonal (fuel : nat) (opts : options)
    (wfs : list (wavefunction Walker)) (coords : list Walker) (rng : Rng)
    (hdf_file : option (hdf_state Walker)) : (error + unit) * option dstate :=
  match optimize_entry wfs coords rng hdf_file with
  | inl e => (inl e, None)
  | inr st0 =>
      let '(r, st) := for_each (iteration fuel opts coords)
                               (seq 0 (opt_max_iterations opts)) st0 in
      (match r with inl e => inl e | inr _ => inr () end, Some st)
  end.
End Driver.

(** *** The lengths of [Starget] and [forcing] in the words of numpy *)

(** The length two arrays of rank 1 broadcast to, if they do. *)
Definition bshape (a b : nat) : option nat :=
  if decide (a = b) then Some a
  else if decide (a = 1%nat) then Some b
  else if decide (b = 1%nat) then Some a
  else None.

(** [forcing] (of length [lenF]) and [Starget] (of length [lenS]) broadcast
    against the arrays of [nref] references in line 543:
    [overlaps - Starget], then [forcing * ...], then the column times the
    [nref] rows of [overlap_derivatives]. *)
Definition lengths_broadcast (nref lenF lenS : nat) : Prop :=
  exists m1 m2, bshape nref lenS = Some m1 /\ bshape lenF m1 = Some m2 /\
                is_Some (bshape m2 nref).


(** ** Further quantities of the correlated sampler *)

Section CorrelatedDensity.
Context {Walker : Type}.

(** The ratio [rho' / rho] at walker [w], without the shift by [ref]: the
    density of the references and the candidate over the density of the
    references and the active wavefunction at the entry parameters. *)
Definition density_ratio (wfs : list (wavefunction Walker)) (cand : wavefunction Walker)
    (w : Walker) : R :=
  (vsum (map (fun wf => exp (2 * logmag_at wf (parameters wf) w)) (removelast wfs))
   + exp (2 * logmag_at cand (parameters cand) w))
  / vsum (map (fun wf => exp (2 * logmag_at wf (parameters wf) w)) wfs).
End CorrelatedDensity.

(** ** [evaluate] (lines 339-370): from the sampler's blocks to the
       derivative bundle

    Line 340 calls the sampler.  What follows reads six arrays of the
    dictionary it returned, each with the blocks as first axis: ["overlap"]
    (blocks x nwf x nwf), ["overlap_gradient"] (blocks x nwf x nparm),
    ["dpH"] and ["dppsi"] (blocks x nparm), ["total"] (blocks) and
    ["dpidpj"] (blocks x nparm x nparm).  They are given here block by
    block, with the two extents the shapes carry; a dictionary that lacks
    one of them ([KeyError]) is outside this definition. *)

Record sampler_output := SamplerOutput {
  out_nwf : nat;
  out_nparm : nat;
  out_overlap : list matrix;
  out_overlap_gradient : list matrix;
  out_dpH : list vec;
  out_total : list R;
  out_dppsi : list vec;
  out_dpidpj : list matrix;
}.

(** [v[i]] and [A[i, j]] *)
Definition entry1 (v : vec) (i : nat) : R := nth i v 0.
Definition entry2 (A : matrix) (i j : nat) : R := nth j (nth i A []) 0.

(** [np.average(it[warmup:, ...], axis=0)] (lines 347-348) for blocks that
    are numbers, vectors of length [n] and [n] x [m] matrices: entry by
    entry, the mean over the blocks left after the first [warmup].  With no
    block left numpy answers [nan]; the mean is then a division by zero. *)
Definition block_average0 (warmup : nat) (it : list R) : R := mean (drop warmup it).

Definition block_average1 (warmup n : nat) (it : list vec) : vec :=
  map (fun i => mean (map (fun v => entry1 v i) (drop warmup it))) (seq 0 n).

Definition block_average2 (warmup n m : nat) (it : list matrix) : matrix :=
  map (fun i => map (fun j => mean (map (fun A => entry2 A i j) (drop warmup it)))
                    (seq 0 m))
      (seq 0 n).

(** [A.diagonal()]: the entries [A[i, i]], as many as the smaller extent. *)
Definition diagonal (A : matrix) : vec :=
  omap (fun ir : nat * list R => ir.2 !! ir.1) (zip (seq 0 (length A)) A).

(** [np.outer(u, v)], also [np.einsum("i,j->ij", u, v)]. *)
Definition outer (u v : vec) : matrix := map (fun a => map (Rmult a) v) u.

(** [x[-1]] *)
Definition last_entry {A} (l : list A) : error + A :=
  match last l with
  | Some x => inr x
  | None => inl IndexError
  end.

(** Lines 346-370. *)
Definition evaluate_blocks (warmup : nat) (out : sampler_output) : error + derivative_bundle :=
  let nwf := out_nwf out in
  let nparm := out_nparm out in
  let overlap := block_average2 warmup nwf nwf (out_overlap out) in
  let overlap_gradient := block_average2 warmup nwf nparm (out_overlap_gradient out) in
  let dpH := block_average1 warmup nparm (out_dpH out) in
  let total := block_average0 warmup (out_total out) in
  let dppsi := block_average1 warmup nparm (out_dppsi out) in
  let dpidpj := block_average2 warmup nparm nparm (out_dpidpj out) in
  let N := diagonal overlap in
  og_last ← last_entry overlap_gradient;
  let N_derivative := map (Rmult 2) og_last in
  let Nij := outer N N in
  let S := zip_with (zip_with (fun o x => o / sqrt x)) overlap Nij in
  Nij_last ← last_entry Nij;
  overlap_last ← last_entry overlap;
  N_last ← last_entry N;
  let S_derivative :=
    zip_with (zip_with Rminus)
      (zip_with (fun row x => map (fun g => g / x) row) overlap_gradient Nij_last)
      (outer (zip_with Rdiv overlap_last Nij_last) (map (fun d => d / N_last) N_derivative)) in
  let energy_derivative := zip_with (fun h d => 2 * (h - total * d)) dpH dppsi in
  let condition := zip_with (zip_with Rminus) dpidpj (outer dppsi dppsi) in
  mret (DerivativeBundle N S S_derivative energy_derivative N_derivative condition total).

(** The averaged entries [evaluate] works with, in the words of line 348. *)
Definition avg_overlap (warmup : nat) (out : sampler_output) (i j : nat) : R :=
  mean (map (fun A => entry2 A i j) (drop warmup (out_overlap out))).
Definition avg_dpidpj (warmup : nat) (out : sampler_output) (i j : nat) : R :=
  mean (map (fun A => entry2 A i j) (drop warmup (out_dpidpj out))).
Definition avg_dppsi (warmup : nat) (out : sampler_output) (i : nat) : R :=
  mean (map (fun v => entry1 v i) (drop warmup (out_dppsi out))).


(** ** The distributed correlated sampler, [dist_correlated_sample]
       (lines 293-319)

    As for the overlap sampler the worker pool is external: a partition is
    the number of walkers it was given and the outcome of its future.  The
    results of the partitions have the same shapes, as those of one call on
    the same wavefunctions and candidates do. *)

Record corr_run := CorrRun {
  crun_size : nat;
  crun_result : error + corr_data;
}.

(** What the call returns: ["total"], ["weight"], ["rhoprime"] (one entry
    per candidate), ["overlap"] (candidates x wavefunctions) and
    ["base_weight"], which keeps the axis of the partitions. *)
Record dist_corr_data := DistCorrData {
  dist_total : vec;
  dist_weight : vec;
  dist_overlap : matrix;
  dist_rhoprime : vec;
  dist_base_weight : matrix;
}.

(** [a[:, p]] *)
Definition column (a : matrix) (p : nat) : vec := map (fun row => entry1 row p) a.

(** [np.average(a, weights=w, axis=0)] for [a] and [w] of shape
    (partitions, [ncand]): numpy raises [ZeroDivisionError] when the weights
    of some column sum to zero. *)
Definition average_axis0 (ncand : nat) (a w : matrix) : error + vec :=
  mapM (fun p => match average (column a p) (column w p) with
                 | Some x => inr x
                 | None => inl ZeroDivisionError
                 end)
       (seq 0 ncand).

(** [np.average(a, weights=w, axis=0)] for [a] of shape (partitions, [ncand],
    [nwf]) and one weight per partition. *)
Definition average_overlap (ncand nwf : nat) (a : list matrix) (w : vec) : error + matrix :=
  if decide (vsum w = 0) then inl ZeroDivisionError
  else inr (map (fun p =>
                   map (fun j => vsum (zip_with Rmult (map (fun A => entry2 A p j) a) w)
                                 / vsum w)
                       (seq 0 nwf))
                (seq 0 ncand)).

(** Lines 304-319.  [allresults[0]] raises [IndexError] when there is no
    partition; the first future that failed raises its exception. *)
Definition dist_correlated_sample (runs : list corr_run) : error + dist_corr_data :=
  allresults ← mapM crun_result runs;
  first ← match head allresults with Some r => inr r | None => inl IndexError end;
  let ncand := length (data_total first) in
  let nwf := length (data_base_weight first) in
  let sizes := map (fun r => INR (crun_size r)) runs in
  let confweight := map (fun s => s / mean sizes) sizes in
  let rhowt := zip_with (fun r c => map (fun x => x * c) (data_rhoprime r))
                        allresults confweight in
  let wt := zip_with (zip_with Rmult) (map data_weight allresults) rhowt in
  total ← average_axis0 ncand (map data_total allresults) wt;
  overlap ← average_overlap ncand nwf (map data_overlap allresults) confweight;
  weight ← average_axis0 ncand (map data_weight allresults) rhowt;
  let rhoprime := map (fun p => mean (column rhowt p)) (seq 0 ncand) in
  mret (DistCorrData total weight overlap rhoprime (map data_base_weight allresults)).

(** ** Sequences of calls *)

(** The ensemble a partition's future returned. *)
Definition run_configs {Walker} (r : partition_run Walker) : list Walker :=
  match run_result r with
  | inr (_, configs) => configs
  | inl _ => []
  end.

(** ** The renormalization loop, seen from the active wavefunction *)

(** What [renormalize(wfs, N)] leaves of the active wavefunction (lines
    333-336), and what a run of renormalizations at the normalizations
    [Ns], the earliest first, leaves of it. *)
Definition renormalized_once {Walker} (N : R) (wf : wavefunction Walker)
    : wavefunction Walker :=
  set_parameters
    (<["wf1det_coeff"%string :=
         scale (sqrt ((1 - N) / N)) (default [] (parameters wf !! "wf1det_coeff"%string))]>
       (parameters wf))
    wf.

Definition renormalized {Walker} (Ns : list R) (wf : wavefunction Walker)
    : wavefunction Walker :=
  foldl (fun wf N => renormalized_once N wf) wf Ns.
(** ** Concrete collaborators for the examples

    A transform with a single optimised entry ["a"], an accumulator whose
    local energy is 1 everywhere, a wavefunction of constant value (phase 1,
    log-magnitude 0) and one whose evaluation raises once ["a"] is [[1]]. *)

Definition ex_transform : Transform :=
  {| serialize_parameters P := default [] (P !! "a"%string);
     deserialize v := {["a"%string := v]} |}.

Definition ex_accumulator : Accumulator unit :=
  {| enacc_total _ _ := Some 1;
     dppsi_regularized _ _ := [];
     avg _ _ _ := ∅ |}.

Definition ex_amplitude (P : gmap string (list R)) (w : unit) : option (R * R) :=
  Some (1, 0).

Definition ex_amplitude_partial (P : gmap string (list R)) (w : unit) : option (R * R) :=
  if decide (P !! "a"%string = Some [1]) then None else Some (1, 0).

Definition ex_reference : wavefunction unit :=
  Wavefunction ex_amplitude ∅ [].

Definition ex_active : wavefunction unit :=
  Wavefunction ex_amplitude {["a"%string := [0]]} [].

Definition ex_fragile : wavefunction unit :=
  Wavefunction ex_amplitude_partial {["a"%string := [0]]} [].

Definition ex_wfs : list (wavefunction unit) := [ex_reference] ++ [ex_active].

(** The active wavefunction with the candidate [[1]] installed and
    recomputed. *)
Definition ex_candidate : wavefunction unit :=
  active_after (Tr := ex_transform) [()] (recomputed [()] ex_active) (take 1 [[1]]).

(** A sampler whose sweep leaves the walkers where they are. *)
Definition ex_dynamics : Dynamics unit :=
  {| Rng := unit; sweep _ configs rng := (configs, rng) |}.

Definition ex_state : sampler_state unit unit := SamplerState ex_wfs [()] ().

(** Two results of one block and two wavefunctions: a rank 1 statistic
    ["total"] beside ["weight"], and the same with a rank 0 ["total"]. *)
Definition ex_runs : list (partition_run unit) :=
  [PartitionRun 1 (inr ([("total"%string, NDArray [1%nat] [2]);
                         ("weight"%string, NDArray [1%nat; 2%nat] [1/2; 1/2])], [()]))].

Definition ex_runs_scalar : list (partition_run unit) :=
  [PartitionRun 1 (inr ([("total"%string, NDArray [] [2]);
                         ("weight"%string, NDArray [1%nat; 2%nat] [1/2; 1/2])], [()]))].

(** The numerical routines: an inverse that returns its argument, the
    steepest-descent update [- x * gradient], a fit that answers 0. *)
Definition ex_numerics : Numerics :=
  {| linalg_inv M := M;
     conditioner total_derivative _ x := map (fun g => - x * g) total_derivative;
     stable_fit2 _ _ := 0 |}.

(** A sampler that reports normalization 1/2, no overlap and no gradient,
    and leaves the ensemble where it is. *)
Definition ex_bundle : derivative_bundle :=
  DerivativeBundle [1/2; 1/2] [[1; 0]; [0; 1]] [[0]; [0]] [0] [0] [[0]] 0.

Definition ex_sampling : @Sampling unit ex_dynamics :=
  {| evaluate _ coords rng := (ex_bundle, coords, rng) |}.

Definition ex_options (Starget forcing : vec) (weight_boundaries : R) : options :=
  Options (Array1 Starget) (Array1 forcing) (1/10) 1 (1/2) 10 0 (5/100) weight_boundaries.

(** The driver's state on entry with two references, and with one. *)
Definition ex_driver3 : driver_state unit unit :=
  DriverState [ex_reference; ex_reference; ex_active] [[()]; [()]] () [0] None [].

Definition ex_driver2 : driver_state unit unit :=
  DriverState ex_wfs [[()]] () [0] (Some (HdfState None [] None ∅)) [].


(** An active wavefunction with determinant coefficients, and the driver's
    state with it and one reference. *)
Definition ex_determinant : wavefunction unit :=
  Wavefunction ex_amplitude {["wf1det_coeff"%string := [1; 1]]} [].

Definition ex_driver_det : driver_state unit unit :=
  DriverState [ex_reference; ex_determinant] [[()]] () [1; 1] None [].

(** Two blocks of sampler output for two wavefunctions and one parameter,
    and the same with another first block. *)
Definition ex_output : sampler_output :=
  SamplerOutput 2 1
    [[[1; 0]; [0; 0]]; [[1/2; 0]; [0; 1/2]]]
    [[[0]; [0]]; [[0]; [0]]]
    [[0]; [0]]
    [5; 1]
    [[0]; [0]]
    [[[0]]; [[0]]].

Definition ex_output' : sampler_output :=
  SamplerOutput 2 1
    [[[0; 0]; [0; 1]]; [[1/2; 0]; [0; 1/2]]]
    [[[7]; [7]]; [[0]; [0]]]
    [[3]; [0]]
    [2; 1]
    [[4]; [0]]
    [[[9]]; [[0]]].

(** The result of one partition, for one candidate and two wavefunctions. *)
Definition ex_corr_data : corr_data :=
  CorrData [1] [1/2] [[1; 1]] [1] [1/2; 1/2].

(** Two partitions of [n1] and [n2] walkers, as the workers return them:
    one block and two wavefunctions each, a statistic ["total"] of shape
    [(1, 2)] and the ["weight"] of the block. *)
Definition two_runs (n1 n2 : nat) (x1 y1 v1 w1 x2 y2 v2 w2 : R)
  : list (partition_run unit) :=
  [PartitionRun n1 (inr ([("total"%string, NDArray [1%nat; 2%nat] [x1; y1]);
                          ("weight"%string, NDArray [1%nat; 2%nat] [v1; w1])],
                         replicate n1 ()));
   PartitionRun n2 (inr ([("total"%string, NDArray [1%nat; 2%nat] [x2; y2]);
                          ("weight"%string, NDArray [1%nat; 2%nat] [v2; w2])],
                         replicate n2 ()))].

(** A sampler that reports the normalization of the active wavefunction's
    coefficients against a reference of unit weight, [N = B / (1 + B)] with
    [B] the squared length of the coefficients. *)
Definition ex_norm (wfs : list (wavefunction unit)) : R :=
  match last wfs with
  | Some wf =>
      let c := default [] (parameters wf !! "wf1det_coeff"%string) in
      dot c c / (1 + dot c c)
  | None => 0
  end.

Definition ex_sampling_norm : @Sampling unit ex_dynamics :=
  {| evaluate wfs coords rng :=
       (DerivativeBundle [1 - ex_norm wfs; ex_norm wfs]
                         [[1; 0]; [0; 1]] [[0]; [0]] [0] [0] [[0]] 0, coords, rng) |}.
(* ===================================================================== *)
(** * Part II.  Properties                                                *)
(* ===================================================================== *)

(** ** Sums, dot products and norms *)

Lemma vsum_app (u v : vec) : vsum (u ++ v) = vsum u + vsum v.
Proof. induction u as [|x u IH]; simpl; [lra | rewrite IH; lra]. Qed.

Lemma vsum_scale (c : R) (v : vec) : vsum (scale c v) = c * vsum v.
Proof. induction v as [|x v IH]; simpl; [lra | rewrite IH; lra]. Qed.

Lemma dot_nonneg (v : vec) : 0 <= dot v v.
Proof.
  unfold dot. induction v as [|x v IH]; simpl; [lra|].
  pose proof (Rle_0_sqr x) as Hx. unfold Rsqr in Hx. lra.
Qed.

Lemma norm_nonneg (v : vec) : 0 <= norm v.
Proof. apply sqrt_pos. Qed.

Lemma norm_sq (v : vec) : norm v ^ 2 = dot v v.
Proof. unfold norm. simpl. rewrite Rmult_1_r. apply sqrt_sqrt, dot_nonneg. Qed.

(** The dot product is linear in a left operand of the form
    [t_i - c * n_i / d], provided both vectors are equally long. *)
Lemma dot_project_l (c d : R) (t n m : vec) :
  length t = length n ->
  dot (zip_with (fun a b => a - c * b / d) t n) m = dot t m - c / d * dot n m.
Proof.
  unfold dot. revert n m.
  induction t as [|a t IH]; intros [|b n] m Hlen; simplify_eq/=.
  - destruct m; simpl; lra.
  - destruct m as [|x m]; simpl; [lra|].
    rewrite (IH n m) by done. unfold Rdiv. lra.
Qed.

Lemma length_matvec (M : matrix) (v : vec) : length (matvec M v) = length M.
Proof. unfold matvec. by rewrite length_map. Qed.

Lemma dot_scale_scale (c : R) (v : vec) :
  dot (scale c v) (scale c v) = c ^ 2 * dot v v.
Proof. unfold dot, scale. induction v as [|x v IH]; simpl in *; [lra | rewrite IH; lra]. Qed.

Lemma norm_scale (c : R) (v : vec) : 0 <= c -> norm (scale c v) = c * norm v.
Proof.
  intros Hc. unfold norm. rewrite dot_scale_scale.
  rewrite sqrt_mult; [|nra|apply dot_nonneg].
  f_equal. simpl. rewrite Rmult_1_r. by apply sqrt_square.
Qed.

Lemma clip_as_scale (max_step d : R) (v : vec) :
  map (fun t => t * max_step / d) v = scale (max_step / d) v.
Proof. unfold scale. apply map_ext. intros x. unfold Rdiv. lra. Qed.

(** ** C6: the projection step *)

Section Projection.
Variable inv : matrix -> matrix.

(** C6.  After conditioning, when the conditioned [N_derivative] has norm
    above [1e-8] the projected [total_derivative] is orthogonal to it
    (its dot product with it is exactly zero); when the norm is at most
    [1e-8] the projection leaves [total_derivative] as it is. *)
Theorem project_orthogonal (condition : matrix) (total_derivative N_derivative : vec) :
  let '(t, n) := sr_condition inv condition total_derivative N_derivative in
  (norm n > 1e-8 -> dot (project t n) n = 0) /\
  (norm n <= 1e-8 -> project t n = t).
Proof.
  unfold sr_condition.
  set (Minv := inv _). set (t := matvec Minv total_derivative). set (n := matvec Minv N_derivative).
  assert (Hlen : length t = length n) by (subst t n; by rewrite !length_matvec).
  split; intros Hn; unfold project.
  - rewrite bool_decide_eq_true_2 by done.
    rewrite dot_project_l by done.
    rewrite norm_sq.
    assert (0 < dot n n).
    { pose proof (norm_sq n) as Hsq. pose proof (norm_nonneg n). nra. }
    field. lra.
  - rewrite bool_decide_eq_false_2; [done|]. unfold Rgt. lra.
Qed.
End Projection.

(** ** C7: step clipping *)

(** C7.  Clipping is the identity on a vector whose norm is at most
    [max_step]; on a longer vector (for a positive [max_step]) the result has
    norm exactly [max_step] and is a positive multiple of the original. *)
Theorem clip_spec (max_step : R) (total_derivative : vec) :
  (norm total_derivative <= max_step ->
     clip max_step total_derivative = total_derivative) /\
  (0 < max_step -> norm total_derivative > max_step ->
     norm (clip max_step total_derivative) = max_step /\
     exists c, 0 < c /\ clip max_step total_derivative = scale c total_derivative).
Proof.
  split.
  - intros Hle. unfold clip. rewrite bool_decide_eq_false_2; [done|]. unfold Rgt. lra.
  - intros Hpos Hgt. unfold clip. rewrite bool_decide_eq_true_2 by done.
    rewrite clip_as_scale.
    assert (Hn : 0 < norm total_derivative) by (unfold Rgt in Hgt; lra).
    assert (Hc : 0 < max_step / norm total_derivative) by (by apply Rdiv_lt_0_compat).
    split.
    + rewrite norm_scale by lra. field. lra.
    + by exists (max_step / norm total_derivative).
Qed.

(** ** C1: the line search filter *)

Lemma mask_entry_true (wb w : R) :
  mask_entry wb w = true <-> Rabs (w - 1) > wb /\ Rabs w > wb.
Proof.
  unfold mask_entry. rewrite andb_true_iff, !bool_decide_eq_true. done.
Qed.

Lemma length_foldl_zip_andb (r : list bool) (rs : list (list bool)) :
  Forall (fun row => length row = length r) rs ->
  length (foldl (zip_with andb) r rs) = length r.
Proof.
  revert r. induction rs as [|r' rs IH]; intros r Hrs; simpl; [done|].
  inversion Hrs as [|? ? Hr' Hrs']; subst.
  rewrite IH.
  - rewrite length_zip_with. lia.
  - eapply Forall_impl; [exact Hrs'|]. intros row Hrow. simpl in Hrow.
    rewrite length_zip_with. lia.
Qed.

(** Column [c] of [np.all(m, axis=0)] is true exactly when column [c] of
    every row is. *)
Lemma foldl_zip_andb_lookup (r : list bool) (rs : list (list bool)) (c : nat) :
  foldl (zip_with andb) r rs !! c = Some true <->
  r !! c = Some true /\ Forall (fun row => row !! c = Some true) rs.
Proof.
  revert r. induction rs as [|r' rs IH]; intros r; simpl.
  - split; [intros H; split; [done|constructor] | by intros [H _]].
  - rewrite IH, Forall_cons, lookup_zip_with.
    destruct (r !! c) as [[]|], (r' !! c) as [[]|]; simpl; intuition congruence.
Qed.

Lemma all_axis0_lookup (r : list bool) (rs : list (list bool)) (c : nat) :
  all_axis0 (r :: rs) !! c = Some true <->
  Forall (fun row => row !! c = Some true) (r :: rs).
Proof. unfold all_axis0. by rewrite foldl_zip_andb_lookup, Forall_cons. Qed.

(** Boolean indexing keeps the entries whose mask is set, in order. *)
Lemma elem_of_select {A} (mask : list bool) (xs : list A) (x : A) :
  x ∈ select mask xs <-> exists c, mask !! c = Some true /\ xs !! c = Some x.
Proof.
  unfold select. rewrite list_elem_of_omap. split.
  - intros [[b y] [Hin Hb]]. simpl in Hb. destruct b; simplify_eq.
    apply list_elem_of_lookup in Hin as [c Hc].
    apply lookup_zip_with_Some in Hc as (b' & y' & ? & ? & ?); simplify_eq.
    by exists c.
  - intros (c & Hm & Hx). exists (true, x). split; [|done].
    apply list_elem_of_lookup. exists c.
    apply lookup_zip_with_Some. by exists true, x.
Qed.

Lemma select_nil_iff {A} (mask : list bool) (xs : list A) :
  length mask = length xs ->
  select mask xs = [] <-> Forall (fun b => b = false) mask.
Proof.
  unfold select. revert xs. induction mask as [|b mask IH]; intros [|x xs] Hlen;
    simplify_eq/=; [done|].
  destruct b; simpl.
  - split; [done|]. intros H. by inversion H.
  - rewrite IH by done. split; [by constructor|]. intros H. by inversion H.
Qed.

(** C1, as the code has it.  Candidate [c] enters the fit exactly when, for
    every reference, its weight is further than [weight_boundaries] from 1
    and further than [weight_boundaries] from 0. *)
Theorem line_mask_spec (weight_boundaries : R) (line_weight : matrix) (c : nat) :
  line_weight <> [] ->
  line_mask weight_boundaries line_weight !! c = Some true <->
  Forall (fun row => exists w, row !! c = Some w /\
                       Rabs (w - 1) > weight_boundaries /\
                       Rabs w > weight_boundaries) line_weight.
Proof.
  intros Hne. unfold line_mask.
  destruct line_weight as [|r rs]; [done|]. rewrite fmap_cons.
  rewrite all_axis0_lookup, <- fmap_cons, Forall_fmap.
  apply Forall_iff. intros row. simpl. rewrite list_lookup_fmap.
  destruct (row !! c) as [w|]; simpl.
  - split.
    + intros [= H]. exists w. split; [done|]. by apply mask_entry_true.
    + intros (w' & [= <-] & H). f_equal. by apply mask_entry_true.
  - split; [done|]. by intros (w' & ? & _).
Qed.

Lemma line_mask_spec_witness :
  line_mask (3/10) [[1/2]] !! 0%nat = Some true <->
  Forall (fun row => exists w, row !! 0%nat = Some w /\
                       Rabs (w - 1) > 3/10 /\ Rabs w > 3/10) [[1/2]].
Proof. apply (line_mask_spec (3/10) [[1/2]] 0). discriminate. Defined.

(** C1 as the specification words it fails: with a single reference of
    weight 1/2 and [weight_boundaries = 0.3] the candidate enters the fit
    although its weight is 0.5 away from 1; and a candidate of weight exactly
    1 is left out although it does not deviate from 1 at all. *)
Lemma line_mask_keeps_deviating :
  (line_mask (3/10) [[1/2]] !! 0%nat = Some true /\ ~ Rabs (1/2 - 1) <= 3/10) /\
  (line_mask (3/10) [[1]] !! 0%nat = Some false /\ Rabs (1 - 1) <= 3/10).
Proof.
  assert (H1 : Rabs (1/2 - 1) = 1/2).
  { replace (1/2 - 1) with (- (1/2)) by lra. rewrite Rabs_Ropp, Rabs_right; lra. }
  assert (H2 : Rabs (1/2) = 1/2) by (rewrite Rabs_right; lra).
  assert (H3 : Rabs (1 - 1) = 0) by (replace (1 - 1) with 0 by lra; apply Rabs_R0).
  split; split.
  - unfold line_mask, all_axis0, mask_entry. simpl. rewrite H1, H2.
    rewrite !bool_decide_eq_true_2 by (unfold Rgt; lra). done.
  - rewrite H1. lra.
  - unfold line_mask, all_axis0, mask_entry. simpl. rewrite H3.
    rewrite (bool_decide_eq_false_2 (0 > 3/10)) by (unfold Rgt; lra). done.
  - rewrite H3. lra.
Qed.

Lemma clip_spec_witness :
  clip 1 [1/2] = [1/2] /\
  norm (clip 1 [3; 4]) = 1 /\
  exists c, 0 < c /\ clip 1 [3; 4] = scale c [3; 4].
Proof.
  assert (H5 : norm [3; 4] = 5).
  { unfold norm, dot. simpl. replace (3 * 3 + (4 * 4 + 0)) with (5 * 5) by lra.
    apply sqrt_square. lra. }
  assert (Hh : norm [1/2] = 1/2).
  { unfold norm, dot. simpl. replace (1 / 2 * (1 / 2) + 0) with (1 / 2 * (1 / 2)) by lra.
    apply sqrt_square. lra. }
  split.
  - apply (proj1 (clip_spec 1 [1/2])). rewrite Hh. lra.
  - apply (proj2 (clip_spec 1 [3; 4])); [lra|]. rewrite H5. lra.
Defined.

(** ** Arrays over walkers *)

Lemma zip_with_map_map {A B C D} (f : B -> C -> D) (g : A -> B) (h : A -> C) (l : list A) :
  zip_with f (map g l) (map h l) = map (fun x => f (g x) (h x)) l.
Proof. induction l as [|x l IH]; simpl; [done | by rewrite IH]. Qed.

Lemma replicate_zero_map {A} (l : list A) : replicate (length l) 0 = map (fun _ => 0) l.
Proof. induction l as [|x l IH]; simpl; [done | by rewrite IH]. Qed.

(** Summing rows that are all maps over the same walkers is the walker-wise
    sum. *)
Lemma sum_axis0_map {A B} (g : A -> B -> R) (rows : list A) (l : list B) :
  sum_axis0 (length l) (map (fun r => map (g r) l) rows)
  = map (fun x => vsum (map (fun r => g r x) rows)) l.
Proof.
  unfold sum_axis0. induction rows as [|r rows IH]; simpl.
  - apply replicate_zero_map.
  - rewrite IH. apply zip_with_map_map.
Qed.

Lemma sum_axis0_ext {A B} (F : A -> vec) (g : A -> B -> R) (rows : list A) (l : list B) :
  (forall r, F r = map (g r) l) ->
  sum_axis0 (length l) (map F rows) = map (fun x => vsum (map (fun r => g r x) rows)) l.
Proof.
  intros HF. rewrite <- sum_axis0_map. f_equal. apply map_ext. intros r. apply HF.
Qed.

Lemma vsum_pos_map {A} (f : A -> R) (l : list A) :
  l <> [] -> (forall x, 0 < f x) -> 0 < vsum (map f l).
Proof.
  intros Hne Hf. destruct l as [|x l]; [done|]. clear Hne. simpl.
  assert (0 <= vsum (map f l)).
  { induction l as [|y l IH]; simpl; [lra|]. pose proof (Hf y). lra. }
  pose proof (Hf x). lra.
Qed.

Lemma vmax_is_Some (v : vec) : v <> [] -> is_Some (vmax v).
Proof. destruct v; [done|]. by eexists. Qed.

(** ** Running the state-and-error monad *)

Ltac run_M :=
  repeat (unfold mbind, M_bind, mret, M_ret, get, put, lift, raise; simpl).

Lemma M_bind_run {S A B} (f : A -> M S B) (m : M S A) (s : S) :
  (m ≫= f) s = match m s with
               | (inr a, s') => f a s'
               | (inl e, s') => (inl e, s')
               end.
Proof. done. Qed.

Lemma alter_last_snoc {A} (f : A -> A) (l : list A) (x : A) :
  alter_last f (l ++ [x]) = l ++ [f x].
Proof.
  induction l as [|y l IH]; simpl; [done|].
  rewrite IH. destruct (l ++ [x]) eqn:E; [by destruct l|done].
Qed.

Lemma alter_last_length {A} (f : A -> A) (l : list A) :
  length (alter_last f l) = length l.
Proof.
  induction l as [|y l IH]; simpl; [done|]. destruct l; simpl in *; [done|]. by rewrite IH.
Qed.

Section CorrelatedProps.
Context {Walker : Type} {Tr : Transform} {Acc : Accumulator Walker}.
Implicit Types (wf a act : wavefunction Walker) (wfs refs : list (wavefunction Walker)).
Implicit Types (configs : list Walker) (cands : list vec).

(** *** Evaluations *)

Lemma eval_at_Some wf P configs vals :
  eval_at wf P configs = Some vals -> vals = map (amp wf P) configs.
Proof.
  unfold eval_at. rewrite mapM_Some. intros HF.
  induction HF as [|w v ws vs Hw _ IH]; simpl; [done|].
  unfold amp at 1. rewrite Hw. simpl. by rewrite IH.
Qed.

Lemma eval_at_is_Some wf P configs :
  is_Some (eval_at wf P configs) -> eval_at wf P configs = Some (map (amp wf P) configs).
Proof. intros [vals Hv]. rewrite Hv. f_equal. by apply eval_at_Some. Qed.

Lemma recompute_is_Some configs wf :
  is_Some (eval_at wf (parameters wf) configs) ->
  recompute configs wf = Some (recomputed configs wf).
Proof. intros Hs. unfold recompute. by rewrite (eval_at_is_Some _ _ _ Hs). Qed.

Lemma recompute_Some configs wf wf' :
  recompute configs wf = Some wf' ->
  wf' = recomputed configs wf /\ is_Some (eval_at wf (parameters wf) configs).
Proof.
  unfold recompute. destruct (eval_at wf (parameters wf) configs) as [vals|] eqn:E;
    simpl; [|done].
  intros [= <-]. split; [|by eexists]. unfold recomputed. f_equal. by apply eval_at_Some.
Qed.

Lemma value_recomputed configs wf :
  value (recomputed configs wf)
  = (map (phase_at wf (parameters wf)) configs, map (logmag_at wf (parameters wf)) configs).
Proof.
  unfold value, recomputed. simpl. f_equal; rewrite <- list_fmap_compose; done.
Qed.

Lemma value_after_candidate configs a c :
  let a' := after_candidate configs a c in
  value a' = (map (phase_at a' (parameters a')) configs,
              map (logmag_at a' (parameters a')) configs).
Proof.
  unfold value, after_candidate. simpl. f_equal; rewrite <- list_fmap_compose; done.
Qed.

(** *** The baseline recomputation *)

Lemma recompute_all_ok configs wfs :
  Forall (fun wf => is_Some (eval_at wf (parameters wf) configs)) wfs ->
  recompute_all configs wfs = (inr (), map (recomputed configs) wfs).
Proof.
  induction 1 as [|wf wfs Hwf _ IH]; simpl; [done|].
  by rewrite (recompute_is_Some _ _ Hwf), IH.
Qed.

(** Whatever happens, a recomputation touches internal values only. *)
Lemma recompute_all_parameters configs wfs :
  map parameters (recompute_all configs wfs).2 = map parameters wfs /\
  map amplitude (recompute_all configs wfs).2 = map amplitude wfs.
Proof.
  induction wfs as [|wf wfs [IH1 IH2]]; simpl; [done|].
  destruct (recompute configs wf) as [wf'|] eqn:E; simpl; [|done].
  apply recompute_Some in E as [-> _].
  destruct (recompute_all configs wfs) as [r rest]. simpl in *.
  by rewrite IH1, IH2.
Qed.

Lemma recompute_all_inr configs wfs u wfs' :
  recompute_all configs wfs = (inr u, wfs') ->
  wfs' = map (recomputed configs) wfs /\
  Forall (fun wf => is_Some (eval_at wf (parameters wf) configs)) wfs.
Proof.
  revert wfs'. induction wfs as [|wf wfs IH]; intros wfs'; simpl.
  - intros [= <-]. by split.
  - destruct (recompute configs wf) as [wf'|] eqn:E; [|done].
    apply recompute_Some in E as [-> Hok].
    destruct (recompute_all configs wfs) as [r rest].
    intros [= -> <-]. destruct (IH rest eq_refl) as [-> HF].
    split; [done | by constructor].
Qed.
End CorrelatedProps.

Section CorrelatedRun.
Context {Walker : Type} {Tr : Transform} {Acc : Accumulator Walker}.
Implicit Types (wf a act : wavefunction Walker) (wfs refs : list (wavefunction Walker)).
Implicit Types (configs : list Walker) (cands : list vec).

(** *** One round of the loop over candidates *)

(** The round, spelled out on a store whose last object is [a]. *)
Lemma candidate_run configs ref lv0 weight c refs a :
  candidate configs ref lv0 weight c (refs ++ [a]) =
  match recompute configs (install_params c a) with
  | None => (inl Raised, refs ++ [install_params c a])
  | Some a' =>
      match mapM (enacc_total a') configs with
      | None => (inl Raised, refs ++ [a'])
      | Some E =>
          match candidate_row (length configs) ref lv0 weight (value a') E with
          | None => (inl ZeroDivisionError, refs ++ [a'])
          | Some row => (inr row, refs ++ [a'])
          end
      end
  end.
Proof.
  unfold candidate, install, recompute_last. run_M.
  rewrite alter_last_snoc, last_snoc. simpl. fold (install_params c a).
  destruct (recompute configs (install_params c a)) as [a'|]; simpl; [|done].
  rewrite alter_last_snoc, last_snoc. simpl.
  destruct (mapM (enacc_total a') configs) as [E|]; simpl; [|done].
  destruct (candidate_row _ _ _ _ _ _); done.
Qed.

Lemma recompute_install_params configs c a :
  is_Some (eval_at (install_params c a) (parameters (install_params c a)) configs) ->
  recompute configs (install_params c a) = Some (after_candidate configs a c).
Proof. intros Hs. by rewrite (recompute_is_Some _ _ Hs). Qed.

(** A round changes the last object of the store only, and of that object
    only the parameters named by the candidate and the internal values. *)
Lemma candidate_frame configs ref lv0 weight c refs a :
  exists a', (candidate configs ref lv0 weight c (refs ++ [a])).2 = refs ++ [a'] /\
    amplitude a' = amplitude a /\
    parameters a' = deserialize c ∪ parameters a.
Proof.
  rewrite candidate_run.
  destruct (recompute configs (install_params c a)) as [a'|] eqn:E.
  - apply recompute_Some in E as [-> _].
    exists (recomputed configs (install_params c a)).
    split; [|done].
    destruct (mapM _ configs); [|done]. by destruct (candidate_row _ _ _ _ _ _).
  - by exists (install_params c a).
Qed.

(** *** The whole loop *)

Lemma active_after_snoc configs a cands c :
  active_after configs a (cands ++ [c])
  = after_candidate configs (active_after configs a cands) c.
Proof. unfold active_after. by rewrite foldl_app. Qed.

(** When every evaluation returns and every average is defined, the loop
    returns one row per candidate and leaves the active wavefunction as the
    last candidate made it. *)
Lemma for_each_candidate_ok configs ref lv0 weight refs :
  (forall a c E, length E = length configs ->
     is_Some (candidate_row (length configs) ref lv0 weight
                            (value (after_candidate configs a c)) E)) ->
  forall cands a, candidates_ok configs a cands ->
  exists rows,
    for_each (candidate configs ref lv0 weight) cands (refs ++ [a])
    = (inr rows, refs ++ [active_after configs a cands]) /\
    length rows = length cands /\
    forall p, (p < length cands)%nat ->
      exists E,
        mapM (enacc_total (active_after configs a (take (S p) cands))) configs = Some E /\
        candidate_row (length configs) ref lv0 weight
                      (value (active_after configs a (take (S p) cands))) E
        = rows !! p.
Proof.
  intros Hrow. induction cands as [|c cands IH]; intros a Hok.
  - exists []. split; [done|]. split; [done|]. simpl. lia.
  - destruct Hok as (Heval & [E HE] & Hok). simpl.
    destruct (IH _ Hok) as (rows & Hrun & Hlen & Hrows).
    assert (HlenE : length E = length configs).
    { apply mapM_Some in HE. by apply Forall2_length in HE. }
    destruct (Hrow a c E HlenE) as [row Hr].
    exists (row :: rows). split; [|split].
    + rewrite M_bind_run, candidate_run.
      rewrite (recompute_install_params _ _ _ Heval), HE, Hr.
      rewrite M_bind_run, Hrun. done.
    + simpl. by rewrite Hlen.
    + intros [|p] Hp.
      * exists E. simpl. rewrite HE. split; [done|]. by rewrite Hr.
      * simpl in Hp. destruct (Hrows p ltac:(lia)) as (E' & HE' & Hr').
        exists E'. split; done.
Qed.

(** However the loop ends, it leaves the references alone and changes, in
    the active wavefunction, at most the parameters named by a candidate. *)
Lemma for_each_candidate_frame configs ref lv0 weight refs cands :
  forall a, exists a',
    (for_each (candidate configs ref lv0 weight) cands (refs ++ [a])).2 = refs ++ [a'] /\
    amplitude a' = amplitude a /\
    (forall k, (forall c, c ∈ cands -> deserialize c !! k = None) ->
               parameters a' !! k = parameters a !! k) /\
    (forall rows, (for_each (candidate configs ref lv0 weight) cands (refs ++ [a])).1
                  = inr rows ->
                  parameters a' = foldl (fun P c => deserialize c ∪ P) (parameters a) cands).
Proof.
  induction cands as [|c cands IH]; intros a; simpl.
  - exists a. done.
  - rewrite M_bind_run.
    destruct (candidate_frame configs ref lv0 weight c refs a) as (a1 & Hst & Hamp & Hpar).
    destruct (candidate configs ref lv0 weight c (refs ++ [a])) as [[e|row] st] eqn:Hc;
      simpl in Hst; subst st.
    + exists a1. split; [done|]. split; [done|]. split; [|done].
      intros k Hk. rewrite Hpar, lookup_union_r; [done|]. apply Hk. left.
    + destruct (IH a1) as (a2 & Hst2 & Hamp2 & Hpar2 & Hok2).
      rewrite M_bind_run.
      destruct (for_each _ cands (refs ++ [a1])) as [[e|rows] st] eqn:Hf;
        simpl in *; subst st; exists a2.
      * split; [done|]. split; [congruence|]. split; [|done].
        intros k Hk. rewrite Hpar2 by (intros c' Hc'; apply Hk; by right).
        rewrite Hpar, lookup_union_r; [done|]. apply Hk. left.
      * split; [done|]. split; [congruence|]. split.
        -- intros k Hk. rewrite Hpar2 by (intros c' Hc'; apply Hk; by right).
           rewrite Hpar, lookup_union_r; [done|]. apply Hk. left.
        -- intros rows' _. rewrite (Hok2 rows eq_refl), Hpar. done.
Qed.
End CorrelatedRun.

(** ** From arrays to walkers: the numbers of [correlated_sample] *)

Section CorrelatedNumbers.
Context {Walker : Type} {Tr : Transform} {Acc : Accumulator Walker}.
Implicit Types (wf a act cand : wavefunction Walker).
Implicit Types (wfs refs : list (wavefunction Walker)).
Implicit Types (configs : list Walker) (cands : list vec).

(** The internal values of [wf] are those of its parameters at [configs]. *)
Definition fresh configs wf : Prop :=
  internals wf = map (amp wf (parameters wf)) configs.

Lemma fresh_recomputed configs wf : fresh configs (recomputed configs wf).
Proof. done. Qed.

Lemma fresh_after_candidate configs a c : fresh configs (after_candidate configs a c).
Proof. done. Qed.

Lemma fresh_active_after configs a cands :
  cands <> [] -> fresh configs (active_after configs a cands).
Proof.
  intros Hne. destruct (exists_last Hne) as (l & c & ->).
  rewrite active_after_snoc. apply fresh_after_candidate.
Qed.

Lemma value_fresh configs wf :
  fresh configs wf ->
  value wf = (map (phase_at wf (parameters wf)) configs,
              map (logmag_at wf (parameters wf)) configs).
Proof.
  unfold fresh, value. intros ->. f_equal; rewrite <- list_fmap_compose; done.
Qed.

(** The baseline array [log_values0] after the recomputation of [wfs]. *)
Definition baseline configs wfs : list (vec * vec) :=
  map value (map (recomputed configs) wfs).

Lemma baseline_eq configs wfs :
  baseline configs wfs
  = map (fun wf => (map (phase_at wf (parameters wf)) configs,
                    map (logmag_at wf (parameters wf)) configs)) wfs.
Proof.
  unfold baseline. rewrite map_map. apply map_ext. intros wf.
  apply value_recomputed.
Qed.

Lemma removelast_map {A B} (f : A -> B) (l : list A) :
  removelast (map f l) = map f (removelast l).
Proof.
  induction l as [|x l IH]; simpl; [done|].
  destruct l; simpl in *; [done|]. by rewrite IH.
Qed.

Lemma reweight_spec configs wfs cand :
  fresh configs cand ->
  reweight (length configs) (baseline configs wfs) (value cand)
  = map (spec_wt wfs cand) configs.
Proof.
  intros Hf. unfold reweight, reciprocal. rewrite baseline_eq, (value_fresh _ _ Hf), map_map.
  simpl. erewrite sum_axis0_ext; [|intros wf; rewrite zip_with_map_map; reflexivity].
  rewrite map_map. apply map_ext. intros w.
  unfold spec_wt. do 2 f_equal. apply map_ext. intros wf. f_equal. lra.
Qed.

Lemma denominator0_spec configs ref wfs :
  denominator0 (length configs) ref (baseline configs wfs)
  = map (spec_denominator ref wfs) configs.
Proof.
  unfold denominator0. rewrite baseline_eq, map_map. simpl.
  erewrite sum_axis0_ext; [|intros wf; rewrite map_map; reflexivity]. done.
Qed.

Lemma normalized_values0_spec configs ref wfs :
  normalized_values0 ref (baseline configs wfs)
  = map (fun wf => map (spec_normalized ref wf) configs) wfs.
Proof.
  unfold normalized_values0. rewrite baseline_eq, map_map. simpl.
  apply map_ext. intros wf. by rewrite zip_with_map_map.
Qed.

Lemma normalized_candidate_spec configs ref cand :
  fresh configs cand ->
  normalized_candidate ref (value cand) = map (spec_normalized ref cand) configs.
Proof.
  intros Hf. unfold normalized_candidate. rewrite (value_fresh _ _ Hf). simpl.
  by rewrite zip_with_map_map.
Qed.

Lemma rhoprime_spec configs ref wfs cand :
  fresh configs cand ->
  rhoprime_of (length configs) ref (baseline configs wfs)
              (denominator0 (length configs) ref (baseline configs wfs)) (value cand)
  = map (spec_rhoprime ref wfs cand) configs.
Proof.
  intros Hf. unfold rhoprime_of.
  rewrite denominator0_spec, baseline_eq, (value_fresh _ _ Hf). simpl.
  rewrite removelast_map, !map_map. simpl.
  erewrite sum_axis0_ext; [|intros wf; rewrite map_map; reflexivity].
  rewrite !zip_with_map_map. done.
Qed.

Lemma overlap_spec configs ref wfs cand :
  fresh configs cand ->
  map mean (overlap_of (normalized_candidate ref (value cand))
                       (normalized_values0 ref (baseline configs wfs))
                       (denominator0 (length configs) ref (baseline configs wfs)))
  = map (spec_raw_overlap configs ref wfs cand) wfs.
Proof.
  intros Hf. unfold overlap_of.
  rewrite (normalized_candidate_spec _ _ _ Hf), normalized_values0_spec, denominator0_spec.
  rewrite !map_map. apply map_ext. intros wfj.
  rewrite !zip_with_map_map. done.
Qed.

Lemma base_weight_spec configs wfs :
  base_weight (length configs) (baseline configs wfs)
  = map (spec_base_weight configs wfs) wfs.
Proof.
  unfold base_weight. rewrite baseline_eq, !map_map. simpl.
  apply map_ext. intros wf. unfold spec_base_weight. f_equal.
  rewrite map_map. simpl.
  erewrite sum_axis0_ext; [|intros wm; rewrite zip_with_map_map; reflexivity].
  unfold reciprocal. by rewrite map_map.
Qed.

(** The reweighting factor is positive wherever there is a wavefunction. *)
Lemma spec_wt_pos wfs cand (w : Walker) : wfs <> [] -> 0 < spec_wt wfs cand w.
Proof.
  intros Hne. unfold spec_wt. apply Rdiv_lt_0_compat; [lra|].
  apply vsum_pos_map; [done|]. intros wf. apply exp_pos.
Qed.

Lemma vsum_spec_wt_pos configs wfs cand :
  configs <> [] -> wfs <> [] -> 0 < vsum (map (spec_wt wfs cand) configs).
Proof. intros Hc Hw. apply vsum_pos_map; [done|]. intros w. by apply spec_wt_pos. Qed.

Lemma zip_with_mean_map {A} (f : R -> R -> R) (rows : list vec) (g : A -> R) (l : list A) :
  length rows = length l ->
  zip_with (fun o w => f (mean o) w) rows (map g l)
  = zip_with (fun m x => f m (g x)) (map mean rows) l.
Proof.
  revert l. induction rows as [|r rows IH]; intros [|x l] Hlen; simplify_eq/=; [done|].
  by rewrite IH.
Qed.

Lemma zip_with_map_l_same {A} (f : R -> A -> R) (h : A -> R) (l : list A) :
  zip_with f (map h l) l = map (fun x => f (h x) x) l.
Proof. induction l as [|x l IH]; simpl; [done | by rewrite IH]. Qed.

(** The row of candidate [cand], in the words of the specification. *)
Lemma candidate_row_spec configs ref wfs cand E :
  configs <> [] -> wfs <> [] -> fresh configs cand ->
  let wt := map (spec_wt wfs cand) configs in
  candidate_row (length configs) ref (baseline configs wfs)
                (base_weight (length configs) (baseline configs wfs)) (value cand) E
  = Some (CorrRow
            (vsum (zip_with Rmult E wt) / vsum wt)
            (mean (map (spec_rhoprime ref wfs cand) configs))
            (mean wt / mean (map (spec_rhoprime ref wfs cand) configs))
            (map (fun wfj => spec_raw_overlap configs ref wfs cand wfj
                             / sqrt (mean wt * spec_base_weight configs wfs wfj)) wfs)).
Proof.
  intros Hc Hw Hf wt. unfold candidate_row.
  rewrite (reweight_spec _ _ _ Hf). fold wt.
  unfold average. rewrite decide_False.
  2:{ pose proof (vsum_spec_wt_pos configs wfs cand Hc Hw). subst wt. lra. }
  simpl. do 2 f_equal.
  - by rewrite (rhoprime_spec _ _ _ _ Hf).
  - by rewrite (rhoprime_spec _ _ _ _ Hf).
  - rewrite base_weight_spec.
    rewrite (zip_with_mean_map (fun m w => m / sqrt (mean wt * w))).
    2:{ unfold overlap_of, normalized_values0, baseline. by rewrite !length_map. }
    rewrite (overlap_spec _ _ _ _ Hf).
    apply (zip_with_map_l_same
             (fun m x => m / sqrt (mean wt * spec_base_weight configs wfs x))).
Qed.
End CorrelatedNumbers.

(** ** The run of [correlated_sample] *)

Section CorrelatedTheorems.
Context {Walker : Type} {Tr : Transform} {Acc : Accumulator Walker}.
Implicit Types (wf a act cand : wavefunction Walker).
Implicit Types (wfs refs : list (wavefunction Walker)).
Implicit Types (configs : list Walker) (cands : list vec).

Lemma map_recomputed_snoc configs refs act :
  map (recomputed configs) (refs ++ [act])
  = map (recomputed configs) refs ++ [recomputed configs act].
Proof. by rewrite map_app. Qed.

(** Any normal return of [correlated_sample]: the store it leaves. *)
Lemma correlated_sample_inr configs cands wfs data wfs' :
  correlated_sample configs cands wfs = (inr data, wfs') ->
  exists refs act a',
    wfs = refs ++ [act] /\
    wfs' = map (recomputed configs) refs
           ++ [install_params (serialize_parameters (parameters act)) a'] /\
    amplitude a' = amplitude act /\
    parameters a' = foldl (fun P c => deserialize c ∪ P) (parameters act) cands.
Proof.
  unfold correlated_sample. rewrite M_bind_run. unfold get at 1.
  destruct (decide (wfs = [])) as [->|Hne]; [done|].
  destruct (exists_last Hne) as (refs & act & ->).
  rewrite M_bind_run, last_snoc. unfold lift at 1, mret at 1, M_ret at 1.
  rewrite M_bind_run.
  destruct (recompute_all configs (refs ++ [act])) as [[e|[]] st] eqn:Hre; [done|].
  apply recompute_all_inr in Hre as [-> _].
  rewrite M_bind_run. unfold get at 1. rewrite M_bind_run.
  destruct (vmax _) as [ref|]; [|done].
  unfold lift at 1, mret at 1, M_ret at 1. rewrite M_bind_run.
  rewrite map_recomputed_snoc.
  destruct (for_each_candidate_frame configs ref
              (map value (map (recomputed configs) refs ++ [recomputed configs act]))
              (base_weight (length configs)
                 (map value (map (recomputed configs) refs ++ [recomputed configs act])))
              (map (recomputed configs) refs) cands (recomputed configs act))
    as (a' & Hst & Hamp & _ & Hpar).
  destruct (for_each _ cands _) as [[e|rows] st]; [done|].
  simpl in Hst. subst st. specialize (Hpar rows eq_refl).
  rewrite M_bind_run. unfold install at 1. rewrite alter_last_snoc.
  intros [= <- <-]. exists refs, act, a'. done.
Qed.

(** Writing back [deserialize p0] undoes the candidates, when [p0]
    deserializes to entries of the original mapping and no candidate names
    a key that [p0] does not. *)
Lemma foldl_union_lookup_None (P0 : gmap string (list R)) cands (k : string) :
  (forall c, c ∈ cands -> deserialize c !! k = None) ->
  foldl (fun P c => deserialize c ∪ P) P0 cands !! k = P0 !! k.
Proof.
  revert P0. induction cands as [|c cands IH]; intros P0 Hk; simpl; [done|].
  rewrite IH by (intros c' Hc'; apply Hk; by right).
  apply lookup_union_r, Hk. left.
Qed.

Lemma restore_parameters (P0 : gmap string (list R)) (p0 : vec) cands :
  deserialize p0 ⊆ P0 ->
  (forall c, c ∈ cands -> dom (deserialize c) ⊆ dom (deserialize p0)) ->
  deserialize p0 ∪ foldl (fun P c => deserialize c ∪ P) P0 cands = P0.
Proof.
  intros Hsub Hdom. apply map_eq. intros k.
  destruct (deserialize p0 !! k) as [v|] eqn:Ek.
  - rewrite (lookup_union_Some_l _ _ _ _ Ek). symmetry.
    by apply (lookup_weaken _ _ _ _ Ek).
  - rewrite lookup_union_r by done. apply foldl_union_lookup_None.
    intros c Hc. apply not_elem_of_dom. intros Hin.
    apply (Hdom c Hc) in Hin. by apply not_elem_of_dom in Ek.
Qed.
End CorrelatedTheorems.

Section CorrelatedMain.
Context {Walker : Type} {Tr : Transform} {Acc : Accumulator Walker}.
Implicit Types (wf a act cand : wavefunction Walker).
Implicit Types (wfs refs : list (wavefunction Walker)).
Implicit Types (configs : list Walker) (cands : list vec).

Lemma spec_ref_baseline configs wfs :
  vmax (concat (map snd (baseline configs wfs))) = spec_ref configs wfs.
Proof. unfold spec_ref. by rewrite baseline_eq, map_map. Qed.

Lemma spec_ref_is_Some configs refs act :
  configs <> [] -> is_Some (spec_ref configs (refs ++ [act])).
Proof.
  intros Hc. apply vmax_is_Some. rewrite map_app, concat_app. simpl.
  destruct configs; [done|]. simpl. by destruct (concat _).
Qed.

(** The run of [correlated_sample] when every evaluation returns. *)
Lemma correlated_sample_ok configs refs act cands :
  configs <> [] ->
  Forall (fun wf => is_Some (eval_at wf (parameters wf) configs)) (refs ++ [act]) ->
  candidates_ok configs (recomputed configs act) cands ->
  let wfs := refs ++ [act] in
  exists ref rows,
    spec_ref configs wfs = Some ref /\
    correlated_sample configs cands wfs
    = (inr (CorrData (map row_total rows) (map row_weight rows) (map row_overlap rows)
                     (map row_rhoprime rows)
                     (map (spec_base_weight configs wfs) wfs)),
       map (recomputed configs) refs
       ++ [install_params (serialize_parameters (parameters act))
                          (active_after configs (recomputed configs act) cands)]) /\
    length rows = length cands /\
    forall p, (p < length cands)%nat ->
      let cand := active_after configs (recomputed configs act) (take (S p) cands) in
      let wt := map (spec_wt wfs cand) configs in
      exists E,
        mapM (enacc_total cand) configs = Some E /\
        rows !! p
        = Some (CorrRow
                  (vsum (zip_with Rmult E wt) / vsum wt)
                  (mean (map (spec_rhoprime ref wfs cand) configs))
                  (mean wt / mean (map (spec_rhoprime ref wfs cand) configs))
                  (map (spec_overlap_base configs ref wfs cand) wfs)).
Proof.
  intros Hc Hbase Hcands wfs.
  assert (Hw : wfs <> []) by (subst wfs; by destruct refs).
  destruct (spec_ref_is_Some configs refs act Hc) as [ref Href].
  exists ref.
  destruct (for_each_candidate_ok configs ref (baseline configs wfs)
              (base_weight (length configs) (baseline configs wfs))
              (map (recomputed configs) refs)) with (cands := cands)
              (a := recomputed configs act)
    as (rows & Hrun & Hlen & Hrows).
  { intros a c E _. rewrite (candidate_row_spec configs ref wfs _ E Hc Hw); [by eexists|].
    apply fresh_after_candidate. }
  { done. }
  exists rows. split; [done|]. split; [|split; [done|]].
  - clear Hrows. subst wfs.
    unfold correlated_sample. rewrite M_bind_run. unfold get at 1.
    rewrite M_bind_run, last_snoc.
    unfold lift at 1, mret at 1, M_ret at 1. rewrite M_bind_run.
    rewrite (recompute_all_ok _ _ Hbase).
    rewrite M_bind_run. unfold get at 1. rewrite M_bind_run.
    fold (baseline configs (refs ++ [act])). rewrite spec_ref_baseline, Href.
    unfold lift at 1, mret at 1, M_ret at 1. rewrite M_bind_run.
    rewrite map_recomputed_snoc, Hrun.
    rewrite M_bind_run. unfold install at 1. rewrite alter_last_snoc.
    rewrite base_weight_spec. done.
  - intros p Hp cand wt. destruct (Hrows p Hp) as (E & HE & Hr).
    exists E. split; [done|]. rewrite <- Hr.
    apply (candidate_row_spec configs ref wfs cand E Hc Hw).
    apply fresh_active_after. destruct cands; [simpl in Hp; lia|done].
Qed.
End CorrelatedMain.

Section CorrelatedClaims.
Context {Walker : Type} {Tr : Transform} {Acc : Accumulator Walker}.
Implicit Types (wf a act cand : wavefunction Walker).
Implicit Types (wfs refs : list (wavefunction Walker)).
Implicit Types (configs : list Walker) (cands : list vec).

(** The first candidate whose evaluation raises ends the call there, with
    that candidate still installed. *)
Lemma correlated_sample_raises configs refs act c cands :
  configs <> [] ->
  Forall (fun wf => is_Some (eval_at wf (parameters wf) configs)) (refs ++ [act]) ->
  recompute configs (install_params c (recomputed configs act)) = None ->
  correlated_sample configs (c :: cands) (refs ++ [act])
  = (inl Raised,
     map (recomputed configs) refs ++ [install_params c (recomputed configs act)]).
Proof.
  intros Hc Hbase Hnone.
  destruct (spec_ref_is_Some configs refs act Hc) as [ref Href].
  unfold correlated_sample. rewrite M_bind_run. unfold get at 1.
  rewrite M_bind_run, last_snoc.
  unfold lift at 1, mret at 1, M_ret at 1. rewrite M_bind_run.
  rewrite (recompute_all_ok _ _ Hbase).
  rewrite M_bind_run. unfold get at 1. rewrite M_bind_run.
  fold (baseline configs (refs ++ [act])). rewrite spec_ref_baseline, Href.
  unfold lift at 1, mret at 1, M_ret at 1. rewrite M_bind_run.
  rewrite map_recomputed_snoc. simpl for_each.
  rewrite M_bind_run, candidate_run, Hnone. done.
Qed.

(** C2, as the code has it.  When [correlated_sample] returns normally,
    every wavefunction has the parameters (and the evaluation method) it
    had on entry, provided the transform gives back, for the serialized
    entry parameters, entries of the entry mapping, and no candidate
    deserializes to a key outside those.  (The ensemble is an argument the
    call only reads.) *)
Theorem correlated_sample_restores configs cands wfs data wfs' :
  correlated_sample configs cands wfs = (inr data, wfs') ->
  (forall act, last wfs = Some act ->
     deserialize (serialize_parameters (parameters act)) ⊆ parameters act /\
     forall c, c ∈ cands ->
       dom (deserialize c) ⊆ dom (deserialize (serialize_parameters (parameters act)))) ->
  map parameters wfs' = map parameters wfs /\
  map amplitude wfs' = map amplitude wfs.
Proof.
  intros Hrun Htr.
  apply correlated_sample_inr in Hrun as (refs & act & a' & -> & -> & Hamp & Hpar).
  destruct (Htr act (last_snoc _ _)) as [Hsub Hdom].
  rewrite !map_app, !map_map. simpl. split.
  - f_equal. rewrite Hpar. f_equal. by apply restore_parameters.
  - by rewrite Hamp.
Qed.

(** C5.  When every evaluation returns, [correlated_sample] returns, and
    the total energy it reports for candidate [p] is the average of the
    accumulator's per-walker energies weighted by
    [wt = 1 / sum_i exp(2 (logmag_i,baseline - logmag_active,candidate))],
    the sum running over all wavefunctions at their entry parameters. *)
Theorem correlated_sample_total configs refs act cands :
  configs <> [] ->
  Forall (fun wf => is_Some (eval_at wf (parameters wf) configs)) (refs ++ [act]) ->
  candidates_ok configs (recomputed configs act) cands ->
  exists data wfs',
    correlated_sample configs cands (refs ++ [act]) = (inr data, wfs') /\
    length (data_total data) = length cands /\
    forall p, (p < length cands)%nat ->
      let cand := active_after configs (recomputed configs act) (take (S p) cands) in
      let wt := map (spec_wt (refs ++ [act]) cand) configs in
      exists E,
        mapM (enacc_total cand) configs = Some E /\
        data_total data !! p = Some (vsum (zip_with Rmult E wt) / vsum wt).
Proof.
  intros Hc Hbase Hcands.
  destruct (correlated_sample_ok configs refs act cands Hc Hbase Hcands)
    as (ref & rows & Href & Hrun & Hlen & Hrows).
  eexists _, _. split; [exact Hrun|]. simpl. split; [by rewrite length_map|].
  intros p Hp. destruct (Hrows p Hp) as (E & HE & Hr).
  exists E. split; [done|]. by rewrite list_lookup_fmap, Hr.
Qed.

(** C3, as the code has it.  The overlap reported for candidate [p] and
    wavefunction [j] is the walker mean of
    [normalized_candidate * normalized_j / denominator] divided by
    [sqrt(mean(wt) * weight_j)], where [weight_j] is the baseline weight of
    wavefunction [j], the walker mean of
    [1 / sum_m exp(-2 (logmag_j - logmag_m))]. *)
Theorem correlated_sample_overlap configs refs act cands :
  configs <> [] ->
  Forall (fun wf => is_Some (eval_at wf (parameters wf) configs)) (refs ++ [act]) ->
  candidates_ok configs (recomputed configs act) cands ->
  exists ref data wfs',
    spec_ref configs (refs ++ [act]) = Some ref /\
    correlated_sample configs cands (refs ++ [act]) = (inr data, wfs') /\
    forall p, (p < length cands)%nat ->
      let cand := active_after configs (recomputed configs act) (take (S p) cands) in
      data_overlap data !! p
      = Some (map (spec_overlap_base configs ref (refs ++ [act]) cand) (refs ++ [act])).
Proof.
  intros Hc Hbase Hcands.
  destruct (correlated_sample_ok configs refs act cands Hc Hbase Hcands)
    as (ref & rows & Href & Hrun & Hlen & Hrows).
  eexists ref, _, _. split; [done|]. split; [exact Hrun|]. simpl.
  intros p Hp. destruct (Hrows p Hp) as (E & HE & Hr).
  by rewrite list_lookup_fmap, Hr.
Qed.
End CorrelatedClaims.

(** ** The correlated sampler on the concrete collaborators *)

Lemma exp_eq_1 (x : R) : x = 0 -> exp x = 1.
Proof. intros ->. apply exp_0. Qed.

Lemma Rmax_same (x : R) : Rmax x x = x.
Proof. unfold Rmax. by destruct (Rle_dec x x). Qed.

Lemma ex_base_ok :
  Forall (fun wf => is_Some (eval_at wf (parameters wf) [()])) ([ex_reference] ++ [ex_active]).
Proof. repeat constructor; by eexists. Qed.

Lemma ex_candidates_ok :
  candidates_ok (Tr := ex_transform) (Acc := ex_accumulator)
                [()] (recomputed [()] ex_active) [[1]].
Proof. simpl. repeat split; by eexists. Qed.

(** With constant wavefunctions (phase 1, log-magnitude 0), one reference
    and one walker: [ref = 0], every normalized value is 1, the denominator
    is 2, [wt = 1/2], [rhoprime = 1] and the baseline weights are 1/2. *)
Section ExampleNumbers.
Local Abbreviation wfs := ex_wfs.
Local Abbreviation cand := ex_candidate.

Lemma ex_spec_ref : spec_ref [()] wfs = Some 0.
Proof. unfold spec_ref. simpl. by rewrite Rmax_same. Qed.

Lemma ex_mean_wt : mean (map (spec_wt wfs cand) [()]) = 1 / 2.
Proof.
  unfold mean, spec_wt, logmag_at. simpl.
  rewrite !exp_eq_1 by lra. lra.
Qed.

Lemma ex_mean_rhoprime : mean (map (spec_rhoprime 0 wfs cand) [()]) = 1.
Proof.
  unfold mean, spec_rhoprime, spec_denominator, logmag_at. simpl.
  rewrite !exp_eq_1 by lra. lra.
Qed.

Lemma ex_base_weight (wf : wavefunction unit) :
  wf ∈ wfs -> spec_base_weight [()] wfs wf = 1 / 2.
Proof.
  intros Hin. unfold spec_base_weight, mean, logmag_at.
  assert (Hamp : amp wf (parameters wf) () = (1, 0)).
  { unfold ex_wfs in Hin. simpl in Hin. apply elem_of_cons in Hin as [->|Hin]; [done|].
    apply list_elem_of_singleton in Hin as ->. done. }
  simpl. rewrite Hamp. simpl. rewrite !exp_eq_1 by lra. lra.
Qed.

Lemma ex_raw_overlap (wf : wavefunction unit) :
  wf ∈ wfs -> spec_raw_overlap [()] 0 wfs cand wf = 1 / 2.
Proof.
  intros Hin.
  unfold spec_raw_overlap, spec_normalized, spec_denominator, mean, phase_at, logmag_at.
  assert (Hamp : amp wf (parameters wf) () = (1, 0)).
  { unfold ex_wfs in Hin. simpl in Hin. apply elem_of_cons in Hin as [->|Hin]; [done|].
    apply list_elem_of_singleton in Hin as ->. done. }
  simpl. rewrite Hamp. simpl. rewrite !exp_eq_1 by lra. lra.
Qed.

Lemma ex_overlap_base (wf : wavefunction unit) :
  wf ∈ wfs -> spec_overlap_base [()] 0 wfs cand wf = 1.
Proof.
  intros Hin. unfold spec_overlap_base.
  rewrite (ex_raw_overlap wf Hin), ex_mean_wt, (ex_base_weight wf Hin).
  replace (1 / 2 * (1 / 2)) with ((1 / 2) * (1 / 2)) by lra.
  rewrite sqrt_square by lra. lra.
Qed.

Lemma ex_overlap_rhoprime (wf : wavefunction unit) :
  wf ∈ wfs -> spec_overlap_rhoprime [()] 0 wfs cand wf <> 1.
Proof.
  intros Hin. unfold spec_overlap_rhoprime.
  rewrite (ex_raw_overlap wf Hin), ex_mean_wt, ex_mean_rhoprime.
  replace (1 / 2 * 1) with (1 / 2) by lra. intros Heq.
  pose proof (sqrt_sqrt (1 / 2) ltac:(lra)) as Hsq.
  assert (Hpos : 0 < sqrt (1 / 2)) by (apply sqrt_lt_R0; lra).
  assert (Hs : sqrt (1 / 2) = 1 / 2).
  { apply (Rmult_eq_reg_r (/ sqrt (1 / 2))).
    - rewrite Rinv_r by lra. unfold Rdiv in Heq. lra.
    - apply Rinv_neq_0_compat. lra. }
  rewrite Hs in Hsq. lra.
Qed.
End ExampleNumbers.

(** The run on the example: one row, whose overlaps are both 1. *)
Lemma ex_run :
  exists rows wfs',
    correlated_sample (Tr := ex_transform) (Acc := ex_accumulator) [()] [[1]] ex_wfs
    = (inr (CorrData (map row_total rows) (map row_weight rows) (map row_overlap rows)
                     (map row_rhoprime rows)
                     (map (spec_base_weight [()] ex_wfs) ex_wfs)), wfs') /\
    map row_overlap rows = [map (spec_overlap_base [()] 0 ex_wfs ex_candidate) ex_wfs] /\
    map internals wfs' = [[(1, 0)]; [(1, 0)]].
Proof.
  destruct (correlated_sample_ok (Tr := ex_transform) (Acc := ex_accumulator)
              [()] [ex_reference] ex_active [[1]] ltac:(done) ex_base_ok ex_candidates_ok)
    as (ref & rows & Href & Hrun & Hlen & Hrows).
  fold ex_wfs in Href, Hrun, Hrows.
  rewrite ex_spec_ref in Href. injection Href as <-.
  destruct (Hrows 0%nat ltac:(simpl; lia)) as (E & _ & Hr).
  destruct rows as [|row [|? ?]]; [done| |done].
  change ([row] !! 0%nat) with (Some row) in Hr. apply (inj Some) in Hr.
  eexists [row], _. split; [exact Hrun|]. split; [|reflexivity].
  rewrite Hr. reflexivity.
Qed.

Lemma correlated_sample_restores_witness :
  exists data wfs',
    correlated_sample (Tr := ex_transform) (Acc := ex_accumulator) [()] [[1]] ex_wfs
    = (inr data, wfs') /\
    map parameters wfs' = map parameters ex_wfs /\
    map amplitude wfs' = map amplitude ex_wfs.
Proof.
  destruct ex_run as (rows & wfs' & Hrun & _).
  eexists _, wfs'. split; [exact Hrun|].
  apply (correlated_sample_restores (Tr := ex_transform) (Acc := ex_accumulator)
           [()] [[1]] ex_wfs _ wfs' Hrun).
  intros act [= <-]. simpl. split.
  - done.
  - intros c _. by rewrite !dom_singleton_L.
Defined.

Lemma correlated_sample_total_witness :
  exists data wfs',
    correlated_sample (Tr := ex_transform) (Acc := ex_accumulator) [()] [[1]] ex_wfs
    = (inr data, wfs') /\
    data_total data = [1].
Proof.
  destruct (correlated_sample_total (Tr := ex_transform) (Acc := ex_accumulator)
              [()] [ex_reference] ex_active [[1]] ltac:(done) ex_base_ok ex_candidates_ok)
    as (data & wfs' & Hrun & Hlen & Htot).
  exists data, wfs'. split; [exact Hrun|].
  destruct (Htot 0%nat ltac:(simpl; lia)) as (E & HE & Ht).
  simpl in HE. injection HE as <-.
  destruct (data_total data) as [|t [|]]; simplify_eq/=.
  f_equal.
  match goal with
  | |- context [spec_wt ?ws ?c ?w] =>
      pose proof (spec_wt_pos ws c w ltac:(done)) as Hpos; set (x := spec_wt ws c w) in *
  end.
  field. lra.
Defined.

Lemma correlated_sample_overlap_witness :
  exists data wfs',
    correlated_sample (Tr := ex_transform) (Acc := ex_accumulator) [()] [[1]] ex_wfs
    = (inr data, wfs') /\
    data_overlap data = [[1; 1]].
Proof.
  destruct (correlated_sample_overlap (Tr := ex_transform) (Acc := ex_accumulator)
              [()] [ex_reference] ex_active [[1]] ltac:(done) ex_base_ok ex_candidates_ok)
    as (ref & data & wfs' & Href & Hrun & Hov).
  exists data, wfs'. split; [exact Hrun|].
  fold ex_wfs in Href, Hov. rewrite ex_spec_ref in Href. injection Href as <-.
  specialize (Hov 0%nat ltac:(simpl; lia)). fold ex_candidate in Hov.
  destruct ex_run as (rows & wfs'' & Hrun' & Hrows & _).
  fold ex_wfs in Hrun. rewrite Hrun in Hrun'. injection Hrun' as -> _.
  simpl in Hov |- *. rewrite Hrows in Hov |- *.
  unfold ex_wfs. simpl. rewrite !ex_overlap_base; [done| |].
  - unfold ex_wfs. simpl. apply elem_of_cons. right. apply elem_of_cons. by left.
  - unfold ex_wfs. simpl. apply elem_of_cons. by left.
Defined.

(** C3 as the specification words it fails on the example: the overlap
    returned for the candidate is 1 for both wavefunctions, while the walker
    mean divided by [sqrt(mean(wt) * mean(rhoprime))] is [(1/2) / sqrt(1/2)],
    which is not 1. *)
Lemma correlated_sample_overlap_not_rhoprime :
  exists data wfs',
    correlated_sample (Tr := ex_transform) (Acc := ex_accumulator) [()] [[1]] ex_wfs
    = (inr data, wfs') /\
    spec_ref [()] ex_wfs = Some 0 /\
    data_overlap data !! 0%nat
    <> Some (map (spec_overlap_rhoprime [()] 0 ex_wfs ex_candidate) ex_wfs).
Proof.
  destruct ex_run as (rows & wfs' & Hrun & Hrows & _).
  eexists _, wfs'. split; [exact Hrun|]. split; [apply ex_spec_ref|].
  simpl. rewrite Hrows. simpl. intros [= Heq _].
  rewrite ex_overlap_base in Heq.
  - symmetry in Heq. revert Heq. apply ex_overlap_rhoprime.
    unfold ex_wfs. simpl. apply elem_of_cons. by left.
  - unfold ex_wfs. simpl. apply elem_of_cons. by left.
Qed.

(** C2 as the specification words it fails twice.  An evaluation that raises
    on the candidate ends the call with the candidate still installed in the
    active wavefunction; and a normal return leaves internal values that the
    wavefunctions did not have on entry. *)
Lemma correlated_sample_not_read_only :
  (exists wfs',
     correlated_sample (Tr := ex_transform) (Acc := ex_accumulator) [()] [[1]]
                       ([ex_reference] ++ [ex_fragile])
     = (inl Raised, wfs') /\
     (parameters <$> last wfs') = Some {["a"%string := [1]]} /\
     (parameters <$> last ([ex_reference] ++ [ex_fragile])) = Some {["a"%string := [0]]} /\
     ({["a"%string := [1]]} : gmap string (list R)) <> {["a"%string := [0]]}) /\
  (exists data wfs',
     correlated_sample (Tr := ex_transform) (Acc := ex_accumulator) [()] [[1]] ex_wfs
     = (inr data, wfs') /\
     map internals wfs' <> map internals ex_wfs).
Proof.
  split.
  - eexists. split; [|split; [|split]].
    + apply (correlated_sample_raises (Tr := ex_transform) (Acc := ex_accumulator)).
      * done.
      * repeat constructor.
        -- by eexists.
        -- unfold eval_at. simpl. unfold ex_amplitude_partial.
           rewrite decide_False; [by eexists|].
           rewrite lookup_singleton_eq. intros [= H01]. lra.
      * unfold recompute, eval_at. simpl. unfold ex_amplitude_partial.
        rewrite decide_True; [done|].
        by rewrite (lookup_union_Some_l _ _ _ _ (lookup_singleton_eq _ _)).
    + rewrite last_snoc. reflexivity.
    + by rewrite last_snoc.
    + intros Heq. apply (f_equal (fun m => m !! "a"%string)) in Heq.
      rewrite !lookup_singleton_eq in Heq. injection Heq as H01. lra.
  - destruct ex_run as (rows & wfs' & Hrun & _ & Hint).
    eexists _, wfs'. split; [exact Hrun|]. rewrite Hint. done.
Qed.

(** ** The overlap sampler *)

Lemma foldl_zip_with_Rmax_map {A B} (g : A -> B -> R) (rest : list A) (l : list B) :
  forall g0 : B -> R,
    foldl (zip_with Rmax) (map g0 l) (map (fun a => map (g a) l) rest)
    = map (fun w => foldl Rmax (g0 w) (map (fun a => g a w) rest)) l.
Proof.
  induction rest as [|a rest IH]; intros g0; simpl; [done|].
  rewrite zip_with_map_map. apply (IH (fun w => Rmax (g0 w) (g a w))).
Qed.

Lemma concat_map_map_prod {A B C} (f : A -> B -> C) (l1 : list A) (l2 : list B) :
  concat (map (fun x => map (f x) l2) l1) = map (fun p => f p.1 p.2) (list_prod l1 l2).
Proof.
  induction l1 as [|x l1 IH]; simpl; [done|].
  by rewrite IH, map_app, map_map.
Qed.

Lemma vsum_snoc (l : vec) (x : R) : vsum (l ++ [x]) = vsum l + x.
Proof. rewrite vsum_app. simpl. lra. Qed.

Lemma vsum_map_div {A} (f : A -> R) (n : R) (l : list A) :
  vsum (map (fun x => f x / n) l) = vsum (map f l) / n.
Proof. induction l as [|x l IH]; simpl; [lra | rewrite IH; lra]. Qed.

Lemma zip_with_replicate_zero (v : vec) :
  zip_with Rplus (replicate (length v) 0) v = v.
Proof. induction v as [|x v IH]; simpl; [done|]. rewrite IH. f_equal. lra. Qed.

(** *** The rolling average *)

Lemma accumulate_lookup n (b s b' : gmap string ndarray) (k : string) :
  accumulate n b s = Some b' ->
  b' !! k = match s !! k with
            | Some x => accumulate_key n (b !! k) x
            | None => b !! k
            end.
Proof.
  unfold accumulate. destruct (decide _) as [HF|]; [|done].
  intros [= <-]. rewrite lookup_omap, lookup_merge.
  destruct (s !! k) as [x|] eqn:Es, (b !! k) as [y|] eqn:Eb; simpl; done.
Qed.

Lemma accumulate_is_Some n (b s : gmap string ndarray) :
  (forall k x, s !! k = Some x -> is_Some (accumulate_key n (b !! k) x)) ->
  is_Some (accumulate n b s).
Proof.
  intros Hk. unfold accumulate. rewrite decide_True; [by eexists|].
  intros k o. rewrite lookup_merge.
  destruct (s !! k) as [x|] eqn:Es, (b !! k) as [y|] eqn:Eb; simpl;
    intros [= <-]; try (by eexists).
  - specialize (Hk k x Es). by rewrite Eb in Hk.
  - specialize (Hk k x Es). by rewrite Eb in Hk.
Qed.

Lemma accumulate_key_is_Some n (old : option ndarray) (it : ndarray) :
  (forall y, old = Some y -> shape y = shape it) ->
  is_Some (accumulate_key n old it).
Proof.
  intros Hs. unfold accumulate_key, nd_add.
  rewrite decide_True; [by eexists|].
  destruct old as [y|]; simpl; [by apply Hs | done].
Qed.

Lemma accumulate_key_shape n (old : option ndarray) (it y : ndarray) :
  accumulate_key n old it = Some y -> shape y = shape it.
Proof.
  unfold accumulate_key, nd_add. destruct (decide _) as [Hs|]; [|done].
  intros [= <-]. done.
Qed.

Lemma accumulate_key_Some n (sh : list nat) (d1 d2 : vec) :
  accumulate_key n (Some (NDArray sh d1)) (NDArray sh d2)
  = Some (NDArray sh (zip_with Rplus d1 (map (fun x => x / INR n) d2))).
Proof. unfold accumulate_key, nd_add. simpl. by rewrite decide_True. Qed.

Lemma accumulate_key_None n (sh : list nat) (d2 : vec) :
  length d2 = foldr Nat.mul 1%nat sh ->
  accumulate_key n None (NDArray sh d2)
  = Some (NDArray sh (map (fun x => x / INR n) d2)).
Proof.
  intros Hlen. unfold accumulate_key, nd_add, nd_zeros, nd_div. cbn [default shape data].
  rewrite decide_True by done. do 2 f_equal.
  rewrite <- Hlen, <- (length_map (fun x => x / INR n) d2).
  apply zip_with_replicate_zero.
Qed.

Section SampleOverlapProps.
Context {Walker : Type} {Acc : Accumulator Walker} {Dyn : Dynamics Walker}.
Implicit Types (wf : wavefunction Walker) (wfs : list (wavefunction Walker)).
Implicit Types (configs : list Walker) (st : sampler_state Walker Rng).

Lemma recomputed_recomputed configs configs' wf :
  recomputed configs (recomputed configs' wf) = recomputed configs wf.
Proof. done. Qed.

Lemma map_recomputed_recomputed configs configs' wfs :
  map (recomputed configs) (map (recomputed configs') wfs) = map (recomputed configs) wfs.
Proof. rewrite map_map. by apply map_ext. Qed.

Lemma eval_at_recomputed configs configs' wf :
  eval_at (recomputed configs' wf) (parameters (recomputed configs' wf)) configs
  = eval_at wf (parameters wf) configs.
Proof. done. Qed.

(** *** The values of one step, walker by walker *)

Lemma max_axis0_spec configs wfs :
  wfs <> [] ->
  max_axis0 (map snd (baseline configs wfs)) = Some (map (sampler_ref wfs) configs).
Proof.
  intros Hne. rewrite baseline_eq, map_map. simpl.
  destruct wfs as [|wf rest]; [done|]. simpl. f_equal.
  apply (foldl_zip_with_Rmax_map (fun wf' w => logmag_at wf' (parameters wf') w)).
Qed.

Lemma step_denominator_spec configs wfs :
  step_denominator (length configs) (map (sampler_ref wfs) configs) (baseline configs wfs)
  = map (sampler_denominator wfs) configs.
Proof.
  unfold step_denominator. rewrite baseline_eq, map_map. simpl.
  erewrite sum_axis0_ext; [|intros wf; rewrite zip_with_map_map; reflexivity]. done.
Qed.

Lemma step_normalized_spec configs wfs :
  step_normalized (map (sampler_ref wfs) configs) (baseline configs wfs)
  = map (fun wf => map (sampler_normalized wfs wf) configs) wfs.
Proof.
  unfold step_normalized. rewrite baseline_eq, map_map. simpl.
  apply map_ext. intros wf. by rewrite !zip_with_map_map.
Qed.

Lemma step_overlap_spec configs wfs :
  step_overlap (step_normalized (map (sampler_ref wfs) configs) (baseline configs wfs))
               (step_denominator (length configs) (map (sampler_ref wfs) configs)
                                 (baseline configs wfs))
  = map (fun wfi => map (fun wfj => sampler_overlap configs wfs wfi wfj) wfs) wfs.
Proof.
  unfold step_overlap. rewrite step_normalized_spec, step_denominator_spec.
  rewrite map_map. apply map_ext. intros wfi.
  rewrite map_map. apply map_ext. intros wfj.
  by rewrite !zip_with_map_map.
Qed.

(** *** The states along a block *)

Lemma after_sweeps_S n st : after_sweeps (S n) st = after_sweep (after_sweeps n st).
Proof. done. Qed.

Lemma after_sweeps_wfs n st :
  st_wfs (after_sweeps (S n) st)
  = map (recomputed (st_configs (after_sweeps (S n) st))) (st_wfs st).
Proof.
  induction n as [|n IH]; [done|].
  rewrite after_sweeps_S. set (s' := after_sweeps (S n) st) in *. clearbody s'.
  unfold after_sweep. simpl. by rewrite IH, map_recomputed_recomputed.
Qed.

Lemma stats_of_after_sweeps n st refs act :
  st_wfs st = refs ++ [act] ->
  let c := st_configs (after_sweeps (S n) st) in
  stats_of (after_sweeps (S n) st)
  = Some (step_stats c (map (recomputed c) (st_wfs st)) (recomputed c act)
                     (map (sampler_ref (st_wfs st)) c)).
Proof.
  intros Hw c. unfold stats_of. rewrite after_sweeps_wfs. fold c.
  assert (Hlast : last (map (recomputed c) (st_wfs st)) = Some (recomputed c act)).
  { rewrite Hw, map_app. simpl. apply last_snoc. }
  rewrite Hlast. simpl.
  fold (baseline c (st_wfs st)). rewrite max_axis0_spec; [done|].
  rewrite Hw. by destruct refs.
Qed.

(** The ["overlap"] statistic of a step. *)
Lemma step_stats_overlap configs wfs wf :
  avg_leaves_overlap ->
  step_stats configs (map (recomputed configs) wfs) wf (map (sampler_ref wfs) configs)
    !! "overlap"%string
  = Some (NDArray [length wfs; length wfs]
            (map (fun p => sampler_overlap configs wfs p.1 p.2) (list_prod wfs wfs))).
Proof.
  intros Havg. unfold step_stats.
  rewrite lookup_insert_ne by done.
  rewrite lookup_union_r by apply Havg.
  rewrite lookup_insert_ne by done.
  rewrite lookup_insert_eq.
  fold (baseline configs wfs). rewrite step_overlap_spec.
  unfold nd_matrix. rewrite !length_map.
  by rewrite (concat_map_map_prod (sampler_overlap configs wfs)).
Qed.

(** One pass of the loop over steps, when the evaluations after the sweep
    return. *)
Lemma sample_step_run n b st sd :
  Forall (fun wf => is_Some (eval_at wf (parameters wf) (st_configs (after_sweep st))))
         (st_wfs st) ->
  stats_of (after_sweep st) = Some sd ->
  sample_step n b st
  = match accumulate n b sd with
    | Some b' => (inr b', after_sweep st)
    | None => (inl ValueError, after_sweep st)
    end.
Proof.
  intros Hok Hsd. unfold sample_step. rewrite M_bind_run. unfold get at 1.
  unfold after_sweep in *. simpl in *.
  destruct (sweep (st_wfs st) (st_configs st) (st_rng st)) as [c r]. simpl in *.
  rewrite (recompute_all_ok _ _ Hok).
  rewrite M_bind_run. unfold put at 1. rewrite M_bind_run.
  unfold mret at 1, M_ret at 1. rewrite M_bind_run.
  unfold stats_of in Hsd. simpl in Hsd.
  destruct (last (map (recomputed c) (st_wfs st))) as [wf|]; [|done]. simpl in Hsd.
  unfold lift at 1, mret at 1, M_ret at 1. rewrite M_bind_run.
  destruct (max_axis0 _) as [ref|]; [|done]. simpl in Hsd. injection Hsd as <-.
  unfold lift at 1, mret at 1, M_ret at 1.
  by destruct (accumulate _ _ _).
Qed.
End SampleOverlapProps.

Section SampleOverlapBlock.
Context {Walker : Type} {Acc : Accumulator Walker} {Dyn : Dynamics Walker}.
Implicit Types (wf : wavefunction Walker) (wfs : list (wavefunction Walker)).
Implicit Types (configs : list Walker) (st : sampler_state Walker Rng).

(** What holds of [block_avg] after [t] steps of a block of [n]. *)
Definition block_inv (n : nat) (st : sampler_state Walker Rng) (t : nat)
    (b : gmap string ndarray) : Prop :=
  (forall k y, b !! k = Some y ->
     exists t' sd x, (1 <= t' <= t)%nat /\
       stats_of (after_sweeps t' st) = Some sd /\ sd !! k = Some x /\ shape y = shape x) /\
  match t with
  | O => b = ∅
  | S _ =>
      b !! "overlap"%string
      = Some (NDArray [length (st_wfs st); length (st_wfs st)]
                (map (fun p =>
                        vsum (map (fun s => sampler_overlap (st_configs (after_sweeps s st))
                                                            (st_wfs st) p.1 p.2 / INR n)
                                  (seq 1 t)))
                     (list_prod (st_wfs st) (st_wfs st))))
  end.

Lemma sweeps_ok_current n st t :
  sweeps_ok n st -> (S t <= n)%nat ->
  Forall (fun wf => is_Some (eval_at wf (parameters wf)
                                       (st_configs (after_sweep (after_sweeps t st)))))
         (st_wfs (after_sweeps t st)).
Proof.
  intros Hok Ht. specialize (Hok (S t) ltac:(lia)). rewrite after_sweeps_S in Hok.
  destruct t as [|t]; [done|].
  rewrite after_sweeps_wfs. by apply Forall_fmap.
Qed.

Lemma run_steps_inv n N st refs act :
  st_wfs st = refs ++ [act] ->
  sweeps_ok N st -> shapes_stable N st -> avg_leaves_overlap ->
  forall m t b, (t + m <= N)%nat -> block_inv n st t b ->
    exists b', run_steps m n b (after_sweeps t st) = (inr b', after_sweeps (t + m) st) /\
               block_inv n st (t + m) b'.
Proof.
  intros Hw Hok Hshape Havg. induction m as [|m IH]; intros t b Ht Hinv.
  - exists b. rewrite Nat.add_0_r. done.
  - simpl. rewrite M_bind_run.
    pose proof (stats_of_after_sweeps t st refs act Hw) as Hsd. cbv zeta in Hsd.
    set (c := st_configs (after_sweeps (S t) st)) in *.
    set (sd := step_stats c (map (recomputed c) (st_wfs st)) (recomputed c act)
                          (map (sampler_ref (st_wfs st)) c)) in *.
    rewrite (sample_step_run n b (after_sweeps t st) sd);
      [|by apply (sweeps_ok_current N); [|lia] | exact Hsd].
    destruct Hinv as [Hkeys Hov].
    destruct (accumulate_is_Some n b sd) as [b' Hb'].
    { intros k x Hx. apply accumulate_key_is_Some. intros y Hy.
      destruct (Hkeys k y Hy) as (t' & sd' & x' & Ht' & Hsd' & Hx' & ->).
      apply (Hshape t' (S t) k sd' sd x' x); [lia|lia|done|done|done|done]. }
    rewrite Hb'. replace (t + S m)%nat with (S t + m)%nat by lia.
    rewrite <- after_sweeps_S. apply (IH (S t) b'); [lia|]. split.
    + intros k y Hy. rewrite (accumulate_lookup _ _ _ _ k Hb') in Hy.
      destruct (sd !! k) as [x|] eqn:Ex.
      * exists (S t), sd, x. split; [lia|].
        split; [done|]. split; [done|]. by apply (accumulate_key_shape n (b !! k)).
      * destruct (Hkeys k y Hy) as (t' & sd' & x' & Ht' & Hrest).
        exists t', sd', x'. split; [lia|done].
    + rewrite (accumulate_lookup _ _ _ _ "overlap"%string Hb').
      subst sd. rewrite (step_stats_overlap c (st_wfs st) _ Havg).
      destruct t as [|t].
      * subst b. rewrite lookup_empty, accumulate_key_None.
        2:{ cbn [foldr]. by rewrite length_map, length_prod, Nat.mul_1_r. }
        do 2 f_equal. rewrite map_map. apply map_ext. intros p.
        cbn [seq map vsum foldr]. subst c. lra.
      * rewrite Hov, accumulate_key_Some. do 2 f_equal.
        rewrite map_map, zip_with_map_map. apply map_ext. intros p.
        rewrite (seq_S (S t) 1), map_app, vsum_app.
        change (1 + S t)%nat with (S (S t)). cbn [map vsum foldr]. subst c. lra.
Qed.

(** C4.  One block of [sample_overlap], from any state.  When every
    evaluation returns and the statistics keep their shapes from step to
    step, the block returns a [block_avg] whose ["overlap"] entry is the
    matrix (one row and one column per wavefunction) of the means over the
    [nsteps_per_block] steps of the per-step overlap; the per-step overlap
    [(i, j)] is the mean over walkers of [normalized_i * normalized_j /
    denominator], with [normalized_i = Psi_i * exp(logmag_i - ref)],
    [denominator = sum_i exp(2 (logmag_i - ref))] and [ref] the largest
    log-magnitude over the wavefunctions at the walker, all taken after the
    step's sweep over the electrons. *)
Theorem run_block_overlap nsteps_per_block st refs act :
  st_wfs st = refs ++ [act] ->
  (0 < nsteps_per_block)%nat ->
  sweeps_ok nsteps_per_block st ->
  shapes_stable nsteps_per_block st ->
  avg_leaves_overlap ->
  exists block_avg,
    run_block nsteps_per_block st = (inr block_avg, after_sweeps nsteps_per_block st) /\
    block_avg !! "overlap"%string
    = Some (nd_matrix (length (st_wfs st)) (block_overlap nsteps_per_block st)).
Proof.
  intros Hw Hn Hok Hshape Havg.
  destruct (run_steps_inv nsteps_per_block nsteps_per_block st refs act Hw Hok Hshape Havg
              nsteps_per_block 0%nat ∅ ltac:(lia))
    as (b' & Hrun & _ & Hov).
  { split; [|done]. intros k y Hy. by rewrite lookup_empty in Hy. }
  exists b'. split; [exact Hrun|]. simpl in Hov.
  destruct nsteps_per_block as [|n]; [lia|]. rewrite Hov.
  unfold nd_matrix, block_overlap. rewrite length_map. do 2 f_equal.
  rewrite (concat_map_map_prod
             (fun wfi wfj =>
                mean (map (fun t => sampler_overlap (st_configs (after_sweeps t st))
                                                    (st_wfs st) wfi wfj)
                          (seq 1 (S n))))).
  apply map_ext. intros p. unfold mean.
  rewrite length_map, length_seq. apply vsum_map_div.
Qed.
End SampleOverlapBlock.

Lemma run_block_overlap_witness :
  exists block_avg,
    run_block (Acc := ex_accumulator) (Dyn := ex_dynamics) 1 ex_state
    = (inr block_avg, after_sweeps (Dyn := ex_dynamics) 1 ex_state) /\
    block_avg !! "overlap"%string
    = Some (nd_matrix (length (st_wfs ex_state))
                      (block_overlap (Dyn := ex_dynamics) 1 ex_state)).
Proof.
  apply (run_block_overlap (Acc := ex_accumulator) (Dyn := ex_dynamics)
           1 ex_state [ex_reference] ex_active).
  - reflexivity.
  - lia.
  - intros t Ht. assert (t = 1%nat) as -> by lia.
    repeat constructor; by eexists.
  - intros t t' k sd sd' x x' Ht Ht' Hsd Hsd' Hx Hx'.
    assert (t = 1%nat) as -> by lia. assert (t' = 1%nat) as -> by lia.
    rewrite Hsd in Hsd'. injection Hsd' as <-. rewrite Hx in Hx'. by injection Hx' as <-.
  - intros configs wf weights. apply lookup_empty.
Defined.

(** ** The distributed combination *)

Lemma weight_column_ok (w : ndarray) (nb nwf : nat) :
  shape w = [nb; nwf] -> (0 < nwf)%nat ->
  exists col, weight_column w = inr col /\ length col = nb.
Proof.
  intros Hs Hn. unfold weight_column. rewrite Hs.
  rewrite decide_False by lia. eexists. split; [done|].
  by rewrite length_map, length_seq.
Qed.

Lemma map_blocks_ok (f : R -> R -> R) (a : ndarray) (col : vec) (nb : nat) (rest : list nat) :
  shape a = nb :: rest -> length col = nb ->
  exists y, map_blocks f a col = inr y /\ shape y = shape a.
Proof.
  intros Hs Hl. unfold map_blocks. rewrite Hs, decide_True by done.
  eexists. split; done.
Qed.

Lemma iadd_ok (a b : ndarray) :
  shape a = shape b -> exists c, iadd a b = inr c /\ shape c = shape a.
Proof.
  intros Hs. unfold iadd, nd_add. rewrite decide_True by done. by eexists.
Qed.

Lemma special_weight : special "weight" = true.
Proof. unfold special. apply bool_decide_eq_true. set_solver. Qed.

(** Every entry of [df] has the shape its key has in the layout. *)
Definition df_fits (sig : list (string * list nat)) (df : gmap string ndarray) : Prop :=
  forall k a, df !! k = Some a -> (k, shape a) ∈ sig.

Lemma layout_key_shape (sig : list (string * list nat)) (k : string) (sh sh' : list nat) :
  NoDup (map fst sig) -> (k, sh) ∈ sig -> (k, sh') ∈ sig -> sh = sh'.
Proof.
  intros Hnd. induction sig as [|[k0 s0] sig IH]; simpl in *; [by intros ?%elem_of_nil|].
  apply NoDup_cons in Hnd as [Hk0 Hnd].
  intros H1 H2. apply elem_of_cons in H1, H2.
  assert (Hnot : forall s, (k0, s) ∈ sig -> False).
  { intros s Hs. apply Hk0. apply list_elem_of_fmap. by exists (k0, s). }
  destruct H1 as [E1|H1], H2 as [E2|H2]; simplify_eq.
  - done.
  - exfalso. by apply (Hnot sh').
  - exfalso. by apply (Hnot sh).
  - by apply IH.
Qed.

Lemma df_fits_insert sig df k a :
  df_fits sig df -> (k, shape a) ∈ sig -> df_fits sig (<[k := a]> df).
Proof.
  intros Hf Hk k' a'. destruct (decide (k' = k)) as [->|Hne].
  - rewrite lookup_insert_eq. by intros [= <-].
  - rewrite lookup_insert_ne by done. apply Hf.
Qed.

Lemma dfk_shape sig df k x :
  NoDup (map fst sig) -> df_fits sig df -> (k, shape x) ∈ sig ->
  shape (default (nd_zeros (shape x)) (df !! k)) = shape x.
Proof.
  intros Hnd Hf Hk. destruct (df !! k) as [a|] eqn:E; simpl; [|done].
  apply (layout_key_shape sig k); [done| |done]. by apply Hf.
Qed.

Section CombineKey.
Variables (sig : list (string * list nat)) (nb nwf nruns : nat) (cw : R) (weight : ndarray).
Hypothesis Hnd : NoDup (map fst sig).
Hypothesis Hweight : shape weight = [nb; nwf].
Hypothesis Hnwf : (0 < nwf)%nat.
Hypothesis Hblocks : forall k sh, (k, sh) ∈ sig -> special k = false ->
  (1 <= length sh <= 3)%nat -> exists rest, sh = nb :: rest.

(** A statistic outside the three special ones whose rank is not 1, 2 or 3
    stops the combination. *)
Lemma combine_key_unsupported df k x :
  df_fits sig df -> (k, shape x) ∈ sig ->
  special k = false -> ~ (1 <= length (shape x) <= 3)%nat ->
  combine_key nruns cw weight df k x = inl NotImplementedError.
Proof.
  intros Hf Hk Hsp Hr. unfold combine_key. rewrite Hsp.
  unfold rank. rewrite (dfk_shape sig df k x Hnd Hf Hk).
  destruct (length (shape x)) as [|[|[|[|n]]]]; try done; lia.
Qed.

(** Any other statistic is added to [df] under its own shape. *)
Lemma combine_key_supported df k x :
  df_fits sig df -> (k, shape x) ∈ sig ->
  (special k = false -> (1 <= length (shape x) <= 3)%nat) ->
  exists a, combine_key nruns cw weight df k x = inr (<[k := a]> df) /\ shape a = shape x.
Proof.
  intros Hf Hk Hr. unfold combine_key.
  pose proof (dfk_shape sig df k x Hnd Hf Hk) as Hdfk.
  destruct (special k) eqn:Hsp.
  - destruct (iadd_ok (default (nd_zeros (shape x)) (df !! k))
                      (nd_div (nd_scale cw x) (INR nruns)) Hdfk) as (c & Hc & Hsc).
    rewrite Hc. exists c. split; [done|]. by rewrite Hsc.
  - specialize (Hr eq_refl).
    destruct (weight_column_ok weight nb nwf Hweight Hnwf) as (col & Hcol & Hlen).
    destruct (Hblocks k (shape x) Hk Hsp Hr) as [rest Hrest].
    destruct (map_blocks_ok Rmult x col nb rest Hrest Hlen) as (y & Hy & Hsy).
    destruct (iadd_ok (default (nd_zeros (shape x)) (df !! k)) y) as (c & Hc & Hsc);
      [by rewrite Hsy|].
    unfold rank. rewrite Hdfk.
    assert (Hbody : (col ← weight_column weight; y ← scale_blocks x col;
                     dfk' ← iadd (default (nd_zeros (shape x)) (df !! k)) y;
                     mret (<[k := dfk']> df)) = inr (<[k := c]> df)).
    { rewrite Hcol. simpl. unfold scale_blocks. rewrite Hy. simpl. by rewrite Hc. }
    exists c. split; [|by rewrite Hsc].
    destruct (length (shape x)) as [|[|[|[|n]]]]; try done; lia.
Qed.

(** The loop over the keys of one result. *)
Lemma combine_keys_spec stats : forall df,
  df_fits sig df -> (forall k x, (k, x) ∈ stats -> (k, shape x) ∈ sig) ->
  ((exists k x, (k, x) ∈ stats /\ special k = false /\ ~ (1 <= length (shape x) <= 3)%nat) ->
   combine_keys nruns cw weight df stats = inl NotImplementedError) /\
  ((forall k x, (k, x) ∈ stats -> special k = false -> (1 <= length (shape x) <= 3)%nat) ->
   exists df', combine_keys nruns cw weight df stats = inr df' /\ df_fits sig df' /\
     (forall k, is_Some (df' !! k) <-> is_Some (df !! k) \/ k ∈ map fst stats)).
Proof.
  induction stats as [|[k x] stats IH]; intros df Hf Hin.
  - split.
    + intros (k & x & Hk & _). by apply elem_of_nil in Hk.
    + intros _. exists df. split; [done|]. split; [done|].
      intros k. simpl. split; [by left|]. intros [H|H]; [done|]. by apply elem_of_nil in H.
  - assert (Hk : (k, shape x) ∈ sig) by (apply Hin; left).
    assert (Hin' : forall k' x', (k', x') ∈ stats -> (k', shape x') ∈ sig)
      by (intros k' x' H'; apply Hin; by right).
    simpl.
    destruct (decide (special k = false /\ ~ (1 <= length (shape x) <= 3)%nat)) as [[Hsp Hr]|Hgood].
    + rewrite (combine_key_unsupported df k x Hf Hk Hsp Hr). split; [done|].
      intros Hall. exfalso. apply Hr. apply (Hall k x); [left|done].
    + destruct (combine_key_supported df k x Hf Hk) as (a & Ha & Hsa).
      { intros Hsp. destruct (decide (1 <= length (shape x) <= 3)%nat); [done|].
        exfalso. by apply Hgood. }
      rewrite Ha. simpl.
      assert (Hf' : df_fits sig (<[k := a]> df))
        by (apply df_fits_insert; [done | by rewrite Hsa]).
      destruct (IH (<[k := a]> df) Hf' Hin') as [IHbad IHgood]. split.
      * intros (k' & x' & [[= -> ->]|Hk']%elem_of_cons & Hsp & Hr).
        -- exfalso. by apply Hgood.
        -- apply IHbad. by exists k', x'.
      * intros Hall. destruct IHgood as (df' & Hrun & Hfit & Hdom).
        { intros k' x' H'. apply Hall. by right. }
        exists df'. split; [done|]. split; [done|].
        intros k'. rewrite Hdom, lookup_insert_is_Some. simpl. rewrite elem_of_cons.
        destruct (decide (k = k')) as [->|Hne]; intuition congruence.
Qed.
End CombineKey.

Lemma layout_scale_weight (c : R) (stats : list (string * ndarray)) :
  layout (scale_weight c stats) = layout stats.
Proof.
  unfold layout, scale_weight. rewrite map_map. apply map_ext.
  intros [k x]. simpl. by destruct (decide _).
Qed.

Lemma elem_of_layout (stats : list (string * ndarray)) (k : string) (x : ndarray) :
  (k, x) ∈ stats -> (k, shape x) ∈ layout stats.
Proof. intros Hin. apply list_elem_of_fmap. by exists (k, x). Qed.

Lemma elem_of_layout_inv (stats : list (string * ndarray)) (k : string) (sh : list nat) :
  (k, sh) ∈ layout stats -> exists x, (k, x) ∈ stats /\ shape x = sh.
Proof.
  intros ([k' x] & [= -> ->] & Hin)%list_elem_of_fmap. by exists x.
Qed.

Lemma map_fst_layout (stats : list (string * ndarray)) :
  map fst (layout stats) = map fst stats.
Proof. unfold layout. rewrite map_map. by apply map_ext. Qed.

Lemma item_layout (stats : list (string * ndarray)) (k : string) (sh : list nat) :
  NoDup (map fst (layout stats)) -> (k, sh) ∈ layout stats ->
  exists x, item k stats = inr x /\ shape x = sh.
Proof.
  intros Hnd Hin. induction stats as [|[k0 x0] stats IH]; simpl in *.
  - by apply elem_of_nil in Hin.
  - apply NoDup_cons in Hnd as [Hk0 Hnd]. destruct (decide (k0 = k)) as [->|Hne].
    + exists x0. split; [done|]. apply elem_of_cons in Hin as [[= ->]|Hin]; [done|].
      exfalso. apply Hk0. apply list_elem_of_fmap. by exists (k, sh).
    + apply elem_of_cons in Hin as [[= -> ->]|Hin]; [done|]. by apply IH.
Qed.

Section CombineRuns.
Context {Walker : Type}.
Variables (sig : list (string * list nat)) (nb nwf nruns : nat).
Hypothesis Hnd : NoDup (map fst sig).
Hypothesis Hweight : ("weight"%string, [nb; nwf]) ∈ sig.
Hypothesis Hnwf : (0 < nwf)%nat.
Hypothesis Hblocks : forall k sh, (k, sh) ∈ sig -> special k = false ->
  (1 <= length sh <= 3)%nat -> exists rest, sh = nb :: rest.

Definition returned (r : partition_run Walker) : Prop :=
  exists stats configs, run_result r = inr (stats, configs) /\ layout stats = sig.

(** The loop over the futures. *)
Lemma combine_runs_spec (runs : list (partition_run Walker)) :
  Forall returned runs ->
  forall cws df fc, length cws = length runs -> df_fits sig df ->
    (unsupported_rank sig -> runs <> [] ->
     combine_runs nruns cws runs df fc = inl NotImplementedError) /\
    (~ unsupported_rank sig ->
     exists df' fc', combine_runs nruns cws runs df fc = inr (df', fc') /\
       df_fits sig df' /\
       (runs <> [] -> forall k, k ∈ map fst sig -> is_Some (df' !! k))).
Proof.
  induction 1 as [|r runs (stats & configs & Hres & Hlay) _ IH];
    intros cws df fc Hlen Hf.
  - split; [done|]. intros _. exists df, fc. split; [done|]. split; [done|].
    intros Hne. by destruct Hne.
  - destruct cws as [|cw cws]; [done|]. simpl in Hlen.
    simpl. rewrite Hres. simpl.
    assert (Hnd' : NoDup (map fst (layout stats))) by (by rewrite Hlay).
    destruct (item_layout stats "weight" [nb; nwf] Hnd') as (w & Hw & Hsw);
      [by rewrite Hlay|].
    rewrite Hw. simpl.
    assert (Hin : forall k x, (k, x) ∈ scale_weight cw stats -> (k, shape x) ∈ sig).
    { intros k x Hk. apply elem_of_layout in Hk.
      by rewrite layout_scale_weight, Hlay in Hk. }
    destruct (combine_keys_spec sig nb nwf nruns cw (nd_scale cw w) Hnd Hsw Hnwf Hblocks
                (scale_weight cw stats) df Hf Hin) as [Hbad Hgood].
    split.
    + intros (k & sh & Hk & Hsp & Hr) _.
      rewrite Hbad; [done|].
      rewrite <- Hlay, <- (layout_scale_weight cw) in Hk.
      apply elem_of_layout_inv in Hk as (x & Hx & <-). by exists k, x.
    + intros Hsup. destruct Hgood as (df1 & Hrun & Hf1 & Hdom).
      { intros k x Hk Hsp. destruct (decide (1 <= length (shape x) <= 3)%nat); [done|].
        exfalso. apply Hsup. exists k, (shape x). split; [by apply Hin|done]. }
      rewrite Hrun. simpl.
      destruct (IH cws df1 (fc ++ [configs]) ltac:(lia) Hf1) as [_ IHgood].
      destruct (IHgood Hsup) as (df' & fc' & Hrun' & Hf' & Hdom').
      exists df', fc'. split; [done|]. split; [done|].
      intros _ k Hk. destruct runs as [|r' runs'].
      * simpl in Hrun'. injection Hrun' as <- <-. apply Hdom. right.
        rewrite <- (map_fst_layout (scale_weight cw stats)), layout_scale_weight, Hlay.
        done.
      * by apply Hdom'.
Qed.

(** The second loop never raises on a [df] that holds every key of the
    layout under its shape. *)
Lemma normalize_keys_spec (keys : list string) : forall df,
  df_fits sig df -> (forall k, k ∈ map fst sig -> is_Some (df !! k)) ->
  (forall k, k ∈ keys -> k ∈ map fst sig) ->
  exists df', normalize_keys nruns df keys = inr df' /\ df_fits sig df' /\
    (forall k, k ∈ map fst sig -> is_Some (df' !! k)).
Proof.
  induction keys as [|k keys IH]; intros df Hf Hall Hkeys.
  - by exists df.
  - simpl.
    assert (Hstep : exists df1, normalize_key nruns df k = inr df1 /\ df_fits sig df1 /\
                      (forall k', k' ∈ map fst sig -> is_Some (df1 !! k'))).
    { unfold normalize_key. destruct (special k) eqn:Hsp; [by exists df|].
      destruct (Hall k) as [a Ha]; [apply Hkeys; left|]. rewrite Ha. simpl.
      assert (Hgood : forall (body : error + gmap string ndarray),
                ((1 <= rank a <= 3)%nat ->
                 exists df1, body = inr df1 /\ df_fits sig df1 /\
                   (forall k', k' ∈ map fst sig -> is_Some (df1 !! k'))) ->
                exists df1,
                  match rank a with
                  | 1%nat | 2%nat | 3%nat => body
                  | _ => mret df
                  end = inr df1 /\ df_fits sig df1 /\
                  (forall k', k' ∈ map fst sig -> is_Some (df1 !! k'))).
      { intros body Hbody.
        destruct (rank a) as [|[|[|[|n]]]] eqn:Er;
          try (by exists df); apply Hbody; lia. }
      apply Hgood. intros Hr.
      destruct (Hall "weight"%string) as [w Hw].
      { apply list_elem_of_fmap. by exists ("weight"%string, [nb; nwf]). }
      rewrite Hw. simpl.
      assert (Hsw : shape w = [nb; nwf]).
      { apply (layout_key_shape sig "weight"); [done| |done]. by apply Hf. }
      destruct (weight_column_ok w nb nwf Hsw Hnwf) as (col & Hcol & Hlen).
      rewrite Hcol. simpl.
      destruct (Hblocks k (shape a) (Hf k a Ha) Hsp Hr) as [rest Hrest].
      destruct (map_blocks_ok (fun x c => x / (INR nruns * c)) a col nb rest Hrest Hlen)
        as (y & Hy & Hsy).
      unfold divide_blocks. rewrite Hy. simpl.
      exists (<[k := y]> df). split; [done|]. split.
      - apply df_fits_insert; [done|]. rewrite Hsy. by apply Hf.
      - intros k' Hk'. rewrite lookup_insert_is_Some.
        destruct (decide (k = k')); [by left|]. right. split; [done|]. by apply Hall. }
    destruct Hstep as (df1 & Hrun & Hf1 & Hall1). rewrite Hrun. simpl.
    apply IH; [done|done|]. intros k' Hk'. apply Hkeys. by right.
Qed.
End CombineRuns.

(** The rank rule of the combination.  On results fit for combination,
    [dist_sample_overlap] raises
    [NotImplementedError] when some statistic other than ["weight"],
    ["overlap"] and ["overlap_gradient"] has a rank outside 1, 2, 3, and
    otherwise returns, with every statistic of the layout combined under its
    shape.  The three special statistics play no part in the error, whatever
    their rank. *)
Theorem dist_sample_overlap_rank {Walker : Type} (runs : list (partition_run Walker))
    (sig : list (string * list nat)) (nb nwf : nat) :
  well_formed_runs runs sig nb nwf ->
  (unsupported_rank sig -> dist_sample_overlap runs = inl NotImplementedError) /\
  (~ unsupported_rank sig ->
   exists df configs, dist_sample_overlap runs = inr (df, configs) /\
     forall k sh, (k, sh) ∈ sig -> exists a, df !! k = Some a /\ shape a = sh).
Proof.
  intros [Hne Hres Hnd Hweight Hnwf Hblocks].
  destruct (combine_runs_spec sig nb nwf (length runs) Hnd Hweight Hnwf Hblocks runs Hres
              (map (fun s => s / mean (map (fun r => INR (run_size r)) runs))
                   (map (fun r => INR (run_size r)) runs)) ∅ [])
    as [Hbad Hgood].
  { by rewrite !length_map. }
  { intros k a Hk. by rewrite lookup_empty in Hk. }
  split.
  - intros Hun. unfold dist_sample_overlap. by rewrite (Hbad Hun Hne).
  - intros Hsup. destruct (Hgood Hsup) as (df & fc & Hrun & Hf & Hall).
    unfold dist_sample_overlap. rewrite Hrun. simpl.
    destruct (exists_last Hne) as (runs' & r & ->). rewrite last_snoc.
    apply Forall_app in Hres as [_ Hr]. apply Forall_inv in Hr.
    destruct Hr as (stats & configs & Hr & Hlay). rewrite Hr. simpl.
    destruct (normalize_keys_spec sig nb nwf (length (runs' ++ [r])) Hnd Hweight Hnwf
                Hblocks (map fst stats) df Hf (Hall Hne)) as (df' & Hnorm & Hf' & Hall').
    { intros k Hk. by rewrite <- Hlay, map_fst_layout. }
    rewrite Hnorm. simpl. exists df', (concat fc). split; [done|].
    intros k sh Hk. destruct (Hall' k) as [a Ha].
    { apply list_elem_of_fmap. by exists (k, sh). }
    exists a. split; [done|].
    apply (layout_key_shape sig k); [done| |done]. by apply Hf'.
Qed.

Lemma dist_sample_overlap_rank_witness :
  (exists df configs, dist_sample_overlap ex_runs = inr (df, configs) /\
     forall k sh, (k, sh) ∈ [("total"%string, [1%nat]); ("weight"%string, [1%nat; 2%nat])] ->
       exists a, df !! k = Some a /\ shape a = sh) /\
  dist_sample_overlap ex_runs_scalar = inl NotImplementedError.
Proof.
  split.
  - apply (dist_sample_overlap_rank ex_runs
             [("total"%string, [1%nat]); ("weight"%string, [1%nat; 2%nat])] 1 2).
    + split.
      * done.
      * repeat constructor. by eexists _, _.
      * simpl. repeat constructor; set_solver.
      * set_solver.
      * lia.
      * intros k sh Hin Hsp Hr.
        apply elem_of_cons in Hin as [[= -> ->]|Hin]; [by exists []|].
        apply list_elem_of_singleton in Hin as [= -> ->]. by rewrite special_weight in Hsp.
    + intros (k & sh & Hin & Hsp & Hr).
      apply elem_of_cons in Hin as [[= -> ->]|Hin]; [simpl in Hr; lia|].
      apply list_elem_of_singleton in Hin as [= -> ->]. by rewrite special_weight in Hsp.
  - apply (dist_sample_overlap_rank ex_runs_scalar
             [("total"%string, []); ("weight"%string, [1%nat; 2%nat])] 1 2).
    + split.
      * done.
      * repeat constructor. by eexists _, _.
      * simpl. repeat constructor; set_solver.
      * set_solver.
      * lia.
      * intros k sh Hin Hsp Hr.
        apply elem_of_cons in Hin as [[= -> ->]|Hin]; [simpl in Hr; lia|].
        apply list_elem_of_singleton in Hin as [= -> ->]. by rewrite special_weight in Hsp.
    + exists "total"%string, []. split; [set_solver|]. split; [|simpl; lia].
      unfold special. apply bool_decide_eq_false. set_solver.
Defined.

(** ** The distributed combination: the value of a combined statistic *)

(** Two partitions of [n1] and [n2] walkers.  With [c_i] the size of
    partition [i] over the mean size and [w_i] the last wavefunction's
    weight, an entry [x_i] of ["total"] is combined to
    [(x1 w1 c1 + x2 w2 c2) / (w1 c1^2 + w2 c2^2)]: line 171 scales the
    partition's weight by [c_i] in place, line 181 multiplies the statistic
    by that weight, line 192 scales the weight by [c_i] once more before
    adding it up, and line 197 divides by the sum. *)
Lemma two_partition_total (n1 n2 : nat) (x1 y1 v1 w1 x2 y2 v2 w2 : R) :
  let c1 := INR n1 / mean [INR n1; INR n2] in
  let c2 := INR n2 / mean [INR n1; INR n2] in
  exists df configs,
    dist_sample_overlap (two_runs n1 n2 x1 y1 v1 w1 x2 y2 v2 w2) = inr (df, configs) /\
    df !! "total"%string
    = Some (NDArray [1%nat; 2%nat]
              [(x1 * (w1 * c1) + x2 * (w2 * c2)) / (w1 * c1 * c1 + w2 * c2 * c2);
               (y1 * (w1 * c1) + y2 * (w2 * c2)) / (w1 * c1 * c1 + w2 * c2 * c2)]) /\
    df !! "weight"%string
    = Some (NDArray [1%nat; 2%nat]
              [(v1 * c1 * c1 + v2 * c2 * c2) / 2; (w1 * c1 * c1 + w2 * c2 * c2) / 2]).
Proof.
  intros c1 c2. eexists _, _. split; [vm_compute; reflexivity|].
  subst c1 c2. vm_compute.
  match goal with
  | |- context [?f n1] => set (i1 := f n1); set (i2 := f n2)
  end.
  generalize (/ ((i1 + (i2 + R0)) * / (R1 + R1))). intros r.
  generalize i1 i2. clear i1 i2. intros i1 i2.
  split; do 3 f_equal; [| f_equal | | f_equal]; try (f_equal; [ring | f_equal; field]); ring.
Qed.

(** With partitions of one size the two factors are [1], and the combined
    statistic is the average of the partitions' values weighted by the last
    wavefunction's weight. *)
Lemma two_partition_total_equal (n : nat) (x1 y1 v1 w1 x2 y2 v2 w2 : R) :
  (0 < n)%nat ->
  exists df configs,
    dist_sample_overlap (two_runs n n x1 y1 v1 w1 x2 y2 v2 w2) = inr (df, configs) /\
    df !! "total"%string
    = Some (NDArray [1%nat; 2%nat]
              [(x1 * w1 + x2 * w2) / (w1 + w2); (y1 * w1 + y2 * w2) / (w1 + w2)]).
Proof.
  intros Hn.
  destruct (two_partition_total n n x1 y1 v1 w1 x2 y2 v2 w2)
    as (df & configs & Hrun & Htotal & _).
  exists df, configs. split; [exact Hrun|].
  rewrite Htotal.
  assert (Hc : INR n / mean [INR n; INR n] = 1).
  { unfold mean. simpl. assert (0 < INR n) by (apply lt_0_INR; lia). field. lra. }
  rewrite Hc.
  do 3 f_equal; [| f_equal]; (f_equal; [ring | f_equal; ring]).
Qed.

(** C8.  The statistics other than ["weight"], ["overlap"] and
    ["overlap_gradient"] are not combined as a weighted average of the
    partitions' values.  Three walkers split into partitions of two and of
    one, one block, the statistic [2] in both partitions and the weight
    [1/2] for both wavefunctions: [dist_sample_overlap] returns, the
    statistic being of rank 2, and the combined statistic is [9/5], where
    every weighted average of the two partitions' values is [2].  The
    combined weight is [5/9], the sum of the partitions' weights each
    scaled twice by its partition's share, over the number of partitions. *)
Theorem dist_sample_overlap_not_average :
  exists df configs,
    dist_sample_overlap (two_runs 2 1 2 2 (1/2) (1/2) 2 2 (1/2) (1/2)) = inr (df, configs) /\
    df !! "total"%string = Some (NDArray [1%nat; 2%nat] [9 / 5; 9 / 5]) /\
    df !! "weight"%string = Some (NDArray [1%nat; 2%nat] [5 / 9; 5 / 9]) /\
    configs = [(); (); ()] /\
    9 / 5 <> 2.
Proof.
  destruct (two_partition_total 2 1 2 2 (1/2) (1/2) 2 2 (1/2) (1/2))
    as (df & configs & Hrun & Htotal & Hweight).
  exists df, configs. split; [exact Hrun|].
  split. { rewrite Htotal. unfold mean. simpl. do 3 f_equal; [field | f_equal; field]. }
  split. { rewrite Hweight. unfold mean. simpl. do 3 f_equal; [field | f_equal; field]. }
  split; [|lra].
  revert Hrun. vm_compute. congruence.
Qed.


(** ** The driver: what the line search leaves of the parameters *)

Lemma for_each_preserves {S A B} (Rel : S -> S -> Prop) (body : A -> M S B) (l : list A) :
  (forall s, Rel s s) -> (forall s1 s2 s3, Rel s1 s2 -> Rel s2 s3 -> Rel s1 s3) ->
  (forall a s, Rel s (body a s).2) ->
  forall s, Rel s (for_each body l s).2.
Proof.
  intros Hrefl Htrans Hbody. induction l as [|a l IH]; intros s; simpl; [apply Hrefl|].
  rewrite M_bind_run. specialize (Hbody a s).
  destruct (body a s) as [[e|b] s1]; simpl in *; [done|].
  rewrite M_bind_run. specialize (IH s1).
  destruct (for_each body l s1) as [[e|bs] s2]; simpl in *; by eapply Htrans.
Qed.

Section ParameterFrame.
Context {Walker : Type} {Tr : Transform} {Acc : Accumulator Walker}.
Implicit Types (wf a act : wavefunction Walker) (wfs : list (wavefunction Walker)).

(** [P'] and [P] agree on every key that no deserialized vector names. *)
Definition agree_off (P P' : gmap string (list R)) : Prop :=
  forall k, (forall v, deserialize v !! k = None) -> P' !! k = P !! k.

Lemma agree_off_refl P : agree_off P P.
Proof. by intros k _. Qed.

Lemma agree_off_trans P1 P2 P3 : agree_off P1 P2 -> agree_off P2 P3 -> agree_off P1 P3.
Proof. intros H12 H23 k Hk. by rewrite (H23 k Hk), (H12 k Hk). Qed.

Lemma agree_off_union P v : agree_off P (deserialize v ∪ P).
Proof. intros k Hk. by rewrite lookup_union_r. Qed.

(** The last objects of two lists of wavefunctions have parameters that
    agree off the transform's keys (and both lists have a last object, or
    neither). *)
Definition last_agree wfs wfs' : Prop :=
  match last wfs, last wfs' with
  | Some a, Some a' => agree_off (parameters a) (parameters a')
  | None, None => True
  | _, _ => False
  end.

Lemma last_agree_refl wfs : last_agree wfs wfs.
Proof. unfold last_agree. destruct (last wfs); [apply agree_off_refl|done]. Qed.

Lemma last_agree_trans wfs1 wfs2 wfs3 :
  last_agree wfs1 wfs2 -> last_agree wfs2 wfs3 -> last_agree wfs1 wfs3.
Proof.
  unfold last_agree. destruct (last wfs1), (last wfs2), (last wfs3); try done.
  apply agree_off_trans.
Qed.

Lemma last_agree_snoc wfs wfs' a a' :
  agree_off (parameters a) (parameters a') -> last_agree (wfs ++ [a]) (wfs' ++ [a']).
Proof. intros H. unfold last_agree. by rewrite !last_snoc. Qed.

Lemma recompute_all_snoc configs refs a :
  exists refs' a', (recompute_all configs (refs ++ [a])).2 = refs' ++ [a'] /\
                   parameters a' = parameters a /\ amplitude a' = amplitude a.
Proof.
  induction refs as [|wf refs IH]; simpl.
  - destruct (recompute configs a) as [a1|] eqn:E; simpl.
    + apply recompute_Some in E as [-> _]. by exists [], (recomputed configs a).
    + by exists [], a.
  - destruct (recompute configs wf) as [wf'|] eqn:E; simpl.
    + destruct IH as (refs' & a' & Hst & Hp).
      destruct (recompute_all configs (refs ++ [a])) as [r rest]. simpl in *. subst rest.
      by exists (wf' :: refs'), a'.
    + by exists (wf :: refs), a.
Qed.

(** However [correlated_sample] ends, the parameters of the last
    wavefunction are changed at most on the transform's keys. *)
Lemma correlated_sample_last_agree configs cands wfs :
  last_agree wfs (correlated_sample configs cands wfs).2.
Proof.
  unfold correlated_sample. rewrite M_bind_run. unfold get at 1. rewrite M_bind_run.
  destruct (decide (wfs = [])) as [->|Hne]; [done|].
  destruct (exists_last Hne) as (refs & act & ->). rewrite last_snoc.
  unfold lift at 1, mret at 1, M_ret at 1. rewrite M_bind_run.
  destruct (recompute_all_snoc configs refs act) as (refs1 & act1 & Hst1 & Hp1 & _).
  destruct (recompute_all configs (refs ++ [act])) as [[e|[]] st1] eqn:Hre;
    simpl in Hst1; subst st1.
  { simpl. apply last_agree_snoc. rewrite Hp1. apply agree_off_refl. }
  rewrite M_bind_run. unfold get at 1. rewrite M_bind_run.
  destruct (vmax _) as [ref|]; simpl.
  2:{ apply last_agree_snoc. rewrite Hp1. apply agree_off_refl. }
  rewrite M_bind_run.
  destruct (for_each_candidate_frame configs ref (map value (refs1 ++ [act1]))
              (base_weight (length configs) (map value (refs1 ++ [act1])))
              refs1 cands act1) as (act2 & Hst2 & _ & Hoff & _).
  destruct (for_each _ cands (refs1 ++ [act1])) as [[e|rows] st2]; simpl in Hst2; subst st2.
  - simpl. apply last_agree_snoc. intros k Hk. rewrite <- Hp1. apply Hoff.
    intros c _. apply Hk.
  - rewrite M_bind_run. unfold install at 1. rewrite alter_last_snoc. simpl.
    apply last_agree_snoc. intros k Hk. simpl.
    rewrite lookup_union_r by apply Hk. rewrite <- Hp1. apply Hoff.
    intros c _. apply Hk.
Qed.
End ParameterFrame.

Lemma last_alter_last {A} (f : A -> A) (l : list A) :
  last (alter_last f l) = f <$> last l.
Proof.
  induction l as [|x l IH]; [done|]. destruct l as [|y l]; [done|].
  change (alter_last f (x :: y :: l)) with (x :: alter_last f (y :: l)).
  change (last (x :: y :: l)) with (last (y :: l)). rewrite <- IH.
  destruct (alter_last f (y :: l)) eqn:E; [|done].
  apply (f_equal length) in E. rewrite alter_last_length in E. done.
Qed.

Lemma last_insert_length {A} (l : list A) (i : nat) (x : A) :
  is_Some (last l) -> is_Some (last (<[i := x]> l)).
Proof.
  intros [y Hy]. destruct (decide (<[i := x]> l = [])) as [E|Hne].
  - apply (f_equal length) in E. rewrite length_insert in E. by destruct l.
  - destruct (exists_last Hne) as (l' & z & ->). rewrite last_snoc. by eexists.
Qed.

Section DriverFrame.
Context {Walker : Type} {Tr : Transform} {Acc : Accumulator Walker}
        {Dyn : Dynamics Walker} {Smp : Sampling Walker} {Num : Numerics}.
Implicit Types (st : driver_state Walker Rng).

(** What the line search leaves alone: the parameter vector, the checkpoint
    file, and the active wavefunction's parameters off the transform's
    keys. *)
Definition ds_frame st st' : Prop :=
  ds_parameters st' = ds_parameters st /\
  ds_hdf st' = ds_hdf st /\
  last_agree (ds_wfs st) (ds_wfs st').

Lemma ds_frame_refl st : ds_frame st st.
Proof. split; [done|]. split; [done|]. apply last_agree_refl. Qed.

Lemma ds_frame_trans st1 st2 st3 : ds_frame st1 st2 -> ds_frame st2 st3 -> ds_frame st1 st3.
Proof.
  intros (Hp1 & Hh1 & Hl1) (Hp2 & Hh2 & Hl2). split; [congruence|]. split; [congruence|].
  by eapply last_agree_trans.
Qed.

Lemma lift_result_state {A} (r : error + A) st : (lift_result r st).2 = st.
Proof. by destruct r. Qed.

Lemma correlated_pair_frame test_parameters i icoord st :
  ds_frame st (correlated_pair test_parameters i icoord st).2.
Proof.
  unfold correlated_pair. rewrite M_bind_run. unfold get at 1. rewrite M_bind_run.
  destruct (ds_wfs st !! i) as [wf|] eqn:Ei; simpl; [|apply ds_frame_refl].
  rewrite M_bind_run.
  destruct (last (ds_wfs st)) as [active|] eqn:El; simpl; [|apply ds_frame_refl].
  pose proof (correlated_sample_last_agree icoord test_parameters [wf; active]) as Hagree.
  destruct (correlated_sample icoord test_parameters [wf; active]) as [r objects].
  simpl in Hagree.
  rewrite M_bind_run. unfold put at 1. rewrite lift_result_state.
  split; [done|]. split; [done|]. simpl.
  destruct objects as [|wf' [|active' [|? ?]]]; try apply last_agree_refl.
  unfold last_agree in *. simpl in Hagree. rewrite El, last_alter_last.
  destruct (last_insert_length (ds_wfs st) i wf') as [x Hx]; [by eexists|].
  by rewrite Hx.
Qed.

Lemma line_search_frame opts total_derivative condition st :
  ds_frame st (line_search opts total_derivative condition st).2.
Proof.
  unfold line_search. rewrite M_bind_run. unfold get at 1. rewrite M_bind_run.
  destruct (mapM _ _) as [e|test_parameters]; simpl; [apply ds_frame_refl|].
  rewrite M_bind_run.
  pose proof (for_each_preserves ds_frame
                (fun ic => correlated_pair test_parameters ic.1 ic.2)
                (zip (seq 0 (length (ds_wfs st))) (ds_allcoords st))
                ds_frame_refl ds_frame_trans
                (fun ic s => correlated_pair_frame test_parameters ic.1 ic.2 s) st) as Hfr.
  destruct (for_each _ _ st) as [[e|data] st1]; simpl in Hfr; [done|].
  by rewrite lift_result_state.
Qed.

End DriverFrame.

(** ** The driver: where the lengths of [Starget] and [forcing] matter *)

Lemma bind_inr {A B} (f : A -> error + B) (a : A) : (inr a ≫= f) = f a.
Proof. done. Qed.

Lemma bind_inl {A B} (f : A -> error + B) (e : error) : (inl e ≫= f) = inl e.
Proof. done. Qed.

Lemma broadcast2_Array1 (f : R -> R -> R) (u v : vec) :
  match bshape (length u) (length v) with
  | Some m => exists w, broadcast2 f (Array1 u) (Array1 v) = inr (Array1 w) /\ length w = m
  | None => broadcast2 f (Array1 u) (Array1 v) = inl ValueError
  end.
Proof.
  unfold bshape, broadcast2. destruct (decide (length u = length v)) as [E|NE].
  - eexists. split; [done|]. rewrite length_zip_with. lia.
  - destruct u as [|x [|x' u]], v as [|y [|y' v]]; simpl in *; try done;
      try (eexists; split; [done|]; simpl; by rewrite ?length_map).
Qed.

Lemma broadcast_column_rows (f : R -> R -> R) (col : vec) (M : matrix) (n : nat) :
  Forall (fun row => length row = n) M ->
  match bshape (length col) (length M) with
  | Some m => exists rows, broadcast_column f col M = inr rows /\
                Forall (fun row => length row = n) rows
  | None => broadcast_column f col M = inl ValueError
  end.
Proof.
  intros HM. unfold bshape, broadcast_column.
  destruct (decide (length col = length M)) as [E|NE].
  - eexists. split; [done|]. apply Forall_forall. intros row Hrow.
    apply list_elem_of_lookup in Hrow as [i Hi].
    apply lookup_zip_with_Some in Hi as (c & r & -> & _ & Hr).
    rewrite length_map. eapply Forall_forall in HM; [exact HM|].
    apply list_elem_of_lookup. by exists i.
  - assert (Hmap : forall c, Forall (fun row => length row = n) (map (map (f c)) M)).
    { intros c. rewrite Forall_fmap. eapply Forall_impl; [exact HM|].
      intros row Hr. simpl. by rewrite length_map. }
    destruct col as [|c [|c' col]].
    + destruct M as [|r [|r' M]]; simpl in *; try done.
      eexists. split; [done|]. constructor.
    + destruct (decide (length M = 1%nat)); simpl; rewrite ?decide_True by done;
        eexists; (split; [done|]); apply Hmap.
    + destruct M as [|r [|r' M]]; simpl in *; try done.
      eexists. split; [done|].
      assert (Hr : length r = n) by (by inversion HM).
      repeat constructor; rewrite ?length_map; try done.
      rewrite Forall_fmap. apply Forall_forall. intros x _. simpl. by rewrite length_map.
Qed.

Lemma length_sum_axis0 (n : nat) (rows : matrix) :
  Forall (fun row => length row = n) rows -> length (sum_axis0 n rows) = n.
Proof.
  unfold sum_axis0. induction 1 as [|row rows Hrow _ IH]; simpl.
  - apply length_replicate.
  - rewrite length_zip_with, IH, Hrow. lia.
Qed.

Lemma vadd_same_length (a b : vec) :
  length a = length b -> exists c, vadd a b = inr c /\ length c = length a.
Proof.
  intros Hl. unfold vadd, broadcast2. rewrite decide_True by done.
  eexists. split; [done|]. rewrite length_zip_with. lia.
Qed.

(** Gradient assembly raises [ValueError] exactly when the lengths do not
    broadcast, and returns otherwise. *)
Lemma gradient_assembly_spec (f s : vec) (acc : accumulated) :
  Forall (fun row => length row = length (acc_energy_derivative acc))
         (acc_overlap_derivatives acc) ->
  let nref := length (acc_overlaps acc) in
  length (acc_overlap_derivatives acc) = nref ->
  (lengths_broadcast nref (length f) (length s) ->
   exists td, gradient_assembly (Array1 f) (Array1 s) acc = inr td) /\
  (~ lengths_broadcast nref (length f) (length s) ->
   gradient_assembly (Array1 f) (Array1 s) acc = inl ValueError).
Proof.
  intros Hrows nref Hlen. unfold gradient_assembly, lengths_broadcast.
  pose proof (broadcast2_Array1 Rminus (acc_overlaps acc) s) as H1. fold nref in H1.
  destruct (bshape nref (length s)) as [m1|] eqn:E1.
  2:{ rewrite H1, bind_inl. split; [|done]. intros (m1 & m2 & [=] & _). }
  destruct H1 as (diff & -> & Hd). rewrite bind_inr.
  pose proof (broadcast2_Array1 Rmult f diff) as H2. rewrite Hd in H2.
  destruct (bshape (length f) m1) as [m2|] eqn:E2.
  2:{ rewrite H2, bind_inl. split; [|done].
      intros (m1' & m2 & [= <-] & E2' & _). congruence. }
  destruct H2 as (prod & -> & Hp). rewrite bind_inr.
  unfold as_column. rewrite bind_inr.
  pose proof (broadcast_column_rows Rmult (map (Rmult 2) prod) (acc_overlap_derivatives acc)
                (length (acc_energy_derivative acc)) Hrows) as H3.
  rewrite length_map, Hp, Hlen in H3.
  destruct (bshape m2 nref) as [m3|] eqn:E3.
  2:{ rewrite H3, bind_inl. split; [|done].
      intros (m1' & m2' & [= <-] & E2' & E3'). rewrite E2 in E2'. injection E2' as <-.
      rewrite E3 in E3'. by destruct E3'. }
  destruct H3 as (rows & -> & Hr). rewrite bind_inr. split.
  - intros _.
    destruct (vadd_same_length (acc_energy_derivative acc)
                (sum_axis0 (length (acc_energy_derivative acc)) rows)) as (c & Hc & _).
    { by rewrite length_sum_axis0. }
    by exists c.
  - intros Hno. exfalso. apply Hno. exists m1, m2. rewrite E3. split; [done|].
    split; [done|]. by eexists.
Qed.

(** The arrays of the sampling phase have one entry (one row) per
    reference, and the rows have one entry per parameter. *)
Definition acc_fits (nref : nat) (acc : accumulated) : Prop :=
  length (acc_overlaps acc) = nref /\
  length (acc_overlap_derivatives acc) = nref /\
  Forall (fun row => length row = length (acc_energy_derivative acc))
         (acc_overlap_derivatives acc).

Lemma iadd_vec_inr (a b c : vec) : iadd_vec a b = inr c -> length c = length a.
Proof.
  unfold iadd_vec. destruct (decide _) as [E|]; [|done]. intros [= <-].
  rewrite length_zip_with. lia.
Qed.

Lemma add_bundle_fits (n nref i : nat) (b : derivative_bundle) (acc acc' : accumulated) :
  add_bundle nref i b acc = inr acc' -> acc_fits n acc -> acc_fits n acc'.
Proof.
  unfold add_bundle. intros Hadd (Ho & Hd & Hrows).
  destruct (last (ev_N b)); [|done]. rewrite bind_inr in Hadd.
  destruct (iadd_vec (acc_energy_derivative acc) _) as [|ed] eqn:Eed; [done|].
  rewrite bind_inr in Hadd. apply iadd_vec_inr in Eed.
  destruct (iadd_vec (acc_N_derivative acc) _) as [|nd]; [done|]. rewrite bind_inr in Hadd.
  destruct (iadd_matrix _ _) as [|cd]; [done|]. rewrite bind_inr in Hadd.
  destruct (last (ev_S b)) as [S_last|]; [|done]. rewrite bind_inr in Hadd.
  destruct (head S_last); [|done]. rewrite bind_inr in Hadd.
  destruct (head (ev_S_derivative b)) as [dS0|]; [|done]. rewrite bind_inr in Hadd.
  destruct (decide _) as [HdS|]; [|done]. injection Hadd as <-.
  unfold acc_fits. simpl. rewrite !length_insert. split; [done|]. split; [done|].
  rewrite Eed. apply Forall_insert; [done|done].
Qed.

Section SamplePhase.
Context {Walker : Type} {Tr : Transform} {Acc : Accumulator Walker}
        {Dyn : Dynamics Walker} {Smp : Sampling Walker} {Num : Numerics}.
Implicit Types (st : driver_state Walker Rng).

(** The calls to the samplers only ever grow. *)
Definition trace_extends st st' : Prop :=
  exists new, ds_trace st' = ds_trace st ++ new.

Lemma trace_extends_refl st : trace_extends st st.
Proof. exists []. by rewrite app_nil_r. Qed.

Lemma trace_extends_trans st1 st2 st3 :
  trace_extends st1 st2 -> trace_extends st2 st3 -> trace_extends st1 st3.
Proof. intros [n1 H1] [n2 H2]. exists (n1 ++ n2). by rewrite H2, H1, app_assoc. Qed.

Lemma evaluate_pair_trace i st r st' :
  evaluate_pair i st = (r, st') ->
  match r with
  | inr _ => ds_trace st' = ds_trace st ++ [Sampled i]
  | inl _ => st' = st
  end.
Proof.
  unfold evaluate_pair. rewrite M_bind_run. unfold get at 1. rewrite M_bind_run.
  destruct (ds_wfs st !! i); simpl; [|by intros [= <- <-]]. rewrite M_bind_run.
  destruct (last (ds_wfs st)); simpl; [|by intros [= <- <-]]. rewrite M_bind_run.
  destruct (ds_allcoords st !! i); simpl; [|by intros [= <- <-]].
  destruct (evaluate _ _ _) as [[bundle coords'] rng']. rewrite M_bind_run.
  unfold put at 1. by intros [= <- <-].
Qed.

Lemma renormalize_trace N st : ds_trace (renormalize N st).2 = ds_trace st.
Proof.
  unfold renormalize. rewrite M_bind_run. unfold get at 1. rewrite M_bind_run.
  destruct (last (ds_wfs st)); simpl; [|done]. rewrite M_bind_run.
  by destruct (parameters _ !! _).
Qed.

(** A round of the renormalization loop that returns has sampled the first
    reference. *)
Lemma renormalize_loop_trace fuel Ntarget Ntol : forall st res st',
  renormalize_loop fuel Ntarget Ntol st = (inr res, st') ->
  exists new, ds_trace st' = ds_trace st ++ Sampled 0 :: new.
Proof.
  induction fuel as [|fuel IH]; intros st res st'; [done|]. simpl.
  rewrite M_bind_run. destruct (evaluate_pair 0 st) as [[e|tmp] st1] eqn:Hev; [done|].
  apply evaluate_pair_trace in Hev. rewrite M_bind_run.
  destruct (last (ev_N tmp)) as [N|]; simpl; [|done].
  destruct (bool_decide _).
  - intros [= <- <-]. exists []. done.
  - rewrite M_bind_run. pose proof (renormalize_trace N st1) as Hre.
    destruct (renormalize N st1) as [[e|[]] st2]; [done|]. simpl in Hre.
    intros Hloop. destruct (IH _ _ _ Hloop) as [new Hnew].
    exists (Sampled 0 :: new). rewrite Hnew, Hre, Hev, <- app_assoc. done.
Qed.

Lemma accumulate_references_spec nref n indices : forall acc st acc' st',
  accumulate_references nref indices acc st = (inr acc', st') ->
  acc_fits n acc -> acc_fits n acc' /\ trace_extends st st'.
Proof.
  induction indices as [|i indices IH]; intros acc st acc' st'; simpl.
  - intros [= <- <-] Hfit. split; [done|apply trace_extends_refl].
  - rewrite M_bind_run. destruct (evaluate_pair i st) as [[e|b] st1] eqn:Hev; [done|].
    apply evaluate_pair_trace in Hev. rewrite M_bind_run.
    destruct (add_bundle nref i b acc) as [e|acc1] eqn:Hadd; simpl; [done|].
    intros Hrest Hfit. destruct (IH _ _ _ _ Hrest (add_bundle_fits n _ _ _ _ _ Hadd Hfit))
      as [Hfit' Htr].
    split; [done|]. eapply trace_extends_trans; [|exact Htr]. by exists [Sampled i].
Qed.

(** When the sampling phase returns, its arrays fit the number of
    references and the first reference has been sampled. *)
Lemma sample_phase_spec fuel opts st acc st' :
  sample_phase fuel opts st = (inr acc, st') ->
  acc_fits (length (ds_wfs st) - 1) acc /\
  exists new, ds_trace st' = ds_trace st ++ Sampled 0 :: new.
Proof.
  unfold sample_phase. rewrite M_bind_run. unfold get at 1. rewrite M_bind_run.
  destruct (renormalize_loop fuel _ _ st) as [[e|[tmp N]] st1] eqn:Hloop; [done|].
  apply renormalize_loop_trace in Hloop as [new1 Hnew1]. rewrite M_bind_run.
  destruct (add_bundle _ 0 tmp _) as [e|acc1] eqn:Hadd; simpl; [done|].
  intros Hrest.
  apply (add_bundle_fits (length (ds_wfs st) - 1)) in Hadd.
  2:{ unfold acc_fits. simpl. rewrite !length_replicate. split; [done|]. split; [done|].
      apply Forall_replicate. by rewrite length_replicate. }
  apply (accumulate_references_spec _ (length (ds_wfs st) - 1)) in Hrest
    as [Hfit [new2 Hnew2]]; [|exact Hadd].
  split; [done|]. exists (new1 ++ new2). rewrite Hnew2, Hnew1, <- app_assoc. done.
Qed.

(** C9, as the code has it.  Entry does not look at [Starget] and
    [forcing]: it returns for every list of wavefunctions that has an active
    one, before any call to a sampler.  Their lengths first matter in
    gradient assembly, after the sampling phase of the iteration: once that
    phase has returned (having sampled at least the first reference),
    [ValueError] is raised exactly when the lengths do not broadcast against
    the number of references, and the iteration goes on otherwise. *)
Theorem lengths_met_at_assembly fuel opts st acc st1 (f s : vec) :
  opt_forcing opts = Array1 f -> opt_Starget opts = Array1 s ->
  sample_phase fuel opts st = (inr acc, st1) ->
  let nref := (length (ds_wfs st) - 1)%nat in
  (forall wfs coords rng hdf_file, is_Some (last wfs) ->
     exists st0, optimize_entry wfs coords rng hdf_file = inr st0 /\ ds_trace st0 = []) /\
  (exists new, ds_trace st1 = ds_trace st ++ Sampled 0 :: new) /\
  (~ lengths_broadcast nref (length f) (length s) ->
   iteration_front fuel opts st = (inl ValueError, st1)) /\
  (lengths_broadcast nref (length f) (length s) ->
   exists total_derivative, iteration_front fuel opts st = (inr (acc, total_derivative), st1)).
Proof.
  intros Hf Hs Hphase nref.
  destruct (sample_phase_spec _ _ _ _ _ Hphase) as [(Ho & Hd & Hrows) Htrace].
  split; [|split; [done|]].
  - intros wfs coords rng hdf_file [active Ha]. unfold optimize_entry. rewrite Ha.
    by eexists.
  - destruct (gradient_assembly_spec f s acc Hrows) as [Hgood Hbad]; [by rewrite Hd, Ho|].
    rewrite Ho in Hgood, Hbad. fold nref in Hgood, Hbad.
    unfold iteration_front. rewrite M_bind_run, Hphase, Hf, Hs. split.
    + intros Hno. rewrite M_bind_run, (Hbad Hno). done.
    + intros Hyes. destruct (Hgood Hyes) as [td Htd]. exists td.
      rewrite M_bind_run, Htd. done.
Qed.
End SamplePhase.

(** ** The driver on the concrete collaborators *)

Lemma ex_entry3 :
  optimize_entry (Tr := ex_transform) (Dyn := ex_dynamics)
                 [ex_reference; ex_reference; ex_active] [()] () None
  = inr ex_driver3.
Proof. reflexivity. Qed.

Lemma ex_within_tolerance : Rabs (1/2 - 1/2) < 5/100.
Proof. replace (1/2 - 1/2) with 0 by lra. rewrite Rabs_R0. lra. Qed.

Lemma ex_sample_phase3 (Starget forcing : vec) (wb : R) :
  exists acc st1,
    sample_phase (Tr := ex_transform) (Smp := ex_sampling) 1
                 (ex_options Starget forcing wb) ex_driver3 = (inr acc, st1) /\
    ds_trace st1 = [Sampled 0; Sampled 1].
Proof.
  unfold sample_phase, renormalize_loop, evaluate_pair. run_M.
  rewrite (bool_decide_eq_true_2 _ ex_within_tolerance). run_M.
  by eexists _, _.
Qed.

Lemma ex_lengths_3_2 : ~ lengths_broadcast 2 3 2.
Proof.
  intros (m1 & m2 & H1 & H2 & _). vm_compute in H1. injection H1 as <-.
  vm_compute in H2. discriminate.
Qed.

Lemma lengths_met_at_assembly_witness :
  exists st1,
    iteration_front (Tr := ex_transform) (Smp := ex_sampling) 1
                    (ex_options [0; 0] [10; 10; 10] (3/10)) ex_driver3
    = (inl ValueError, st1) /\
    exists new, ds_trace st1 = ds_trace ex_driver3 ++ Sampled 0 :: new.
Proof.
  destruct (ex_sample_phase3 [0; 0] [10; 10; 10] (3/10)) as (acc & st1 & Hphase & _).
  destruct (lengths_met_at_assembly (Tr := ex_transform) (Smp := ex_sampling) 1
              (ex_options [0; 0] [10; 10; 10] (3/10)) ex_driver3 acc st1
              [10; 10; 10] [0; 0] eq_refl eq_refl Hphase)
    as (_ & Htrace & Hbad & _).
  exists st1. split; [|exact Htrace]. apply Hbad. apply ex_lengths_3_2.
Defined.

(** C9 as the specification words it fails on the example with two
    references.  With a [forcing] of three entries the driver does raise,
    but from gradient assembly, after both references have been sampled;
    with a [forcing] of one entry the first part of the iteration raises
    nothing; and with [max_iterations = 0] the driver returns whatever the
    lengths. *)
Lemma lengths_not_checked_on_entry :
  (exists st1,
     optimize_orthogonal (Tr := ex_transform) (Acc := ex_accumulator)
                         (Smp := ex_sampling) (Num := ex_numerics) 1
                         (ex_options [0; 0] [10; 10; 10] (3/10))
                         [ex_reference; ex_reference; ex_active] [()] () None
     = (inl ValueError, Some st1) /\
     ds_trace st1 = [Sampled 0; Sampled 1]) /\
  (exists res st1,
     iteration_front (Tr := ex_transform) (Smp := ex_sampling) 1
                     (ex_options [0; 0] [10] (3/10)) ex_driver3
     = (inr res, st1)) /\
  (exists st1,
     optimize_orthogonal (Tr := ex_transform) (Acc := ex_accumulator)
                         (Smp := ex_sampling) (Num := ex_numerics) 1
                         (Options (Array1 [0; 0]) (Array1 [10; 10; 10]) (1/10) 0 (1/2) 10 0
                                  (5/100) (3/10))
                         [ex_reference; ex_reference; ex_active] [()] () None
     = (inr (), Some st1)).
Proof.
  split; [|split].
  - unfold optimize_orthogonal. rewrite ex_entry3.
    unfold ex_options, opt_max_iterations. simpl seq. simpl for_each.
    rewrite M_bind_run. unfold iteration at 1. rewrite M_bind_run.
    unfold iteration_front, sample_phase, renormalize_loop, evaluate_pair. run_M.
    rewrite (bool_decide_eq_true_2 _ ex_within_tolerance). run_M.
    by eexists.
  - unfold iteration_front, sample_phase, renormalize_loop, evaluate_pair. run_M.
    rewrite (bool_decide_eq_true_2 _ ex_within_tolerance). run_M.
    by eexists _, _.
  - unfold optimize_orthogonal. rewrite ex_entry3. simpl. by eexists.
Qed.

(** ** A line search that keeps no candidate *)

Lemma mapM_inr_map {A B} (f : A -> error + B) (g : A -> B) (l : list A) :
  (forall x, f x = inr (g x)) -> mapM f l = inr (map g l).
Proof.
  intros Hf. induction l as [|x l IH]; [done|].
  simpl. rewrite Hf, bind_inr, IH, bind_inr. done.
Qed.

Lemma mapM_first_entry (rows : matrix) :
  Forall (fun ov => ov <> []) rows ->
  exists xs, mapM first_entry rows = inr xs /\ length xs = length rows.
Proof.
  induction 1 as [|ov rows Hov _ (xs & IH & Hlen)]; [by exists []|].
  destruct ov as [|x ov]; [done|].
  exists (x :: xs). simpl. rewrite IH. simpl. by rewrite Hlen.
Qed.

Lemma length_linspace (a b : R) (n : nat) : length (linspace a b n) = n.
Proof. unfold linspace. by rewrite length_map, length_seq. Qed.

(** With one reference, and [forcing] and [Starget] of one entry each, the
    fit returns, and what it keeps is what the mask of the one row of
    weights keeps. *)
Lemma line_fit_single (opts : options) (tsteps : vec) (d : corr_data) (f s : R) :
  opt_forcing opts = Array1 [f] ->
  opt_Starget opts = Array1 [s] ->
  length (data_total d) = length tsteps ->
  length (data_weight d) = length tsteps ->
  length (data_overlap d) = length tsteps ->
  Forall (fun ov => ov <> []) (data_overlap d) ->
  exists ls,
    line_fit opts tsteps [d] = inr ls /\
    line_xfit ls
    = select (map (mask_entry (opt_weight_boundaries opts)) (data_weight d)) tsteps.
Proof.
  intros Hf Hs Ht Hw Ho Hne.
  destruct (mapM_first_entry _ Hne) as (xs & Hxs & Hlen).
  unfold line_fit. simpl. rewrite Hxs. simpl. rewrite Hf, Hs. simpl.
  destruct (vadd_same_length
              (mean_axis0 (length tsteps) [data_total d])
              (zip_with Rplus
                 (map (Rmult f) (map (fun x : R => x * (x * 1)) (map (fun x : R => x - s) xs)))
                 (replicate (length tsteps) 0))) as (cost & Hcost & Hlc).
  { unfold mean_axis0, sum_axis0. simpl.
    rewrite length_map, !length_zip_with, !length_map, !length_replicate. lia. }
  rewrite Hcost. simpl.
  assert (Hcl : length cost = length tsteps).
  { rewrite Hlc. unfold mean_axis0, sum_axis0. simpl.
    rewrite length_map, length_zip_with, length_replicate. lia. }
  unfold boolean_index, line_mask. simpl.
  rewrite !decide_True by (rewrite length_map; lia). simpl.
  eexists. split; reflexivity.
Qed.

Lemma active_after_amplitude {Walker} {Tr : Transform} (configs : list Walker)
    (a : wavefunction Walker) (cands : list vec) :
  amplitude (active_after configs a cands) = amplitude a.
Proof.
  unfold active_after. revert a.
  induction cands as [|c cs IH]; intros a; [done|].
  simpl. by rewrite IH.
Qed.

(** On the concrete collaborators every candidate evaluates, and every
    candidate has weight 1/2. *)
Lemma ex_candidates_ok_all (cands : list vec) (a : wavefunction unit) :
  amplitude a = ex_amplitude ->
  candidates_ok (Tr := ex_transform) (Acc := ex_accumulator) [()] a cands.
Proof.
  revert a. induction cands as [|c cs IH]; intros a Ha; [done|].
  simpl. split; [|split].
  - unfold eval_at. simpl. rewrite Ha. by eexists.
  - by eexists.
  - by apply IH.
Qed.

Lemma ex_weight_any (cand : wavefunction unit) :
  amplitude cand = ex_amplitude ->
  mean (map (spec_wt ex_wfs cand) [()]) / mean (map (spec_rhoprime 0 ex_wfs cand) [()])
  = 1 / 2.
Proof.
  intros Ha.
  unfold mean, spec_wt, spec_rhoprime, spec_denominator, logmag_at, amp.
  simpl. rewrite Ha. simpl. rewrite !exp_eq_1 by lra. lra.
Qed.

Lemma ex_mask_entry : mask_entry (6/10) (1/2) = false.
Proof.
  unfold mask_entry. rewrite bool_decide_eq_false_2; [done|].
  replace (1/2 - 1) with (- (1/2)) by lra.
  rewrite Rabs_Ropp, Rabs_pos_eq by lra. lra.
Qed.

Lemma ex_line_search :
  exists ls st1,
    line_search (Tr := ex_transform) (Acc := ex_accumulator) (Dyn := ex_dynamics)
                (Num := ex_numerics)
                (ex_options [0] [10] (6/10)) [1] [[0]] ex_driver2
    = (inr ls, st1) /\
    line_xfit ls = [].
Proof.
  remember (linspace (- (1/10)) (1/10) 21) as tsteps eqn:Ets.
  remember (map (fun x : R => [0 + - x * 1]) tsteps) as tp eqn:Etp.
  destruct (correlated_sample_ok (Tr := ex_transform) (Acc := ex_accumulator)
              [()] [ex_reference] ex_active tp ltac:(done) ex_base_ok
              (ex_candidates_ok_all tp (recomputed [()] ex_active) eq_refl))
    as (ref & rows & Href & Hrun & Hlen & Hrows).
  fold ex_wfs in Href, Hrun, Hrows.
  rewrite ex_spec_ref in Href. injection Href as <-.
  set (d := CorrData _ _ _ _ _) in Hrun.
  assert (Hlt : length tp = length tsteps) by (rewrite Etp; apply length_map).
  assert (Hrow : forall p row, rows !! p = Some row ->
            row_weight row = 1 / 2 /\ row_overlap row <> []).
  { intros p row Hp.
    destruct (Hrows p) as (E & _ & Hr).
    { rewrite <- Hlen. by apply lookup_lt_Some in Hp. }
    rewrite Hr in Hp. injection Hp as <-. simpl. split; [|done].
    apply ex_weight_any. by rewrite active_after_amplitude. }
  destruct (line_fit_single (ex_options [0] [10] (6/10)) tsteps d 10 0 eq_refl eq_refl)
    as (ls & Hfit & Hx).
  { subst d. simpl. rewrite length_map. lia. }
  { subst d. simpl. rewrite length_map. lia. }
  { subst d. simpl. rewrite length_map. lia. }
  { subst d. simpl. apply Forall_fmap, Forall_lookup. intros p row Hp.
    by destruct (Hrow p row Hp). }
  assert (Hempty : line_xfit ls = []).
  { rewrite Hx. apply select_nil_iff.
    - subst d. simpl. rewrite !length_map. lia.
    - subst d. simpl. apply Forall_fmap, Forall_fmap, Forall_lookup. intros p row Hp.
      simpl. destruct (Hrow p row Hp) as [-> _]. apply ex_mask_entry. }
  exists ls. eexists. split; [|exact Hempty].
  unfold line_search. rewrite M_bind_run. unfold get at 1. rewrite M_bind_run.
  change (opt_tstep (ex_options [0] [10] (6/10))) with (1/10). rewrite <- Ets.
  rewrite (mapM_inr_map _ (fun x : R => [0 + - x * 1])) by (intros x; reflexivity).
  rewrite <- Etp. unfold lift_result at 1.
  change (zip (seq 0 (length (ds_wfs ex_driver2))) (ds_allcoords ex_driver2))
    with [(0%nat, [()])].
  run_M. unfold correlated_pair. run_M.
  change [ex_reference; ex_active] with ex_wfs. rewrite Hrun.
  unfold lift_result at 1. cbv beta iota. run_M.
  rewrite Hfit. reflexivity.
Qed.


(* ===================================================================== *)
(** * Part III.  Further properties of the code                           *)
(* ===================================================================== *)

(** ** The step between conditioning and the line search *)


Lemma length_project (t n : vec) : length t = length n -> length (project t n) = length t.
Proof.
  intros Hl. unfold project. case_bool_decide; [|done].
  rewrite length_zip_with. lia.
Qed.

Lemma project_dot_zero (t n : vec) :
  length t = length n -> norm n > 1e-8 -> dot (project t n) n = 0.
Proof.
  intros Hl Hn. unfold project. rewrite bool_decide_eq_true_2 by done.
  rewrite dot_project_l by done. rewrite norm_sq.
  assert (Hpos : dot n n <> 0).
  { pose proof (norm_sq n) as Hsq. intros H0. rewrite H0 in Hsq.
    assert (norm n = 0) by nra. lra. }
  field. done.
Qed.




Lemma zip_with_sub_zero (d : R) (p n : vec) :
  length p = length n -> zip_with (fun a b => a - 0 * b / d) p n = p.
Proof.
  revert n. induction p as [|a p IH]; intros [|b n] Hl; simplify_eq/=; [done|].
  f_equal; [lra|]. by apply IH.
Qed.

(** Projecting twice is projecting once (lines 574-579): the projected step
    has no component left along the derivative of the normalization. *)
Theorem project_idempotent (t n : vec) :
  length t = length n -> project (project t n) n = project t n.
Proof.
  intros Hl. destruct (decide (norm n > 1e-8)) as [Hn|Hn].
  - pose proof (project_dot_zero t n Hl Hn) as H0.
    pose proof (length_project t n Hl) as Hlp.
    unfold project at 1. rewrite bool_decide_eq_true_2 by done. rewrite H0.
    apply zip_with_sub_zero. lia.
  - unfold project. by rewrite !bool_decide_eq_false_2.
Qed.

Lemma project_idempotent_witness :
  project (project [3; 4] [0; 1]) [0; 1] = project [3; 4] [0; 1].
Proof. apply project_idempotent. reflexivity. Defined.

(** ** The weights of the mixture density

    Both samplers weigh wavefunction [i] at a walker by
    [1 / sum_m exp(-2 (logmag_i - logmag_m))], the share of [|Psi_i|^2] in
    the density [rho = sum_m |Psi_m|^2]. *)

Lemma vsum_map_scale {A} (c : R) (f : A -> R) (l : list A) :
  vsum (map (fun x => c * f x) l) = c * vsum (map f l).
Proof. induction l as [|x l IH]; simpl; [lra|]. rewrite IH. lra. Qed.

Lemma vsum_map_plus {A} (f g : A -> R) (l : list A) :
  vsum (map (fun x => f x + g x) l) = vsum (map f l) + vsum (map g l).
Proof. induction l as [|x l IH]; simpl; [lra|]. rewrite IH. lra. Qed.

Lemma vsum_map_zero {A} (l : list A) : vsum (map (fun _ => 0) l) = 0.
Proof. induction l as [|x l IH]; simpl; [done|]. rewrite IH. lra. Qed.

Lemma vsum_swap {A B} (f : A -> B -> R) (la : list A) (lb : list B) :
  vsum (map (fun a => vsum (map (f a) lb)) la)
  = vsum (map (fun b => vsum (map (fun a => f a b) la)) lb).
Proof.
  induction la as [|a la IH]; simpl.
  - by rewrite vsum_map_zero.
  - rewrite IH. symmetry. apply (vsum_map_plus (f a)).
Qed.

Lemma vsum_map_one {A} (l : list A) : vsum (map (fun _ => 1) l) = INR (length l).
Proof.
  induction l as [|x l IH]; [done|].
  cbn [map vsum foldr length]. fold (vsum (map (fun _ : A => 1) l)).
  rewrite IH, S_INR. lra.
Qed.

Lemma vsum_map_ext_in {A} (f g : A -> R) (l : list A) :
  (forall x, x ∈ l -> f x = g x) -> vsum (map f l) = vsum (map g l).
Proof.
  intros H. f_equal. apply map_ext_in. intros x Hx. apply H.
  by apply list_elem_of_In.
Qed.

(** The shares of the wavefunctions in the density add up to one. *)
Lemma shares_sum_to_one {A} (g : A -> R) (l : list A) :
  l <> [] ->
  vsum (map (fun a => 1 / vsum (map (fun b => exp (- 2 * (g a - g b))) l)) l) = 1.
Proof.
  intros Hne.
  set (T := vsum (map (fun b => exp (2 * g b)) l)).
  assert (HT : 0 < T) by (apply vsum_pos_map; [done|]; intros; apply exp_pos).
  rewrite (vsum_map_ext_in _ (fun a => / T * exp (2 * g a))).
  - rewrite vsum_map_scale. fold T. field. lra.
  - intros a _.
    rewrite (vsum_map_ext_in _ (fun b => exp (- 2 * g a) * exp (2 * g b))).
    + rewrite vsum_map_scale. fold T.
      replace (2 * g a) with (- (- 2 * g a)) by lra. rewrite exp_Ropp.
      pose proof (exp_pos (- 2 * g a)). field. split; lra.
    + intros b _. rewrite <- exp_plus. f_equal. lra.
Qed.

Lemma vsum_map_mean {A B} (f : A -> B -> R) (js : list A) (ws : list B) :
  vsum (map (fun j => mean (map (f j) ws)) js)
  = mean (map (fun w => vsum (map (fun j => f j w) js)) ws).
Proof.
  rewrite (vsum_map_ext_in _ (fun j => vsum (map (f j) ws) / INR (length ws)))
    by (intros; unfold mean; by rewrite length_map).
  rewrite (vsum_map_div (fun j => vsum (map (f j) ws))).
  unfold mean. by rewrite vsum_swap, length_map.
Qed.

Section Shares.
Context {Walker : Type}.

Lemma spec_base_weight_sum (configs : list Walker) (wfs : list (wavefunction Walker)) :
  configs <> [] -> wfs <> [] ->
  vsum (map (spec_base_weight configs wfs) wfs) = 1.
Proof.
  intros Hc Hw. unfold spec_base_weight.
  rewrite (vsum_map_mean
             (fun wf w => 1 / vsum (map (fun wm => exp (- 2 * (logmag_at wf (parameters wf) w
                                                              - logmag_at wm (parameters wm) w)))
                                        wfs))).
  rewrite (map_ext _ (fun _ => 1)).
  - unfold mean. rewrite vsum_map_one, length_map.
    field. apply not_0_INR. by destruct configs.
  - intros w. apply (shares_sum_to_one (fun wf => logmag_at wf (parameters wf) w)). done.
Qed.
End Shares.

(** ** The correlated sampler: [rhoprime], [weight] and [base_weight] *)

Section CorrelatedExtras.
Context {Walker : Type} {Tr : Transform} {Acc : Accumulator Walker}.

(** The shift by [ref] (line 242) cancels in [rhoprime]. *)
Lemma spec_rhoprime_density (ref : R) (wfs : list (wavefunction Walker))
    (cand : wavefunction Walker) (w : Walker) :
  wfs <> [] -> spec_rhoprime ref wfs cand w = density_ratio wfs cand w.
Proof.
  intros Hne. unfold spec_rhoprime, spec_denominator, density_ratio.
  set (T := vsum (map (fun wf => exp (2 * logmag_at wf (parameters wf) w)) wfs)).
  assert (HT : 0 < T) by (apply vsum_pos_map; [done|]; intros; apply exp_pos).
  rewrite (vsum_map_ext_in _ (fun wf => exp (- 2 * ref)
                                       * exp (2 * logmag_at wf (parameters wf) w))
                           (removelast wfs))
    by (intros; rewrite <- exp_plus; f_equal; lra).
  rewrite (vsum_map_ext_in _ (fun wf => exp (- 2 * ref)
                                       * exp (2 * logmag_at wf (parameters wf) w)) wfs)
    by (intros; rewrite <- exp_plus; f_equal; lra).
  rewrite !vsum_map_scale. fold T.
  replace (exp (2 * logmag_at cand (parameters cand) w - 2 * ref))
    with (exp (- 2 * ref) * exp (2 * logmag_at cand (parameters cand) w))
    by (rewrite <- exp_plus; f_equal; lra).
  pose proof (exp_pos (- 2 * ref)). field. split; lra.
Qed.

(** What [correlated_sample] returns under ["rhoprime"] and ["weight"]
    (lines 274-283): for candidate [p], the walker mean of [rho' / rho], and
    the walker mean of the reweighting factor [wt] divided by it. *)
Theorem correlated_sample_weight configs refs act cands :
  configs <> [] ->
  Forall (fun wf => is_Some (eval_at wf (parameters wf) configs)) (refs ++ [act]) ->
  candidates_ok configs (recomputed configs act) cands ->
  exists data wfs',
    correlated_sample configs cands (refs ++ [act]) = (inr data, wfs') /\
    forall p, (p < length cands)%nat ->
      let cand := active_after configs (recomputed configs act) (take (S p) cands) in
      data_rhoprime data !! p
      = Some (mean (map (density_ratio (refs ++ [act]) cand) configs)) /\
      data_weight data !! p
      = Some (mean (map (spec_wt (refs ++ [act]) cand) configs)
              / mean (map (density_ratio (refs ++ [act]) cand) configs)).
Proof.
  intros Hc Hbase Hcands.
  destruct (correlated_sample_ok configs refs act cands Hc Hbase Hcands)
    as (ref & rows & Href & Hrun & Hlen & Hrows).
  eexists _, _. split; [exact Hrun|]. simpl.
  intros p Hp. destruct (Hrows p Hp) as (E & _ & Hr).
  rewrite !list_lookup_fmap, Hr. simpl.
  assert (Hne : refs ++ [act] <> []) by (by destruct refs).
  rewrite (map_ext _ _ (fun w => spec_rhoprime_density ref _ _ w Hne)).
  done.
Qed.

(** The baseline weights returned under ["base_weight"] (lines 246-252) add
    up to one. *)
Theorem base_weight_sums_to_one configs refs act cands :
  configs <> [] ->
  Forall (fun wf => is_Some (eval_at wf (parameters wf) configs)) (refs ++ [act]) ->
  candidates_ok configs (recomputed configs act) cands ->
  exists data wfs',
    correlated_sample configs cands (refs ++ [act]) = (inr data, wfs') /\
    length (data_base_weight data) = length (refs ++ [act]) /\
    vsum (data_base_weight data) = 1.
Proof.
  intros Hc Hbase Hcands.
  destruct (correlated_sample_ok configs refs act cands Hc Hbase Hcands)
    as (ref & rows & Href & Hrun & Hlen & Hrows).
  eexists _, _. split; [exact Hrun|]. simpl. split; [by rewrite length_map|].
  apply spec_base_weight_sum; [done|]. by destruct refs.
Qed.
End CorrelatedExtras.

Lemma correlated_sample_weight_witness :
  exists data wfs',
    correlated_sample (Tr := ex_transform) (Acc := ex_accumulator) [()] [[1]] ex_wfs
    = (inr data, wfs') /\
    data_rhoprime data !! 0%nat
    = Some (mean (map (density_ratio ex_wfs ex_candidate) [()])) /\
    data_weight data !! 0%nat
    = Some (mean (map (spec_wt ex_wfs ex_candidate) [()])
            / mean (map (density_ratio ex_wfs ex_candidate) [()])).
Proof.
  destruct (correlated_sample_weight (Tr := ex_transform) (Acc := ex_accumulator)
              [()] [ex_reference] ex_active [[1]] ltac:(done) ex_base_ok ex_candidates_ok)
    as (data & wfs' & Hrun & Hrows).
  exists data, wfs'. split; [exact Hrun|].
  apply (Hrows 0%nat). simpl. lia.
Defined.

Lemma base_weight_sums_to_one_witness :
  exists data wfs',
    correlated_sample (Tr := ex_transform) (Acc := ex_accumulator) [()] [[1]] ex_wfs
    = (inr data, wfs') /\
    length (data_base_weight data) = 2%nat /\
    vsum (data_base_weight data) = 1.
Proof.
  exact (base_weight_sums_to_one (Tr := ex_transform) (Acc := ex_accumulator)
           [()] [ex_reference] ex_active [[1]] ltac:(done) ex_base_ok ex_candidates_ok).
Defined.

(** ** The correlated sampler: a candidate that changes nothing, and an
       empty ensemble *)

Section CorrelatedEdge.
Context {Walker : Type} {Tr : Transform} {Acc : Accumulator Walker}.

Lemma mean_map_one {A} (l : list A) : l <> [] -> mean (map (fun _ => 1) l) = 1.
Proof.
  intros Hne. unfold mean. rewrite vsum_map_one, length_map.
  field. apply not_0_INR. by destruct l.
Qed.

Lemma density_ratio_unchanged (refs : list (wavefunction Walker))
    (act cand : wavefunction Walker) (w : Walker) :
  logmag_at cand (parameters cand) w = logmag_at act (parameters act) w ->
  density_ratio (refs ++ [act]) cand w = 1.
Proof.
  intros Heq. unfold density_ratio.
  rewrite removelast_last, map_app, vsum_app, Heq. simpl.
  set (x := vsum (map _ refs)).
  assert (0 <= x).
  { subst x. clear. induction refs as [|r refs IH]; simpl; [lra|].
    pose proof (exp_pos (2 * logmag_at r (parameters r) w)). lra. }
  pose proof (exp_pos (2 * logmag_at act (parameters act) w)).
  field. lra.
Qed.

(** A candidate that leaves the parameters of the active wavefunction as
    they were on entry is sampled from its own density: its [rhoprime] is 1
    and its [weight] is the baseline weight of the active wavefunction, the
    last entry of [base_weight]. *)
Theorem unchanged_candidate configs refs act cands p :
  configs <> [] ->
  Forall (fun wf => is_Some (eval_at wf (parameters wf) configs)) (refs ++ [act]) ->
  candidates_ok configs (recomputed configs act) cands ->
  (p < length cands)%nat ->
  parameters (active_after configs (recomputed configs act) (take (S p) cands))
  = parameters act ->
  exists data wfs',
    correlated_sample configs cands (refs ++ [act]) = (inr data, wfs') /\
    data_rhoprime data !! p = Some 1 /\
    data_weight data !! p = last (data_base_weight data).
Proof.
  intros Hc Hbase Hcands Hp Hpar.
  destruct (correlated_sample_ok configs refs act cands Hc Hbase Hcands)
    as (ref & rows & Href & Hrun & Hlen & Hrows).
  eexists _, _. split; [exact Hrun|]. simpl.
  destruct (Hrows p Hp) as (E & _ & Hr).
  set (cand := active_after configs (recomputed configs act) (take (S p) cands)) in *.
  assert (Hne : refs ++ [act] <> []) by (by destruct refs).
  assert (Hlog : forall w, logmag_at cand (parameters cand) w
                           = logmag_at act (parameters act) w).
  { intros w. unfold logmag_at, amp. rewrite Hpar. subst cand.
    by rewrite active_after_amplitude. }
  assert (Hrho : mean (map (spec_rhoprime ref (refs ++ [act]) cand) configs) = 1).
  { rewrite (map_ext _ (fun _ => 1)); [by apply mean_map_one|].
    intros w. rewrite spec_rhoprime_density by done.
    by apply density_ratio_unchanged. }
  rewrite !list_lookup_fmap, Hr. simpl. rewrite Hrho. split; [done|].
  rewrite map_app. cbn [map]. rewrite last_snoc. f_equal.
  unfold spec_base_weight. rewrite Rdiv_1_r. f_equal.
  apply map_ext. intros w. unfold spec_wt. f_equal.
  apply vsum_map_ext_in. intros wm _. rewrite Hlog. f_equal. lra.
Qed.

Lemma concat_map_nil {A B} (l : list A) : concat (map (fun _ => @nil B) l) = [].
Proof. induction l; simpl; done. Qed.

(** With no walker at all, [np.max] of line 242 has nothing to reduce:
    [correlated_sample] raises [ValueError] before any candidate is
    installed, and every wavefunction keeps its parameters. *)
Theorem correlated_sample_empty_ensemble cands (wfs : list (wavefunction Walker)) :
  wfs <> [] ->
  exists wfs',
    correlated_sample [] cands wfs = (inl ValueError, wfs') /\
    map parameters wfs' = map parameters wfs.
Proof.
  intros Hne.
  destruct (last wfs) as [act|] eqn:Hlast; [|by apply last_None in Hlast].
  exists (map (recomputed []) wfs). split.
  - unfold correlated_sample. rewrite M_bind_run. unfold get at 1.
    rewrite Hlast. rewrite M_bind_run. unfold lift at 1, mret, M_ret.
    rewrite M_bind_run.
    rewrite recompute_all_ok by (apply Forall_forall; intros; by eexists).
    rewrite M_bind_run. unfold get at 1. rewrite M_bind_run.
    replace (vmax (concat (map snd (map value (map (recomputed []) wfs))))) with (@None R).
    + reflexivity.
    + rewrite !map_map. simpl. by rewrite concat_map_nil.
  - rewrite map_map. by apply map_ext.
Qed.
End CorrelatedEdge.

Lemma ex_unchanged_parameters :
  parameters (active_after (Tr := ex_transform) [()] (recomputed [()] ex_active)
                           (take 1 [[0]]))
  = parameters ex_active.
Proof. simpl. apply map_union_idemp. Qed.

Lemma unchanged_candidate_witness :
  exists data wfs',
    correlated_sample (Tr := ex_transform) (Acc := ex_accumulator) [()] [[0]] ex_wfs
    = (inr data, wfs') /\
    data_rhoprime data !! 0%nat = Some 1 /\
    data_weight data !! 0%nat = last (data_base_weight data).
Proof.
  apply (unchanged_candidate (Tr := ex_transform) (Acc := ex_accumulator)
           [()] [ex_reference] ex_active [[0]] 0 ltac:(done) ex_base_ok
           (ex_candidates_ok_all [[0]] (recomputed [()] ex_active) eq_refl)).
  - simpl. lia.
  - exact ex_unchanged_parameters.
Defined.

Lemma correlated_sample_empty_ensemble_witness :
  exists wfs',
    correlated_sample (Tr := ex_transform) (Acc := ex_accumulator) [] [[1]] ex_wfs
    = (inl ValueError, wfs') /\
    map parameters wfs' = map parameters ex_wfs.
Proof.
  apply (correlated_sample_empty_ensemble (Tr := ex_transform) (Acc := ex_accumulator)).
  done.
Defined.

(** ** The overlap sampler: what one step saves *)

Lemma lookup_map2 {A B} (f : A -> A -> B) (l : list A) (i j : nat) :
  (map (fun a => map (f a) l) l !! i ≫= (.!! j))
  = (a ← l !! i; b ← l !! j; Some (f a b)).
Proof.
  rewrite list_lookup_fmap. destruct (l !! i) as [a|]; simpl; [|done].
  rewrite list_lookup_fmap. by destruct (l !! j).
Qed.

(** The overlap matrix a step saves (lines 102-106) is symmetric. *)
Theorem step_overlap_symmetric (normalized_values : matrix) (denominator : vec) (i j : nat) :
  (step_overlap normalized_values denominator !! i ≫= (.!! j))
  = (step_overlap normalized_values denominator !! j ≫= (.!! i)).
Proof.
  unfold step_overlap.
  rewrite !(lookup_map2 (fun ni nj => mean (zip_with Rdiv (zip_with Rmult ni nj) denominator))).
  destruct (normalized_values !! i) as [ni|], (normalized_values !! j) as [nj|]; simpl; try done.
  do 3 f_equal. clear. revert nj.
  induction ni as [|a ni IH]; intros [|b nj]; simpl; try done.
  f_equal; [lra|]. apply IH.
Qed.

Section SampleOverlapStep.
Context {Walker : Type} {Acc : Accumulator Walker} {Dyn : Dynamics Walker}.

Lemma mean_step_weight (nconf : nat) (log_values : list (vec * vec)) :
  map mean (step_weight nconf log_values) = base_weight nconf log_values.
Proof. unfold step_weight, base_weight. by rewrite map_map. Qed.

(** The weights a step saves under ["weight"] (lines 107-113 and 135), one
    per wavefunction, add up to one. *)
Theorem step_weight_sums_to_one (configs : list Walker) (wfs : list (wavefunction Walker))
    (wf : wavefunction Walker) (ref : vec) :
  configs <> [] -> wfs <> [] ->
  exists ws,
    step_stats configs (map (recomputed configs) wfs) wf ref !! "weight"%string
    = Some (nd_vector ws) /\
    length ws = length wfs /\
    vsum ws = 1.
Proof.
  intros Hc Hw. unfold step_stats. rewrite lookup_insert_eq.
  eexists. split; [reflexivity|].
  rewrite mean_step_weight. fold (baseline configs wfs). rewrite base_weight_spec.
  split; [by rewrite length_map|]. by apply spec_base_weight_sum.
Qed.

Lemma sampler_denominator_pos (wfs : list (wavefunction Walker)) (w : Walker) :
  wfs <> [] -> 0 < sampler_denominator wfs w.
Proof. intros Hne. apply vsum_pos_map; [done|]. intros. apply exp_pos. Qed.

Lemma sampler_overlap_diagonal (configs : list Walker) (wfs : list (wavefunction Walker))
    (wf : wavefunction Walker) :
  wfs <> [] ->
  (forall w, w ∈ configs -> phase_at wf (parameters wf) w ^ 2 = 1) ->
  sampler_overlap configs wfs wf wf = spec_base_weight configs wfs wf.
Proof.
  intros Hne Hphase. unfold sampler_overlap, spec_base_weight. f_equal.
  apply map_ext_in. intros w Hw. apply list_elem_of_In in Hw.
  pose proof (sampler_denominator_pos wfs w Hne) as HD.
  unfold sampler_normalized.
  set (a := logmag_at wf (parameters wf) w) in *.
  set (r := sampler_ref wfs w) in *.
  rewrite (vsum_map_ext_in _ (fun wm => exp (- 2 * (a - r))
                                       * exp (2 * (logmag_at wm (parameters wm) w - r))))
    by (intros; rewrite <- exp_plus; f_equal; lra).
  rewrite vsum_map_scale. fold (sampler_denominator wfs w).
  replace (phase_at wf (parameters wf) w * exp (a - r)
           * (phase_at wf (parameters wf) w * exp (a - r)))
    with (phase_at wf (parameters wf) w ^ 2 * (exp (a - r) * exp (a - r))) by ring.
  rewrite (Hphase w Hw), <- exp_plus.
  replace (- 2 * (a - r)) with (- (a - r + (a - r))) by lra.
  rewrite exp_Ropp. pose proof (exp_pos (a - r + (a - r))).
  unfold sampler_denominator in *. fold r in HD |- *.
  set (D := vsum _) in *. field. split; lra.
Qed.

(** For a wavefunction whose phase is a sign, the diagonal entry of the
    overlap matrix a step saves is the weight it saves for that
    wavefunction: [overlap[i, i] = weight[i]]. *)
Theorem overlap_diagonal_is_weight (configs : list Walker)
    (wfs : list (wavefunction Walker)) (i : nat) (wf : wavefunction Walker) :
  wfs !! i = Some wf ->
  (forall w, w ∈ configs -> phase_at wf (parameters wf) w ^ 2 = 1) ->
  let log_values := map value (map (recomputed configs) wfs) in
  let ref := map (sampler_ref wfs) configs in
  (step_overlap (step_normalized ref log_values)
                (step_denominator (length configs) ref log_values) !! i ≫= (.!! i))
  = map mean (step_weight (length configs) log_values) !! i.
Proof.
  intros Hi Hphase log_values ref. subst log_values ref.
  fold (baseline configs wfs).
  rewrite step_overlap_spec, mean_step_weight, base_weight_spec.
  rewrite (lookup_map2 (sampler_overlap configs wfs)), list_lookup_fmap, Hi. simpl.
  f_equal. apply sampler_overlap_diagonal; [|done].
  intros ->. done.
Qed.
End SampleOverlapStep.

Lemma step_weight_sums_to_one_witness :
  exists ws,
    step_stats (Acc := ex_accumulator) [()] (map (recomputed [()]) ex_wfs) ex_active [0]
      !! "weight"%string = Some (nd_vector ws) /\
    length ws = length ex_wfs /\
    vsum ws = 1.
Proof. apply (step_weight_sums_to_one (Acc := ex_accumulator)); done. Defined.

Lemma overlap_diagonal_is_weight_witness :
  let log_values := map value (map (recomputed [()]) ex_wfs) in
  let ref := map (sampler_ref ex_wfs) [()] in
  (step_overlap (step_normalized ref log_values)
                (step_denominator 1 ref log_values) !! 1%nat ≫= (.!! 1%nat))
  = map mean (step_weight 1 log_values) !! 1%nat.
Proof.
  apply (overlap_diagonal_is_weight [()] ex_wfs 1 ex_active); [reflexivity|].
  intros w _. unfold phase_at, amp. simpl. lra.
Defined.

(** ** The overlap sampler: the blocks it returns *)

Section SampleOverlapBlocks.
Context {Walker : Type} {Acc : Accumulator Walker} {Dyn : Dynamics Walker}.

(** With no block to run ([nblocks = 0], or [nsteps = 0], which overrides
    [nblocks]) the sampler returns an empty dictionary: the wavefunctions
    are recomputed, the walkers and the generator are left as they were. *)
Theorem sample_overlap_no_blocks (nblocks nsteps_per_block : nat) (nsteps : option nat)
    (st : sampler_state Walker Rng) :
  match nsteps with Some n => n | None => nblocks end = 0%nat ->
  Forall (fun wf => is_Some (eval_at wf (parameters wf) (st_configs st))) (st_wfs st) ->
  sample_overlap nblocks nsteps_per_block nsteps st
  = (inr ∅, SamplerState (map (recomputed (st_configs st)) (st_wfs st))
                         (st_configs st) (st_rng st)).
Proof.
  intros Hn Hok. unfold sample_overlap. rewrite Hn.
  rewrite M_bind_run. unfold get at 1.
  rewrite recompute_all_ok by done.
  rewrite M_bind_run. unfold put at 1. rewrite M_bind_run. unfold mret at 1, M_ret.
  rewrite M_bind_run. simpl. by rewrite fmap_empty.
Qed.

Lemma store_block_lookup nb b (rd : gmap string (list ndarray)) ba rd' (k : string) :
  store_block nb b rd ba = Some rd' ->
  rd' !! k = match ba !! k with
             | Some x => store_key nb b (rd !! k) x
             | None => rd !! k
             end.
Proof.
  unfold store_block. destruct (decide _) as [HF|]; [|done].
  intros [= <-]. rewrite lookup_omap, lookup_merge.
  destruct (ba !! k) as [x|] eqn:Es, (rd !! k) as [y|] eqn:Eb; simpl; done.
Qed.

Lemma store_key_length nb b (old : option (list ndarray)) it rows :
  store_key nb b old it = Some rows ->
  (forall r, old = Some r -> length r = nb) ->
  length rows = nb.
Proof.
  unfold store_key. destruct (decide _); [|done]. intros [= <-] Hold.
  rewrite length_insert. destruct old as [r|]; simpl; [by apply Hold|].
  by rewrite length_replicate.
Qed.

Lemma run_blocks_lengths blocks nb nspb : forall rd st rd' st',
  run_blocks blocks nb nspb rd st = (inr rd', st') ->
  (forall k rows, rd !! k = Some rows -> length rows = nb) ->
  forall k rows, rd' !! k = Some rows -> length rows = nb.
Proof.
  induction blocks as [|b blocks IH]; intros rd st rd' st' Hrun Hrd.
  - injection Hrun as <- _. done.
  - simpl in Hrun. rewrite M_bind_run in Hrun.
    destruct (run_block nspb st) as [[e|ba] st1]; [done|].
    rewrite M_bind_run in Hrun.
    destruct (store_block nb b rd ba) as [rd1|] eqn:Hst; simpl in Hrun; [|done].
    apply (IH _ _ _ _ Hrun). intros k rows Hk.
    rewrite (store_block_lookup _ _ _ _ _ k Hst) in Hk.
    destruct (ba !! k) as [x|].
    + apply (store_key_length _ _ _ _ _ Hk). intros r Hr. by apply (Hrd k).
    + by apply (Hrd k).
Qed.

(** Every array [sample_overlap] returns has the blocks as its first axis:
    its shape starts with the number of blocks, which is [nsteps] when that
    is given and [nblocks] otherwise. *)
Theorem sample_overlap_block_axis (nblocks nsteps_per_block : nat) (nsteps : option nat)
    (st st' : sampler_state Walker Rng) (return_data : gmap string ndarray) :
  sample_overlap nblocks nsteps_per_block nsteps st = (inr return_data, st') ->
  forall k a, return_data !! k = Some a ->
    exists rest, shape a = match nsteps with Some n => n | None => nblocks end :: rest.
Proof.
  unfold sample_overlap. intros Hrun k a Hk.
  rewrite M_bind_run in Hrun. unfold get at 1 in Hrun.
  destruct (recompute_all (st_configs st) (st_wfs st)) as [r wfs].
  rewrite M_bind_run in Hrun. unfold put at 1 in Hrun.
  rewrite M_bind_run in Hrun. destruct r as [e|[]]; [done|].
  unfold mret at 1, M_ret in Hrun. rewrite M_bind_run in Hrun.
  destruct (run_blocks _ _ _ _ _) as [[e|rd] st1] eqn:Hblocks; [done|].
  injection Hrun as <- _.
  rewrite lookup_fmap in Hk. destruct (rd !! k) as [rows|] eqn:Hrows; [|done].
  injection Hk as <-. unfold nd_stack. simpl. eexists. f_equal.
  apply (run_blocks_lengths _ _ _ _ _ _ _ Hblocks) with (k := k); [|done].
  intros k' rows'. by rewrite lookup_empty.
Qed.
End SampleOverlapBlocks.

Lemma sample_overlap_no_blocks_witness :
  sample_overlap (Acc := ex_accumulator) (Dyn := ex_dynamics) 10 10 (Some 0%nat) ex_state
  = (inr ∅, SamplerState (map (recomputed [()]) ex_wfs) [()] ()).
Proof.
  apply (sample_overlap_no_blocks (Acc := ex_accumulator) (Dyn := ex_dynamics)
           10 10 (Some 0%nat) ex_state eq_refl).
  exact ex_base_ok.
Defined.

Lemma ex_sample_overlap_returns :
  exists return_data st',
    sample_overlap (Acc := ex_accumulator) (Dyn := ex_dynamics) 2 1 None ex_state
    = (inr return_data, st') /\
    is_Some (return_data !! "overlap"%string).
Proof. eexists _, _. split; [vm_compute; reflexivity|]. vm_compute. by eexists. Qed.

Lemma sample_overlap_block_axis_witness :
  exists return_data st',
    sample_overlap (Acc := ex_accumulator) (Dyn := ex_dynamics) 2 1 None ex_state
    = (inr return_data, st') /\
    forall k a, return_data !! k = Some a -> exists rest, shape a = 2%nat :: rest.
Proof.
  destruct ex_sample_overlap_returns as (return_data & st' & Hrun & _).
  exists return_data, st'. split; [exact Hrun|].
  exact (sample_overlap_block_axis (Acc := ex_accumulator) (Dyn := ex_dynamics)
           2 1 None ex_state st' return_data Hrun).
Defined.

(** ** The driver: the renormalization loop and the order of the samplings *)

Section DriverExtras.
Context {Walker : Type} {Tr : Transform} {Acc : Accumulator Walker}
        {Dyn : Dynamics Walker} {Smp : Sampling Walker} {Num : Numerics}.

Lemma renormalize_wfs_length N st : length (ds_wfs (renormalize N st).2) = length (ds_wfs st).
Proof.
  unfold renormalize. rewrite M_bind_run. unfold get at 1. rewrite M_bind_run.
  destruct (last (ds_wfs st)); simpl; [|done]. rewrite M_bind_run.
  destruct (_ !! _); simpl; [|done]. apply alter_last_length.
Qed.

Lemma renormalize_loop_exact fuel Ntarget Ntol : forall st b N st',
  renormalize_loop fuel Ntarget Ntol st = (inr (b, N), st') ->
  Rabs (N - Ntarget) < Ntol /\
  last (ev_N b) = Some N /\
  length (ds_wfs st') = length (ds_wfs st) /\
  exists k, (k < fuel)%nat /\
    ds_trace st' = ds_trace st ++ replicate (S k) (Sampled 0).
Proof.
  induction fuel as [|fuel IH]; intros st b N st'; [done|]. simpl.
  rewrite M_bind_run. destruct (evaluate_pair 0 st) as [[e|tmp] st1] eqn:Hev; [done|].
  assert (Hlen1 : length (ds_wfs st1) = length (ds_wfs st)).
  { revert Hev. unfold evaluate_pair. rewrite M_bind_run. unfold get at 1.
    rewrite M_bind_run. destruct (ds_wfs st !! 0%nat); simpl; [|done]. rewrite M_bind_run.
    destruct (last (ds_wfs st)); simpl; [|done]. rewrite M_bind_run.
    destruct (ds_allcoords st !! 0%nat); simpl; [|done].
    destruct (evaluate _ _ _) as [[bundle coords'] rng']. rewrite M_bind_run.
    unfold put at 1. by intros [= _ <-]. }
  apply evaluate_pair_trace in Hev. rewrite M_bind_run.
  destruct (last (ev_N tmp)) as [N1|] eqn:HN; simpl; [|done].
  case_bool_decide as Htol.
  - intros [= <- <- <-]. split; [done|]. split; [done|]. split; [done|].
    exists 0%nat. split; [lia|]. done.
  - rewrite M_bind_run. pose proof (renormalize_trace N1 st1) as Hre.
    pose proof (renormalize_wfs_length N1 st1) as Hrl.
    destruct (renormalize N1 st1) as [[e|[]] st2]; [done|]. simpl in Hre, Hrl.
    intros Hloop. destruct (IH _ _ _ _ Hloop) as (H1 & H2 & H3 & k & Hk & Htr).
    split; [done|]. split; [done|]. split; [congruence|].
    exists (S k). split; [lia|].
    rewrite Htr, Hre, Hev, <- app_assoc. done.
Qed.

Lemma evaluate_pair_first wf0 refs act st tmp st1 :
  ds_wfs st = wf0 :: refs ++ [act] ->
  evaluate_pair 0 st = (inr tmp, st1) ->
  (exists coords rng, (evaluate [wf0; act] coords rng).1.1 = tmp) /\
  ds_wfs st1 = ds_wfs st /\
  ds_parameters st1 = ds_parameters st /\
  ds_trace st1 = ds_trace st ++ [Sampled 0].
Proof.
  intros Hwfs. unfold evaluate_pair. rewrite M_bind_run. unfold get at 1.
  rewrite M_bind_run, Hwfs. simpl. rewrite M_bind_run.
  change (wf0 :: refs ++ [act]) with ((wf0 :: refs) ++ [act]). rewrite last_snoc.
  simpl. rewrite M_bind_run.
  destruct (ds_allcoords st !! 0%nat) as [coords|]; simpl; [|done].
  destruct (evaluate _ _ _) as [[bundle coords'] rng'] eqn:Hev. rewrite M_bind_run.
  unfold put at 1. intros [= <- <-]. simpl. split; [|done].
  exists coords, (ds_rng st). by rewrite Hev.
Qed.

Lemma renormalize_active wf0 refs act N st st2 :
  ds_wfs st = wf0 :: refs ++ [act] ->
  renormalize N st = (inr (), st2) ->
  is_Some (parameters act !! "wf1det_coeff"%string) /\
  ds_wfs st2 = wf0 :: refs ++ [renormalized_once N act] /\
  ds_parameters st2 = serialize_parameters (parameters (renormalized_once N act)) /\
  ds_trace st2 = ds_trace st.
Proof.
  intros Hwfs. unfold renormalize. rewrite M_bind_run. unfold get at 1.
  rewrite M_bind_run, Hwfs.
  change (wf0 :: refs ++ [act]) with ((wf0 :: refs) ++ [act]). rewrite last_snoc.
  simpl. rewrite M_bind_run.
  destruct (parameters act !! "wf1det_coeff"%string) as [coeff|] eqn:Hk; simpl; [|done].
  unfold put. intros [= <-]. cbn [ds_wfs ds_parameters ds_trace].
  split; [by eexists|].
  change (wf0 :: refs ++ [act]) with ((wf0 :: refs) ++ [act]).
  rewrite alter_last_snoc. unfold renormalized_once. rewrite Hk.
  split; [by destruct refs|done].
Qed.

(** The loop of lines 509-527, when it ends.  With the first reference
    [wf0] and the active wavefunction [act] apart in the list, there are the
    normalizations [Ns] the loop measured and rejected, in order, and:
    every one of them is [Ntol] or more away from [Ntarget], and the value
    [N] handed on is nearer; the first reference was sampled once for each
    and once more for [N], and the active wavefunction was renormalized
    once at each of [Ns] and not otherwise, the references staying as they
    were; each normalization was measured on the wavefunction as the
    earlier ones had left it, and the bundle returned is the one measured
    last; and once a renormalization happened, the driver's parameter
    vector is the active wavefunction's. *)
Theorem renormalize_loop_within_tolerance fuel Ntarget Ntol wf0 refs :
  forall st act b N st',
  ds_wfs st = wf0 :: refs ++ [act] ->
  renormalize_loop fuel Ntarget Ntol st = (inr (b, N), st') ->
  exists Ns,
    (length Ns < fuel)%nat /\
    Forall (fun N' => ~ Rabs (N' - Ntarget) < Ntol) Ns /\
    Rabs (N - Ntarget) < Ntol /\
    ds_trace st' = ds_trace st ++ replicate (S (length Ns)) (Sampled 0) /\
    ds_wfs st' = wf0 :: refs ++ [renormalized Ns act] /\
    (forall i Ni, Ns !! i = Some Ni ->
       exists coords rng,
         last (ev_N (evaluate [wf0; renormalized (take i Ns) act] coords rng).1.1) = Some Ni) /\
    (exists coords rng, (evaluate [wf0; renormalized Ns act] coords rng).1.1 = b) /\
    last (ev_N b) = Some N /\
    match Ns with
    | [] => ds_parameters st' = ds_parameters st
    | _ :: _ =>
        is_Some (parameters act !! "wf1det_coeff"%string) /\
        ds_parameters st' = serialize_parameters (parameters (renormalized Ns act))
    end.
Proof.
  induction fuel as [|fuel IH]; intros st act b N st' Hwfs; [done|]. simpl.
  rewrite M_bind_run. destruct (evaluate_pair 0 st) as [[e|tmp] st1] eqn:Hev; [done|].
  destruct (evaluate_pair_first _ _ _ _ _ _ Hwfs Hev) as (Hmeas & Hw1 & Hp1 & Ht1).
  rewrite M_bind_run.
  destruct (last (ev_N tmp)) as [N1|] eqn:HN; simpl; [|done].
  case_bool_decide as Htol.
  - intros [= <- <- <-]. exists []. simpl.
    split; [lia|]. split; [constructor|]. split; [done|]. split; [done|].
    split; [congruence|]. split; [done|]. done.
  - rewrite M_bind_run. destruct (renormalize N1 st1) as [[e|[]] st2] eqn:Hre; [done|].
    rewrite Hwfs in Hw1.
    destruct (renormalize_active _ _ _ _ _ _ Hw1 Hre) as (Hkey & Hw2 & Hp2 & Ht2).
    intros Hloop.
    destruct (IH _ _ _ _ _ Hw2 Hloop)
      as (Ns & Hlen & Hout & Hin & Htr & Hw' & Hmeas' & Hb & HNb & Hpar).
    exists (N1 :: Ns). simpl.
    split; [lia|]. split; [by constructor|]. split; [done|].
    split. { rewrite Htr, Ht2, Ht1, <- app_assoc. done. }
    split; [done|].
    split.
    { intros [|i] Ni Hi; simpl in *.
      - injection Hi as <-. destruct Hmeas as (coords & rng & <-). by exists coords, rng.
      - by apply Hmeas'. }
    split; [done|]. split; [done|]. split; [done|].
    destruct Ns as [|N2 Ns]; [by rewrite Hpar, Hp2|]. by destruct Hpar.
Qed.

Lemma accumulate_references_trace nref indices : forall acc st acc' st',
  accumulate_references nref indices acc st = (inr acc', st') ->
  ds_trace st' = ds_trace st ++ map Sampled indices.
Proof.
  induction indices as [|i indices IH]; intros acc st acc' st'; simpl.
  - intros [= <- <-]. by rewrite app_nil_r.
  - rewrite M_bind_run. destruct (evaluate_pair i st) as [[e|b] st1] eqn:Hev; [done|].
    apply evaluate_pair_trace in Hev. rewrite M_bind_run.
    destruct (add_bundle nref i b acc) as [e|acc1]; simpl; [done|].
    intros Hrest. rewrite (IH _ _ _ _ Hrest), Hev, <- app_assoc. done.
Qed.

(** The samplings of one iteration (lines 509-539): the first reference is
    sampled until the normalization is within tolerance, at least once, and
    then every other reference exactly once, in the order of the list. *)
Theorem sample_phase_trace fuel opts st acc st' :
  sample_phase fuel opts st = (inr acc, st') ->
  exists k, (k < fuel)%nat /\
    ds_trace st'
    = ds_trace st ++ replicate (S k) (Sampled 0)
      ++ map Sampled (seq 1 (length (ds_wfs st) - 2)).
Proof.
  unfold sample_phase. rewrite M_bind_run. unfold get at 1. rewrite M_bind_run.
  destruct (renormalize_loop _ _ _ st) as [[e|[tmp N]] st1] eqn:Hloop; [done|].
  apply renormalize_loop_exact in Hloop as (_ & _ & _ & k & Hk & Htr).
  rewrite M_bind_run.
  destruct (add_bundle _ _ _ _) as [e|acc0]; simpl; [done|].
  intros Hrest. apply accumulate_references_trace in Hrest.
  exists k. split; [done|]. by rewrite Hrest, Htr, <- app_assoc.
Qed.
End DriverExtras.

(** The coefficients [[1; 1]] give the normalization [2/3]; renormalized at
    [2/3] they give [1/2]. *)
Lemma ex_norm_first : ex_norm [ex_reference; ex_determinant] = 2/3.
Proof. unfold ex_norm, dot. simpl. rewrite lookup_singleton_eq. simpl. field. Qed.

Lemma ex_norm_second :
  ex_norm [ex_reference; renormalized_once (2/3) ex_determinant] = 1/2.
Proof.
  unfold ex_norm, renormalized_once. cbn [last set_parameters parameters ex_determinant].
  rewrite lookup_insert_eq, lookup_singleton_eq. cbn [default]. unfold Datatypes.id. rewrite dot_scale_scale.
  replace ((1 - 2/3) / (2/3)) with (1/2) by field.
  replace (sqrt (1/2) ^ 2) with (sqrt (1/2) * sqrt (1/2)) by ring.
  rewrite sqrt_sqrt by lra. unfold dot. simpl. field.
Qed.

Lemma ex_renormalize_loop :
  exists b st',
    renormalize_loop (Tr := ex_transform) (Smp := ex_sampling_norm) 2 (1/2) (5/100)
                     ex_driver_det
    = (inr (b, 1/2), st').
Proof.
  unfold renormalize_loop, evaluate_pair, renormalize. run_M.
  rewrite ex_norm_first.
  rewrite bool_decide_eq_false_2 by (unfold Rabs; destruct (Rcase_abs _); lra).
  unfold ex_driver_det. cbn [ds_wfs last]. cbn [ex_determinant parameters].
  rewrite lookup_singleton_eq. cbn [ds_wfs alter_last ds_allcoords lookup list_lookup].
  cbn [last].
  pose proof ex_norm_second as H2. unfold renormalized_once in H2.
  cbn [ex_determinant parameters] in H2. rewrite lookup_singleton_eq in H2.
  cbn [default] in H2. unfold Datatypes.id in H2. rewrite H2.
  cbv beta iota. cbn [ev_N last]. cbv beta iota.
  rewrite bool_decide_eq_true_2 by (unfold Rabs; destruct (Rcase_abs _); lra).
  by eexists _, _.
Qed.

Lemma renormalize_loop_within_tolerance_witness :
  ds_wfs ex_driver_det = ex_reference :: [] ++ [ex_determinant] /\
  exists b st',
    renormalize_loop (Tr := ex_transform) (Smp := ex_sampling_norm) 2 (1/2) (5/100)
                     ex_driver_det
    = (inr (b, 1/2), st') /\
    exists Ns,
      (length Ns < 2)%nat /\
      Forall (fun N' => ~ Rabs (N' - 1/2) < 5/100) Ns /\
      Rabs (1/2 - 1/2) < 5/100 /\
      ds_trace st' = ds_trace ex_driver_det ++ replicate (S (length Ns)) (Sampled 0) /\
      ds_wfs st' = ex_reference :: [] ++ [renormalized Ns ex_determinant] /\
      (forall i Ni, Ns !! i = Some Ni ->
         exists coords rng,
           last (ev_N (evaluate (Sampling := ex_sampling_norm)
                         [ex_reference; renormalized (take i Ns) ex_determinant]
                         coords rng).1.1) = Some Ni) /\
      (exists coords rng,
         (evaluate (Sampling := ex_sampling_norm)
            [ex_reference; renormalized Ns ex_determinant] coords rng).1.1 = b) /\
      last (ev_N b) = Some (1/2) /\
      match Ns with
      | [] => ds_parameters st' = ds_parameters ex_driver_det
      | _ :: _ =>
          is_Some (parameters ex_determinant !! "wf1det_coeff"%string) /\
          ds_parameters st'
          = serialize_parameters (Transform := ex_transform)
              (parameters (renormalized Ns ex_determinant))
      end.
Proof.
  split; [reflexivity|].
  destruct ex_renormalize_loop as (b & st' & Hrun).
  exists b, st'. split; [exact Hrun|].
  exact (renormalize_loop_within_tolerance (Tr := ex_transform) (Smp := ex_sampling_norm)
           2 (1/2) (5/100) ex_reference [] ex_driver_det ex_determinant b (1/2) st'
           eq_refl Hrun).
Defined.

Lemma sample_phase_trace_witness :
  exists acc st',
    sample_phase (Tr := ex_transform) (Smp := ex_sampling) 1
                 (ex_options [0; 0] [10; 10] (3/10)) ex_driver3 = (inr acc, st') /\
    exists k, (k < 1)%nat /\
      ds_trace st'
      = ds_trace ex_driver3 ++ replicate (S k) (Sampled 0)
        ++ map Sampled (seq 1 (length (ds_wfs ex_driver3) - 2)).
Proof.
  destruct (ex_sample_phase3 [0; 0] [10; 10] (3/10)) as (acc & st' & Hrun & _).
  exists acc, st'. split; [exact Hrun|].
  exact (sample_phase_trace _ _ _ _ _ Hrun).
Defined.

(** ** The driver: the line search and the update *)

Lemma fst_zip_take {A B} (l : list A) (k : list B) : (zip l k).*1 = take (length k) l.
Proof.
  revert k. induction l as [|a l IH]; intros [|b k]; simpl; try done.
  by rewrite IH.
Qed.

Section LineSearchExtras.
Context {Walker : Type} {Tr : Transform} {Acc : Accumulator Walker}
        {Dyn : Dynamics Walker} {Smp : Sampling Walker} {Num : Numerics}.

Lemma for_each_trace {A B} (body : A -> M (driver_state Walker Rng) B) (ev : A -> event) (l : list A) :
  (forall a s b s', body a s = (inr b, s') -> ds_trace s' = ds_trace s ++ [ev a]) ->
  forall s bs s', for_each body l s = (inr bs, s') ->
    ds_trace s' = ds_trace s ++ map ev l /\ length bs = length l.
Proof.
  intros Hbody. induction l as [|a l IH]; intros s bs s'; simpl.
  - intros [= <- <-]. by rewrite app_nil_r.
  - rewrite M_bind_run. destruct (body a s) as [[e|b] s1] eqn:Hb; [done|].
    rewrite M_bind_run. destruct (for_each body l s1) as [[e|bs1] s2] eqn:Hrest; [done|].
    intros [= <- <-]. destruct (IH _ _ _ Hrest) as [Htr Hlen].
    rewrite Htr, (Hbody _ _ _ _ Hb), <- app_assoc. simpl. by rewrite Hlen.
Qed.

Lemma correlated_pair_trace test_parameters i icoord st d st' :
  correlated_pair test_parameters i icoord st = (inr d, st') ->
  ds_trace st' = ds_trace st ++ [CorrelatedSampled i].
Proof.
  unfold correlated_pair. rewrite M_bind_run. unfold get at 1. rewrite M_bind_run.
  destruct (ds_wfs st !! i) as [wf|]; simpl; [|done]. rewrite M_bind_run.
  destruct (last (ds_wfs st)) as [active|]; simpl; [|done].
  destruct (correlated_sample icoord test_parameters [wf; active]) as [r objects].
  rewrite M_bind_run. unfold put at 1.
  destruct r as [e|d']; simpl; [done|]. by intros [= _ <-].
Qed.

Lemma line_fit_inr opts tsteps data ls :
  line_fit opts tsteps data = inr ls ->
  data <> [] /\ line_tsteps ls = tsteps /\
  forall x, x ∈ line_xfit ls -> x ∈ tsteps.
Proof.
  unfold line_fit. intros H. destruct data as [|d data]; [done|]. split; [done|].
  revert H.
  change (match head (d :: data) with Some d0 => inr d0 | None => inl IndexError end)
    with (@inr error corr_data d).
  rewrite bind_inr.
  repeat (match goal with
          | |- (?m ≫= _) = inr _ -> _ =>
              let E := fresh "E" in destruct m eqn:E; [by rewrite bind_inl|rewrite bind_inr]
          end).
  intros [= <-]. simpl. split; [done|]. intros x Hx.
  unfold boolean_index in *. destruct (decide _); [|done].
  match goal with H : inr _ = inr _ |- _ => injection H as <- end.
  apply elem_of_select in Hx as (c & _ & Hc). by eapply list_elem_of_lookup_2.
Qed.

(** The line search (lines 585-613) tries the 21 step sizes of
    [np.linspace(-tstep, tstep, 21)], runs the correlated sampler once for
    every reference, in the order of the list, and fits only step sizes it
    tried. *)
Theorem line_search_trace opts total_derivative condition st ls st' :
  line_search opts total_derivative condition st = (inr ls, st') ->
  line_tsteps ls = linspace (- opt_tstep opts) (opt_tstep opts) 21 /\
  ds_trace st'
  = ds_trace st
    ++ map CorrelatedSampled
           (seq 0 (length (ds_allcoords st) `min` length (ds_wfs st))) /\
  forall x, x ∈ line_xfit ls -> x ∈ line_tsteps ls.
Proof.
  unfold line_search. rewrite M_bind_run. unfold get at 1. rewrite M_bind_run.
  destruct (mapM _ _) as [e|test_parameters]; simpl; [done|].
  rewrite M_bind_run.
  destruct (for_each _ _ st) as [[e|data] st1] eqn:Hfor; [done|].
  apply (for_each_trace _ (fun ic => CorrelatedSampled ic.1)) in Hfor as [Htr _].
  2:{ intros a s b s' Hb. by apply correlated_pair_trace in Hb. }
  destruct (line_fit _ _ data) as [e|ls'] eqn:Hfit; simpl; [done|].
  intros [= <- <-]. apply line_fit_inr in Hfit as (_ & Hts & Hx).
  split; [done|]. split; [|by rewrite Hts].
  rewrite Htr. f_equal.
  rewrite <- (map_map fst CorrelatedSampled). f_equal.
  change (map fst ?l) with (l.*1). rewrite fst_zip_take. apply take_seq.
Qed.
End LineSearchExtras.

Lemma line_search_trace_witness :
  exists ls st',
    line_search (Tr := ex_transform) (Acc := ex_accumulator) (Dyn := ex_dynamics)
                (Num := ex_numerics)
                (ex_options [0] [10] (6/10)) [1] [[0]] ex_driver2
    = (inr ls, st') /\
    line_tsteps ls = linspace (- (1/10)) (1/10) 21 /\
    ds_trace st' = ds_trace ex_driver2 ++ map CorrelatedSampled (seq 0 1) /\
    forall x, x ∈ line_xfit ls -> x ∈ line_tsteps ls.
Proof.
  destruct ex_line_search as (ls & st' & Hrun & _).
  exists ls, st'. split; [exact Hrun|].
  exact (line_search_trace _ _ _ _ _ _ Hrun).
Defined.

Section UpdateExtras.
Context {Walker : Type} {Tr : Transform} {Acc : Accumulator Walker}
        {Dyn : Dynamics Walker} {Smp : Sampling Walker} {Num : Numerics}.

Lemma line_search_active opts total_derivative condition st ls st' :
  line_search opts total_derivative condition st = (inr ls, st') ->
  is_Some (last (ds_wfs st')).
Proof.
  intros Hrun.
  pose proof (line_search_frame opts total_derivative condition st) as (_ & _ & Hagree).
  rewrite Hrun in Hagree. simpl in Hagree.
  assert (Hne : ds_wfs st <> []).
  { revert Hrun. unfold line_search. rewrite M_bind_run. unfold get at 1.
    rewrite M_bind_run. destruct (mapM _ _) as [e|tp]; simpl; [done|].
    rewrite M_bind_run. destruct (for_each _ _ st) as [[e|data] st1] eqn:Hfor; [done|].
    apply (for_each_trace _ (fun ic => CorrelatedSampled ic.1)) in Hfor as [_ Hlen].
    2:{ intros a s b s' Hb. by apply correlated_pair_trace in Hb. }
    destruct (line_fit _ _ data) as [e|ls'] eqn:Hfit; simpl; [done|]. intros _.
    apply line_fit_inr in Hfit as (Hd & _). intros Hnil. rewrite Hnil in Hlen.
    simpl in Hlen. by destruct data. }
  unfold last_agree in Hagree.
  destruct (last (ds_wfs st)) as [a|] eqn:Hl; [|by apply last_None in Hl].
  destruct (last (ds_wfs st')); [by eexists|done].
Qed.

(** Every iteration that returns leaves the parameter vector and the active
    wavefunction in step (lines 615-621): the active wavefunction holds,
    under the keys of the transform, the entries the new vector deserializes
    to. *)
Theorem iteration_tail_in_step opts coords step acc total_derivative condition st st2 :
  iteration_tail opts coords step acc total_derivative condition st = (inr (), st2) ->
  exists act,
    last (ds_wfs st2) = Some act /\
    deserialize (ds_parameters st2) ⊆ parameters act.
Proof.
  unfold iteration_tail. rewrite M_bind_run.
  destruct (line_search _ _ _ st) as [[e|ls] st1] eqn:Hls; [done|].
  apply line_search_active in Hls as [a Ha].
  unfold commit. rewrite M_bind_run. unfold get at 1. rewrite M_bind_run.
  destruct (if bool_decide _ then _ else _) as [e|p']; simpl; [done|].
  unfold put. intros [= <-]. simpl.
  rewrite last_alter_last, Ha. simpl. eexists. split; [done|].
  simpl. apply map_union_subseteq_l.
Qed.

(** [renormalize] (lines 322-336) needs the key ["wf1det_coeff"]: on an
    active wavefunction without it the call raises [KeyError] and changes
    nothing. *)
Theorem renormalize_missing_key (N : R) (st : driver_state Walker Rng) act :
  last (ds_wfs st) = Some act ->
  parameters act !! "wf1det_coeff"%string = None ->
  renormalize N st = (inl KeyError, st).
Proof.
  intros Hl Hk. unfold renormalize. rewrite M_bind_run. unfold get at 1.
  rewrite M_bind_run, Hl. simpl. rewrite M_bind_run, Hk. done.
Qed.

(** The docstring of [renormalize] in numbers.  Write [B] for the squared
    length of the coefficient vector of the active wavefunction and [A] for
    the squared weight of the reference, so that the normalization is
    [N = B / (A + B)].  [renormalize(wfs, N)] scales the coefficients by
    [sqrt((1 - N) / N)]: their squared length becomes [A], which is the
    normalization [A / (A + A) = 0.5] the function aims for. *)
Theorem renormalize_balances (A : R) (st : driver_state Walker Rng) act coeff :
  last (ds_wfs st) = Some act ->
  parameters act !! "wf1det_coeff"%string = Some coeff ->
  0 < A -> 0 < dot coeff coeff ->
  exists st' act' coeff',
    renormalize (dot coeff coeff / (A + dot coeff coeff)) st = (inr (), st') /\
    last (ds_wfs st') = Some act' /\
    parameters act' !! "wf1det_coeff"%string = Some coeff' /\
    dot coeff' coeff' = A /\
    dot coeff' coeff' / (A + dot coeff' coeff') = 1/2 /\
    ds_parameters st' = serialize_parameters (parameters act').
Proof.
  intros Hl Hk HA HB. unfold renormalize. rewrite M_bind_run. unfold get at 1.
  rewrite M_bind_run, Hl. simpl. rewrite M_bind_run, Hk. simpl.
  set (B := dot coeff coeff) in *.
  replace ((1 - B / (A + B)) / (B / (A + B))) with (A / B) by (field; split; lra).
  eexists _, _, _. split; [reflexivity|]. simpl.
  rewrite last_alter_last, Hl. simpl. split; [reflexivity|]. simpl.
  rewrite lookup_insert_eq. split; [reflexivity|].
  assert (Hnew : dot (scale (sqrt (A / B)) coeff) (scale (sqrt (A / B)) coeff) = A).
  { rewrite dot_scale_scale. fold B.
    replace (sqrt (A / B) ^ 2) with (sqrt (A / B) * sqrt (A / B)) by ring.
    rewrite sqrt_sqrt by (apply Rlt_le, Rdiv_lt_0_compat; lra).
    field. lra. }
  rewrite Hnew. split; [done|]. split; [field; lra|done].
Qed.
End UpdateExtras.

Lemma ex_iteration_tail :
  exists st2,
    iteration_tail (Tr := ex_transform) (Acc := ex_accumulator) (Dyn := ex_dynamics)
                   (Num := ex_numerics)
                   (ex_options [0] [10] (6/10)) [()] 0
                   (Accumulated [1/2] 0 [0] [0] [[0]] [0] [[0]] (1/2)) [1] [[0]] ex_driver2
    = (inr (), st2).
Proof.
  destruct ex_line_search as (ls & st1 & Hls & Hempty).
  eexists. unfold iteration_tail. rewrite M_bind_run, Hls.
  unfold commit. rewrite M_bind_run. unfold get at 1. rewrite M_bind_run, Hempty.
  reflexivity.
Qed.

Lemma iteration_tail_in_step_witness :
  exists st2 act,
    iteration_tail (Tr := ex_transform) (Acc := ex_accumulator) (Dyn := ex_dynamics)
                   (Num := ex_numerics)
                   (ex_options [0] [10] (6/10)) [()] 0
                   (Accumulated [1/2] 0 [0] [0] [[0]] [0] [[0]] (1/2)) [1] [[0]] ex_driver2
    = (inr (), st2) /\
    last (ds_wfs st2) = Some act /\
    deserialize (Transform := ex_transform) (ds_parameters st2) ⊆ parameters act.
Proof.
  destruct ex_iteration_tail as (st2 & Hrun).
  destruct (iteration_tail_in_step _ _ _ _ _ _ _ _ Hrun) as (act & Hl & Hsub).
  by exists st2, act.
Defined.

Lemma renormalize_missing_key_witness :
  renormalize (Tr := ex_transform) (Dyn := ex_dynamics) (1/4) ex_driver2
  = (inl KeyError, ex_driver2).
Proof.
  apply (renormalize_missing_key (Tr := ex_transform) (Dyn := ex_dynamics)
           (1/4) ex_driver2 ex_active); reflexivity.
Defined.

Lemma renormalize_balances_witness :
  exists st' act' coeff',
    renormalize (Tr := ex_transform) (Dyn := ex_dynamics)
                (dot [1; 1] [1; 1] / (1 + dot [1; 1] [1; 1])) ex_driver_det
    = (inr (), st') /\
    last (ds_wfs st') = Some act' /\
    parameters act' !! "wf1det_coeff"%string = Some coeff' /\
    dot coeff' coeff' = 1 /\
    dot coeff' coeff' / (1 + dot coeff' coeff') = 1/2 /\
    ds_parameters st' = serialize_parameters (Transform := ex_transform) (parameters act').
Proof.
  apply (renormalize_balances (Tr := ex_transform) (Dyn := ex_dynamics)
           1 ex_driver_det ex_determinant [1; 1]).
  - reflexivity.
  - reflexivity.
  - lra.
  - unfold dot. simpl. lra.
Defined.

(** ** [evaluate]: the bundle it returns *)

Lemma omap_map_Some {A B C} (h : B -> option C) (k : A -> B) (r : A -> C) (l : list A) :
  (forall x, x ∈ l -> h (k x) = Some (r x)) -> omap h (map k l) = map r l.
Proof.
  induction l as [|x l IH]; intros H; [done|]. simpl.
  rewrite (H x) by apply list_elem_of_here. f_equal.
  apply IH. intros y Hy. apply H. by apply list_elem_of_further.
Qed.

Lemma zip_map_r {A B} (g : A -> B) (l : list A) : zip l (map g l) = map (fun x => (x, g x)) l.
Proof. induction l as [|x l IH]; simpl; [done|]. by rewrite IH. Qed.

Lemma diagonal_map (f : nat -> nat -> R) (n : nat) :
  diagonal (map (fun i => map (f i) (seq 0 n)) (seq 0 n)) = map (fun i => f i i) (seq 0 n).
Proof.
  unfold diagonal. rewrite length_map, length_seq, zip_map_r.
  apply (omap_map_Some _ _ (fun i => f i i)). intros i Hi. simpl.
  apply elem_of_seq in Hi. rewrite list_lookup_fmap, lookup_seq_lt by lia. done.
Qed.

Lemma zip_with_map2 (g : R -> R -> R) (F G : nat -> nat -> R) (n m : nat) :
  zip_with (zip_with g) (map (fun i => map (F i) (seq 0 m)) (seq 0 n))
                        (map (fun i => map (G i) (seq 0 m)) (seq 0 n))
  = map (fun i => map (fun j => g (F i j) (G i j)) (seq 0 m)) (seq 0 n).
Proof.
  rewrite zip_with_map_map. apply map_ext. intros i. by rewrite zip_with_map_map.
Qed.

Lemma lookup_seq_map2 (H : nat -> nat -> R) (n m i j : nat) :
  (map (fun i => map (H i) (seq 0 m)) (seq 0 n) !! i ≫= (.!! j))
  = if decide (i < n /\ j < m)%nat then Some (H i j) else None.
Proof.
  rewrite list_lookup_fmap. destruct (decide (i < n)%nat) as [Hi|Hi].
  - rewrite lookup_seq_lt by done. simpl. rewrite list_lookup_fmap.
    destruct (decide (j < m)%nat) as [Hj|Hj].
    + rewrite lookup_seq_lt by done. simpl. by rewrite decide_True.
    + rewrite lookup_seq_ge by lia. simpl. rewrite decide_False; [done|lia].
  - rewrite lookup_seq_ge by lia. simpl. rewrite decide_False; [done|lia].
Qed.

Lemma outer_map {A} (d : A -> R) (l : list A) :
  outer (map d l) (map d l) = map (fun i => map (fun j => d i * d j) l) l.
Proof. unfold outer. rewrite map_map. apply map_ext. intros i. by rewrite map_map. Qed.

Lemma evaluate_blocks_inr (warmup : nat) (out : sampler_output) (b : derivative_bundle) :
  evaluate_blocks warmup out = inr b ->
  ev_N b = map (fun i => avg_overlap warmup out i i) (seq 0 (out_nwf out)) /\
  ev_S b = map (fun i => map (fun j => avg_overlap warmup out i j
                                      / sqrt (avg_overlap warmup out i i
                                              * avg_overlap warmup out j j))
                             (seq 0 (out_nwf out)))
               (seq 0 (out_nwf out)) /\
  ev_condition b = map (fun i => map (fun j => avg_dpidpj warmup out i j
                                              - avg_dppsi warmup out i * avg_dppsi warmup out j)
                                     (seq 0 (out_nparm out)))
                       (seq 0 (out_nparm out)) /\
  ev_total b = block_average0 warmup (out_total out).
Proof.
  unfold evaluate_blocks.
  repeat (match goal with
          | |- (?m ≫= _) = inr _ -> _ =>
              let E := fresh "E" in destruct m eqn:E; [by rewrite bind_inl|rewrite bind_inr]
          end).
  intros [= <-]. simpl.
  assert (Hov : block_average2 warmup (out_nwf out) (out_nwf out) (out_overlap out)
                = map (fun i => map (avg_overlap warmup out i) (seq 0 (out_nwf out)))
                      (seq 0 (out_nwf out))) by done.
  assert (HN : diagonal (block_average2 warmup (out_nwf out) (out_nwf out) (out_overlap out))
               = map (fun i => avg_overlap warmup out i i) (seq 0 (out_nwf out)))
    by (rewrite Hov; apply diagonal_map).
  assert (Hdd : block_average2 warmup (out_nparm out) (out_nparm out) (out_dpidpj out)
                = map (fun i => map (avg_dpidpj warmup out i) (seq 0 (out_nparm out)))
                      (seq 0 (out_nparm out))) by done.
  assert (Hdp : block_average1 warmup (out_nparm out) (out_dppsi out)
                = map (avg_dppsi warmup out) (seq 0 (out_nparm out))) by done.
  rewrite HN, Hov, Hdd, Hdp, !outer_map.
  split; [done|]. split; [|split; [|done]].
  - by rewrite (zip_with_map2 (fun o x => o / sqrt x)).
  - by rewrite (zip_with_map2 Rminus).
Qed.

(** The matrix [S] that [evaluate] returns has ones on its diagonal wherever
    the normalization is positive: [S[i, i] = 1] when [N[i] > 0]. *)
Theorem evaluate_unit_diagonal (warmup : nat) (out : sampler_output)
    (b : derivative_bundle) (i : nat) (Ni : R) :
  evaluate_blocks warmup out = inr b ->
  ev_N b !! i = Some Ni -> 0 < Ni ->
  (ev_S b !! i ≫= (.!! i)) = Some 1.
Proof.
  intros Hb HN Hpos. apply evaluate_blocks_inr in Hb as (EN & ES & _).
  rewrite EN in HN. rewrite ES.
  assert (Hi : (i < out_nwf out)%nat).
  { apply lookup_lt_Some in HN. by rewrite length_map, length_seq in HN. }
  rewrite list_lookup_fmap, lookup_seq_lt in HN by done. simpl in HN. injection HN as HN.
  rewrite (lookup_seq_map2 (fun i j => avg_overlap warmup out i j
                                       / sqrt (avg_overlap warmup out i i
                                               * avg_overlap warmup out j j))).
  rewrite decide_True by done. rewrite HN. f_equal.
  rewrite sqrt_square by lra. field. lra.
Qed.

(** [S] and [condition] are symmetric whenever the blocks that are averaged
    have symmetric ["overlap"] and ["dpidpj"] matrices. *)
Theorem evaluate_symmetric (warmup : nat) (out : sampler_output) (b : derivative_bundle) :
  evaluate_blocks warmup out = inr b ->
  (forall A i j, A ∈ drop warmup (out_overlap out) -> entry2 A i j = entry2 A j i) ->
  (forall A i j, A ∈ drop warmup (out_dpidpj out) -> entry2 A i j = entry2 A j i) ->
  forall i j,
    (ev_S b !! i ≫= (.!! j)) = (ev_S b !! j ≫= (.!! i)) /\
    (ev_condition b !! i ≫= (.!! j)) = (ev_condition b !! j ≫= (.!! i)).
Proof.
  intros Hb Hov Hdp i j. apply evaluate_blocks_inr in Hb as (_ & ES & EC & _).
  rewrite ES, EC.
  assert (Hso : forall i j, avg_overlap warmup out i j = avg_overlap warmup out j i).
  { intros i' j'. unfold avg_overlap. f_equal. apply map_ext_in. intros A HA.
    apply Hov. by apply list_elem_of_In. }
  assert (Hsd : forall i j, avg_dpidpj warmup out i j = avg_dpidpj warmup out j i).
  { intros i' j'. unfold avg_dpidpj. f_equal. apply map_ext_in. intros A HA.
    apply Hdp. by apply list_elem_of_In. }
  rewrite !(lookup_seq_map2 (fun i j => avg_overlap warmup out i j
                                        / sqrt (avg_overlap warmup out i i
                                                * avg_overlap warmup out j j))).
  rewrite !(lookup_seq_map2 (fun i j => avg_dpidpj warmup out i j
                                        - avg_dppsi warmup out i * avg_dppsi warmup out j)).
  split.
  - destruct (decide (i < out_nwf out /\ j < out_nwf out)%nat) as [H|H].
    + rewrite decide_True by lia. rewrite (Hso i j). do 3 f_equal. lra.
    + rewrite decide_False by lia. done.
  - destruct (decide (i < out_nparm out /\ j < out_nparm out)%nat) as [H|H].
    + rewrite decide_True by lia. rewrite (Hsd i j). f_equal. lra.
    + rewrite decide_False by lia. done.
Qed.

(** The normalizations [N] add up to one whenever every averaged block has
    an ["overlap"] matrix of trace one, as the blocks of [sample_overlap]
    have for wavefunctions whose phase is a sign: with one reference,
    [N = 0.5] for the active wavefunction means equal weights. *)
Theorem evaluate_normalization_sum (warmup : nat) (out : sampler_output)
    (b : derivative_bundle) :
  evaluate_blocks warmup out = inr b ->
  drop warmup (out_overlap out) <> [] ->
  (forall A, A ∈ drop warmup (out_overlap out) ->
     vsum (map (fun i => entry2 A i i) (seq 0 (out_nwf out))) = 1) ->
  vsum (ev_N b) = 1.
Proof.
  intros Hb Hne Htr. apply evaluate_blocks_inr in Hb as (EN & _). rewrite EN.
  unfold avg_overlap.
  rewrite (vsum_map_mean (fun i A => entry2 A i i)).
  rewrite (map_ext_in _ (fun _ => 1)).
  - unfold mean. rewrite vsum_map_one, length_map. field.
    apply not_0_INR. by destruct (drop warmup (out_overlap out)).
  - intros A HA. apply Htr. by apply list_elem_of_In.
Qed.

(** The blocks before [warmup] have no part in the result: two outputs that
    agree from block [warmup] on give the same bundle, or the same error. *)
Theorem evaluate_discards_warmup (warmup : nat) (out out' : sampler_output) :
  out_nwf out = out_nwf out' -> out_nparm out = out_nparm out' ->
  drop warmup (out_overlap out) = drop warmup (out_overlap out') ->
  drop warmup (out_overlap_gradient out) = drop warmup (out_overlap_gradient out') ->
  drop warmup (out_dpH out) = drop warmup (out_dpH out') ->
  drop warmup (out_total out) = drop warmup (out_total out') ->
  drop warmup (out_dppsi out) = drop warmup (out_dppsi out') ->
  drop warmup (out_dpidpj out) = drop warmup (out_dpidpj out') ->
  evaluate_blocks warmup out = evaluate_blocks warmup out'.
Proof.
  intros H1 H2 H3 H4 H5 H6 H7 H8.
  unfold evaluate_blocks, block_average2, block_average1, block_average0.
  by rewrite H1, H2, H3, H4, H5, H6, H7, H8.
Qed.

Lemma ex_evaluate :
  exists b, evaluate_blocks 1 ex_output = inr b /\
            ev_N b = [mean [1/2]; mean [1/2]].
Proof. eexists. split; reflexivity. Qed.

Lemma ex_overlap_symmetric (A : matrix) (i j : nat) :
  A ∈ [[[1/2; 0]; [0; 1/2]]] -> entry2 A i j = entry2 A j i.
Proof.
  intros HA. apply list_elem_of_singleton in HA as ->. unfold entry2.
  destruct i as [|[|i]], j as [|[|j]]; simpl; try reflexivity;
    repeat (match goal with |- context [match ?n with O => _ | S _ => _ end] => destruct n end);
    reflexivity.
Qed.

Lemma ex_dpidpj_symmetric (A : matrix) (i j : nat) :
  A ∈ [[[0]]] -> entry2 A i j = entry2 A j i.
Proof.
  intros HA. apply list_elem_of_singleton in HA as ->. unfold entry2.
  destruct i as [|i], j as [|j]; simpl; try reflexivity;
    repeat (match goal with |- context [match ?n with O => _ | S _ => _ end] => destruct n end);
    reflexivity.
Qed.

Lemma evaluate_unit_diagonal_witness :
  exists b, evaluate_blocks 1 ex_output = inr b /\ (ev_S b !! 0%nat ≫= (.!! 0%nat)) = Some 1.
Proof.
  destruct ex_evaluate as (b & Hb & HN). exists b. split; [exact Hb|].
  apply (evaluate_unit_diagonal 1 ex_output b 0 (mean [1/2]) Hb).
  - rewrite HN. reflexivity.
  - unfold mean. simpl. lra.
Defined.

Lemma evaluate_symmetric_witness :
  exists b, evaluate_blocks 1 ex_output = inr b /\
    forall i j,
      (ev_S b !! i ≫= (.!! j)) = (ev_S b !! j ≫= (.!! i)) /\
      (ev_condition b !! i ≫= (.!! j)) = (ev_condition b !! j ≫= (.!! i)).
Proof.
  destruct ex_evaluate as (b & Hb & _). exists b. split; [exact Hb|].
  apply (evaluate_symmetric 1 ex_output b Hb).
  - intros A i j HA. by apply ex_overlap_symmetric.
  - intros A i j HA. by apply ex_dpidpj_symmetric.
Defined.

Lemma evaluate_normalization_sum_witness :
  exists b, evaluate_blocks 1 ex_output = inr b /\ vsum (ev_N b) = 1.
Proof.
  destruct ex_evaluate as (b & Hb & _). exists b. split; [exact Hb|].
  apply (evaluate_normalization_sum 1 ex_output b Hb).
  - done.
  - intros A HA. apply list_elem_of_singleton in HA as ->.
    unfold entry2. simpl. lra.
Defined.

Lemma evaluate_discards_warmup_witness :
  evaluate_blocks 1 ex_output = evaluate_blocks 1 ex_output'.
Proof. apply evaluate_discards_warmup; reflexivity. Defined.

(** ** The distributed correlated sampler *)

Lemma mapM_inr_map_in {A B} (f : A -> error + B) (g : A -> B) (l : list A) :
  (forall x, x ∈ l -> f x = inr (g x)) -> mapM f l = inr (map g l).
Proof.
  induction l as [|x l IH]; intros Hf; [done|].
  simpl. rewrite (Hf x) by apply list_elem_of_here.
  rewrite bind_inr, IH by (intros y Hy; apply Hf; by apply list_elem_of_further).
  by rewrite bind_inr.
Qed.

Lemma mapM_app_inl {A B} (f : A -> error + B) (pre post : list A) (x : A) (e : error) :
  Forall (fun y => exists b, f y = inr b) pre -> f x = inl e ->
  mapM f (pre ++ x :: post) = inl e.
Proof.
  intros Hpre Hx. induction Hpre as [|y pre [b Hb] _ IH]; simpl.
  - by rewrite Hx.
  - by rewrite Hb, bind_inr, IH.
Qed.

Lemma entry1_lookup (v : vec) (p : nat) (x : R) : v !! p = Some x -> entry1 v p = x.
Proof. intros H. unfold entry1. by apply nth_lookup_Some with (d := 0) in H. Qed.

Lemma map_entry1_seq (v : vec) : map (entry1 v) (seq 0 (length v)) = v.
Proof.
  apply list_eq. intros i. rewrite list_lookup_fmap.
  destruct (v !! i) as [x|] eqn:Hx.
  - rewrite lookup_seq_lt by (by apply lookup_lt_Some in Hx). simpl.
    by rewrite (entry1_lookup _ _ _ Hx).
  - rewrite lookup_seq_ge; [done|]. by apply lookup_ge_None in Hx.
Qed.

Lemma map_entry2_seq (A : matrix) (m : nat) :
  Forall (fun row => length row = m) A ->
  map (fun p => map (fun j => entry2 A p j) (seq 0 m)) (seq 0 (length A)) = A.
Proof.
  intros HA. apply list_eq. intros i. rewrite list_lookup_fmap.
  destruct (A !! i) as [row|] eqn:Hrow.
  - rewrite lookup_seq_lt by (by apply lookup_lt_Some in Hrow). simpl. f_equal.
    unfold entry2. rewrite (nth_lookup_Some _ _ [] _ Hrow).
    rewrite <- (Forall_lookup_1 _ _ _ _ HA Hrow). apply (map_entry1_seq row).
  - rewrite lookup_seq_ge; [done|]. by apply lookup_ge_None in Hrow.
Qed.

(** No partition at all raises [IndexError] (line 307), and the exception of
    the first future that failed is the one the call raises. *)
Theorem dist_correlated_sample_failure :
  dist_correlated_sample [] = inl IndexError /\
  forall (pre post : list corr_run) (r : corr_run) (e : error),
    Forall (fun r' => exists d, crun_result r' = inr d) pre ->
    crun_result r = inl e ->
    dist_correlated_sample (pre ++ r :: post) = inl e.
Proof.
  split; [done|]. intros pre post r e Hpre Hr.
  unfold dist_correlated_sample. by rewrite (mapM_app_inl _ _ _ _ _ Hpre Hr).
Qed.

Lemma average_single (t x : R) : x <> 0 -> average [t] [x] = Some t.
Proof.
  intros Hx. unfold average. simpl. rewrite decide_False by lra. f_equal. field. lra.
Qed.

Lemma average_axis0_single (v w : vec) :
  length w = length v -> Forall (fun x => x <> 0) w ->
  average_axis0 (length v) [v] [w] = inr v.
Proof.
  intros Hl Hw. unfold average_axis0.
  rewrite (mapM_inr_map_in _ (entry1 v)); [by rewrite map_entry1_seq|].
  intros p Hp. apply elem_of_seq in Hp. unfold column. simpl.
  destruct (lookup_lt_is_Some_2 w p) as [x Hx]; [lia|].
  rewrite (entry1_lookup w p x Hx), average_single; [done|].
  by apply (Forall_lookup_1 _ _ _ _ Hw Hx).
Qed.

Lemma Forall_nonzero_times_one (v : vec) :
  Forall (fun x => x <> 0) v -> Forall (fun x => x <> 0) (map (fun x => x * 1) v).
Proof. intros H. apply Forall_fmap. eapply Forall_impl; [exact H|]. simpl. intros x. lra. Qed.

Lemma Forall_nonzero_zip (u v : vec) :
  Forall (fun x => x <> 0) u -> Forall (fun x => x <> 0) v ->
  Forall (fun x => x <> 0) (zip_with Rmult u v).
Proof.
  intros Hu. revert v. induction Hu as [|a u Ha _ IH]; intros v Hv; [constructor|].
  destruct Hv as [|b v Hb Hv]; simpl; [constructor|].
  constructor; [|by apply IH]. by apply Rmult_integral_contrapositive.
Qed.

Lemma map_times_one (v : vec) : map (fun x => x * 1) v = v.
Proof. induction v as [|x v IH]; simpl; [done|]. rewrite IH. f_equal. lra. Qed.

(** With a single partition that holds walkers, the distributed sampler
    returns what the partition computed: the same ["total"], ["weight"],
    ["overlap"] and ["rhoprime"], and its ["base_weight"] as the one row of a
    matrix.  The weights [weight * rhoprime] of the average must not vanish. *)
Theorem dist_correlated_sample_single (n : nat) (d : corr_data) :
  (0 < n)%nat ->
  length (data_weight d) = length (data_total d) ->
  length (data_rhoprime d) = length (data_total d) ->
  length (data_overlap d) = length (data_total d) ->
  Forall (fun row => length row = length (data_base_weight d)) (data_overlap d) ->
  Forall (fun w => w <> 0) (data_weight d) ->
  Forall (fun r => r <> 0) (data_rhoprime d) ->
  dist_correlated_sample [CorrRun n (inr d)]
  = inr (DistCorrData (data_total d) (data_weight d) (data_overlap d) (data_rhoprime d)
                      [data_base_weight d]).
Proof.
  intros Hn Hlw Hlr Hlo Hrows Hw Hr.
  assert (Hc : INR n / mean [INR n] = 1).
  { unfold mean. simpl. assert (0 < INR n) by (apply lt_0_INR; lia). field. lra. }
  unfold dist_correlated_sample.
  change (mapM crun_result [CorrRun n (inr d)]) with (@inr error _ [d]).
  rewrite bind_inr.
  change (match head [d] with Some r => inr r | None => inl IndexError end)
    with (@inr error corr_data d).
  rewrite bind_inr. cbn [map zip_with crun_size]. rewrite Hc, map_times_one.
  rewrite average_axis0_single.
  2:{ rewrite length_zip_with. lia. }
  2:{ by apply Forall_nonzero_zip. }
  rewrite bind_inr.
  unfold average_overlap. rewrite decide_False by (simpl; lra). rewrite bind_inr.
  rewrite <- Hlw at 1. rewrite average_axis0_single; [|lia|done].
  rewrite bind_inr. unfold mret, result_ret. f_equal. f_equal.
  - etransitivity; [|apply (map_entry2_seq _ _ Hrows)]. rewrite Hlo.
    apply map_ext. intros p. apply map_ext. intros j. simpl. field.
  - etransitivity; [|apply map_entry1_seq]. rewrite Hlr.
    apply map_ext. intros p. unfold column, mean. simpl. field.
Qed.

(** ** The distributed correlated sampler on the joined ensemble

    Means over partitions, weighted by the partition sizes, against means
    over the joined ensemble. *)

Lemma vsum_concat_map {A} (f : A -> R) (ls : list (list A)) :
  vsum (map f (concat ls)) = vsum (map (fun l => vsum (map f l)) ls).
Proof.
  induction ls as [|l ls IH]; [done|].
  simpl. by rewrite map_app, vsum_app, IH.
Qed.

Lemma INR_length_concat {A} (ls : list (list A)) :
  INR (length (concat ls)) = vsum (map (fun l => INR (length l)) ls).
Proof.
  induction ls as [|l ls IH]; [done|].
  simpl. by rewrite length_app, plus_INR, IH.
Qed.

Lemma vsum_map_pos_in {A} (f : A -> R) (l : list A) :
  l <> [] -> (forall x, x ∈ l -> 0 < f x) -> 0 < vsum (map f l).
Proof.
  intros Hne Hf. destruct l as [|x l]; [done|]. clear Hne. simpl.
  assert (0 <= vsum (map f l)).
  { assert (Hl : forall y, y ∈ l -> 0 < f y)
      by (intros y Hy; apply Hf; by apply list_elem_of_further).
    clear Hf. induction l as [|y l IH]; simpl; [lra|].
    pose proof (Hl y (list_elem_of_here _ _)).
    assert (0 <= vsum (map f l)); [|lra].
    apply IH. intros z Hz. apply Hl. by apply list_elem_of_further. }
  pose proof (Hf x (list_elem_of_here _ _)). lra.
Qed.

Section JoinedMeans.
Context {W : Type}.
Variable parts : list (list W).
Variables rho wt : W -> R.
Hypothesis parts_nonempty : parts <> [].
Hypothesis part_nonempty : Forall (fun part => part <> []) parts.
Hypothesis rho_pos : forall w, 0 < rho w.
Hypothesis wt_pos : forall w, 0 < wt w.

Local Abbreviation size := (fun part : list W => INR (length part)).
Local Abbreviation nbar := (mean (map size parts)).
Local Abbreviation conf := (fun part : list W => size part / nbar).
Local Abbreviation rmean := (fun part : list W => mean (map rho part)).
Local Abbreviation wmean := (fun part : list W => mean (map wt part) / rmean part).

Lemma size_pos (part : list W) : part ∈ parts -> 0 < size part.
Proof.
  intros Hin. apply lt_0_INR.
  pose proof (proj1 (Forall_forall _ _) part_nonempty part Hin).
  destruct part; [done|simpl; lia].
Qed.

Lemma joined_size_pos : 0 < INR (length (concat parts)).
Proof.
  rewrite INR_length_concat. apply vsum_map_pos_in; [done|]. apply size_pos.
Qed.

Lemma nbar_eq : nbar = INR (length (concat parts)) / INR (length parts).
Proof. unfold mean. by rewrite length_map, INR_length_concat. Qed.

Lemma nparts_pos : 0 < INR (length parts).
Proof. apply lt_0_INR. destruct parts; [done|simpl; lia]. Qed.

Lemma nbar_pos : 0 < nbar.
Proof.
  rewrite nbar_eq. apply Rdiv_lt_0_compat; [apply joined_size_pos|apply nparts_pos].
Qed.

Lemma part_sum_pos (f : W -> R) (part : list W) :
  (forall w, 0 < f w) -> part ∈ parts -> 0 < vsum (map f part).
Proof.
  intros Hf Hin. apply vsum_pos_map; [|done].
  by apply (proj1 (Forall_forall _ _) part_nonempty part Hin).
Qed.

Lemma joined_rho_sum :
  vsum (map (fun part => rmean part * conf part) parts)
  = vsum (map rho (concat parts)) / nbar.
Proof.
  rewrite vsum_concat_map, <- vsum_map_div.
  apply vsum_map_ext_in. intros part Hin.
  pose proof (size_pos part Hin). pose proof nbar_pos.
  unfold mean at 1. rewrite length_map. field. split; lra.
Qed.

Lemma joined_wt_sum :
  vsum (map (fun part => wmean part * (rmean part * conf part)) parts)
  = vsum (map wt (concat parts)) / nbar.
Proof.
  rewrite vsum_concat_map, <- vsum_map_div.
  apply vsum_map_ext_in. intros part Hin.
  pose proof (size_pos part Hin). pose proof nbar_pos.
  pose proof (part_sum_pos rho part rho_pos Hin).
  unfold mean at 1 2 3. rewrite !length_map. field. repeat split; lra.
Qed.

Lemma joined_rhoprime :
  mean (map (fun part => rmean part * conf part) parts) = mean (map rho (concat parts)).
Proof.
  unfold mean at 1. rewrite length_map, joined_rho_sum, nbar_eq.
  unfold mean. rewrite length_map.
  pose proof joined_size_pos. pose proof nparts_pos. field. split; lra.
Qed.

Lemma joined_weight :
  average (map wmean parts) (map (fun part => rmean part * conf part) parts)
  = Some (mean (map wt (concat parts)) / mean (map rho (concat parts))).
Proof.
  unfold average. rewrite joined_rho_sum.
  assert (Hrho : 0 < vsum (map rho (concat parts))).
  { rewrite vsum_concat_map. apply vsum_map_pos_in; [done|].
    intros part Hin. by apply part_sum_pos. }
  pose proof nbar_pos. pose proof joined_size_pos.
  rewrite decide_False.
  2:{ apply Rgt_not_eq. apply Rdiv_lt_0_compat; lra. }
  f_equal. rewrite zip_with_map_map, joined_wt_sum.
  set (nb := mean (map (fun part : list W => INR (length part)) parts)) in *.
  unfold mean. rewrite !length_map. field. repeat split; lra.
Qed.

Lemma joined_total_weights :
  vsum (zip_with Rmult (map wmean parts) (map (fun part => rmean part * conf part) parts))
  <> 0.
Proof.
  rewrite zip_with_map_map, joined_wt_sum.
  assert (Hwt : 0 < vsum (map wt (concat parts))).
  { rewrite vsum_concat_map. apply vsum_map_pos_in; [done|].
    intros part Hin. by apply part_sum_pos. }
  pose proof nbar_pos. apply Rgt_not_eq. apply Rdiv_lt_0_compat; lra.
Qed.
End JoinedMeans.

Lemma mapM_Forall {A B} (f : A -> error + B) (P : A -> B -> Prop) (l : list A) :
  Forall (fun x => exists y, f x = inr y /\ P x y) l ->
  exists ys, mapM f l = inr ys /\ Forall2 P l ys.
Proof.
  induction 1 as [|x l (y & Hy & HP) _ (ys & IH & HF)].
  - exists []. split; [done|constructor].
  - exists (y :: ys). simpl. rewrite Hy, bind_inr, IH, bind_inr. split; [done|].
    by constructor.
Qed.

Lemma mapM_map_Forall {A A' B} (f : A' -> error + B) (g : A -> A') (P : A -> B -> Prop)
    (l : list A) :
  Forall (fun x => exists y, f (g x) = inr y /\ P x y) l ->
  exists ys, mapM f (map g l) = inr ys /\ Forall2 P l ys.
Proof.
  induction 1 as [|x l (y & Hy & HP) _ (ys & IH & HF)].
  - exists []. split; [done|constructor].
  - exists (y :: ys). simpl. rewrite Hy, bind_inr, IH, bind_inr. split; [done|].
    by constructor.
Qed.

Lemma Forall2_map_eq {A B C} (g : B -> C) (h : A -> C) (l : list A) (ds : list B) :
  Forall2 (fun x d => g d = h x) l ds -> map g ds = map h l.
Proof. induction 1 as [|x d l ds Hx _ IH]; simpl; [done|]. by rewrite Hx, IH. Qed.

Lemma entry1_map_times (v : vec) (c : R) (p : nat) :
  (p < length v)%nat -> entry1 (map (fun x => x * c) v) p = entry1 v p * c.
Proof.
  intros Hp. destruct (lookup_lt_is_Some_2 v p Hp) as [x Hx].
  rewrite (entry1_lookup v p x Hx).
  apply entry1_lookup. by rewrite list_lookup_fmap, Hx.
Qed.

Lemma entry1_zip_with_mult (u v : vec) (p : nat) :
  (p < length u)%nat -> (p < length v)%nat ->
  entry1 (zip_with Rmult u v) p = entry1 u p * entry1 v p.
Proof.
  intros Hu Hv. destruct (lookup_lt_is_Some_2 u p Hu) as [x Hx].
  destruct (lookup_lt_is_Some_2 v p Hv) as [y Hy].
  rewrite (entry1_lookup u p x Hx), (entry1_lookup v p y Hy).
  apply entry1_lookup. by rewrite lookup_zip_with, Hx; simpl; rewrite Hy.
Qed.

Section DistJoined.
Context {Walker : Type} {Tr : Transform} {Acc : Accumulator Walker}.

Lemma parameters_active_after (configs : list Walker) (a : wavefunction Walker)
    (cands : list vec) :
  parameters (active_after configs a cands)
  = foldl (fun P c => deserialize c ∪ P) (parameters a) cands.
Proof.
  unfold active_after. revert a.
  induction cands as [|c cs IH]; intros a; [done|]. simpl. by rewrite IH.
Qed.

(** The candidate's values do not depend on the ensemble it was last
    recomputed on. *)
Lemma logmag_active_after (configs configs' : list Walker) (act : wavefunction Walker)
    (cands : list vec) (w : Walker) :
  let cand := active_after configs (recomputed configs act) cands in
  let cand' := active_after configs' (recomputed configs' act) cands in
  logmag_at cand (parameters cand) w = logmag_at cand' (parameters cand') w.
Proof.
  intros cand cand'. subst cand cand'. unfold logmag_at, amp.
  by rewrite !active_after_amplitude, !parameters_active_after.
Qed.

Lemma spec_wt_ext (wfs : list (wavefunction Walker)) (cand cand' : wavefunction Walker)
    (w : Walker) :
  logmag_at cand (parameters cand) w = logmag_at cand' (parameters cand') w ->
  spec_wt wfs cand w = spec_wt wfs cand' w.
Proof. intros H. unfold spec_wt. by rewrite H. Qed.

Lemma density_ratio_ext (wfs : list (wavefunction Walker))
    (cand cand' : wavefunction Walker) (w : Walker) :
  logmag_at cand (parameters cand) w = logmag_at cand' (parameters cand') w ->
  density_ratio wfs cand w = density_ratio wfs cand' w.
Proof. intros H. unfold density_ratio. by rewrite H. Qed.

Lemma density_ratio_pos (wfs : list (wavefunction Walker)) (cand : wavefunction Walker)
    (w : Walker) :
  wfs <> [] -> 0 < density_ratio wfs cand w.
Proof.
  intros Hne. unfold density_ratio. apply Rdiv_lt_0_compat.
  - assert (0 <= vsum (map (fun wf => exp (2 * logmag_at wf (parameters wf) w))
                           (removelast wfs))).
    { induction (removelast wfs) as [|r l IH]; simpl; [lra|].
      pose proof (exp_pos (2 * logmag_at r (parameters r) w)). lra. }
    pose proof (exp_pos (2 * logmag_at cand (parameters cand) w)). lra.
  - apply vsum_pos_map; [done|]. intros. apply exp_pos.
Qed.

(** What one partition returns, with the candidates written as on the
    ensemble [all]. *)
Definition partition_fits (refs : list (wavefunction Walker)) (act : wavefunction Walker)
    (cands : list vec) (all configs : list Walker) (d : corr_data) : Prop :=
  length (data_total d) = length cands /\
  length (data_weight d) = length cands /\
  length (data_rhoprime d) = length cands /\
  forall p, (p < length cands)%nat ->
    let cand := active_after all (recomputed all act) (take (S p) cands) in
    entry1 (data_rhoprime d) p = mean (map (density_ratio (refs ++ [act]) cand) configs) /\
    entry1 (data_weight d) p
    = mean (map (spec_wt (refs ++ [act]) cand) configs)
      / mean (map (density_ratio (refs ++ [act]) cand) configs).

Lemma partition_result refs act cands (all configs : list Walker) :
  configs <> [] ->
  Forall (fun wf => is_Some (eval_at wf (parameters wf) configs)) (refs ++ [act]) ->
  candidates_ok configs (recomputed configs act) cands ->
  exists d, (correlated_sample configs cands (refs ++ [act])).1 = inr d /\
            partition_fits refs act cands all configs d.
Proof.
  intros Hc Hbase Hcands.
  destruct (correlated_sample_ok configs refs act cands Hc Hbase Hcands)
    as (ref & rows & Href & Hrun & Hlen & Hrows).
  eexists. rewrite Hrun. split; [reflexivity|].
  unfold partition_fits. simpl. rewrite !length_map.
  split; [done|]. split; [done|]. split; [done|].
  intros p Hp. destruct (Hrows p Hp) as (E & _ & Hr).
  assert (Hne : refs ++ [act] <> []) by (by destruct refs).
  set (candi := active_after configs (recomputed configs act) (take (S p) cands)) in *.
  set (cand := active_after all (recomputed all act) (take (S p) cands)).
  assert (H1 : map (spec_rhoprime ref (refs ++ [act]) candi) configs
               = map (density_ratio (refs ++ [act]) cand) configs).
  { apply map_ext. intros w. rewrite spec_rhoprime_density by done.
    apply density_ratio_ext, logmag_active_after. }
  assert (H2 : map (spec_wt (refs ++ [act]) candi) configs
               = map (spec_wt (refs ++ [act]) cand) configs).
  { apply map_ext. intros w. apply spec_wt_ext, logmag_active_after. }
  split.
  - erewrite entry1_lookup by (rewrite list_lookup_fmap, Hr; reflexivity).
    simpl. by rewrite H1.
  - erewrite entry1_lookup by (rewrite list_lookup_fmap, Hr; reflexivity).
    simpl. by rewrite H1, H2.
Qed.
End DistJoined.

Section DistJoinedMain.
Context {Walker : Type} {Tr : Transform} {Acc : Accumulator Walker}.

Lemma column_rhowt (parts : list (list Walker)) (ds : list corr_data)
    (rm cf : list Walker -> R) (p : nat) :
  Forall2 (fun part d => (p < length (data_rhoprime d))%nat /\
                         entry1 (data_rhoprime d) p = rm part) parts ds ->
  column (zip_with (fun r c => map (fun x => x * c) (data_rhoprime r)) ds (map cf parts)) p
  = map (fun part => rm part * cf part) parts.
Proof.
  unfold column. induction 1 as [|part d parts ds [Hp Hd] _ IH]; simpl; [done|].
  rewrite IH. f_equal. by rewrite entry1_map_times, Hd.
Qed.

Lemma column_wt (parts : list (list Walker)) (ds : list corr_data)
    (rm wm cf : list Walker -> R) (p : nat) :
  Forall2 (fun part d => (p < length (data_rhoprime d))%nat /\
                         (p < length (data_weight d))%nat /\
                         entry1 (data_rhoprime d) p = rm part /\
                         entry1 (data_weight d) p = wm part) parts ds ->
  column (zip_with (zip_with Rmult) (map data_weight ds)
            (zip_with (fun r c => map (fun x => x * c) (data_rhoprime r)) ds (map cf parts))) p
  = map (fun part => wm part * (rm part * cf part)) parts.
Proof.
  unfold column. induction 1 as [|part d parts ds (Hp & Hq & Hd & Hw) _ IH]; simpl; [done|].
  rewrite IH. f_equal.
  rewrite entry1_zip_with_mult, entry1_map_times, Hd, Hw; try done.
  by rewrite length_map.
Qed.

(** The distributed correlated sampler on partitions of an ensemble: when
    every partition holds walkers and every evaluation returns, the call
    returns, and its ["rhoprime"] and ["weight"] are those of the joined
    ensemble: the mean over all walkers of [rho' / rho], and the mean over
    all walkers of [wt] divided by it, which is what [correlated_sample]
    returns on the whole ensemble. *)
Theorem dist_correlated_sample_joined (parts : list (list Walker))
    (refs : list (wavefunction Walker)) (act : wavefunction Walker) (cands : list vec) :
  parts <> [] ->
  Forall (fun configs =>
            configs <> [] /\
            Forall (fun wf => is_Some (eval_at wf (parameters wf) configs)) (refs ++ [act]) /\
            candidates_ok configs (recomputed configs act) cands) parts ->
  let all := concat parts in
  let runs := map (fun configs =>
                     CorrRun (length configs)
                             (correlated_sample configs cands (refs ++ [act])).1) parts in
  exists df,
    dist_correlated_sample runs = inr df /\
    forall p, (p < length cands)%nat ->
      let cand := active_after all (recomputed all act) (take (S p) cands) in
      dist_rhoprime df !! p
      = Some (mean (map (density_ratio (refs ++ [act]) cand) all)) /\
      dist_weight df !! p
      = Some (mean (map (spec_wt (refs ++ [act]) cand) all)
              / mean (map (density_ratio (refs ++ [act]) cand) all)).
Proof.
  intros Hparts Hok all runs.
  assert (Hwfs : refs ++ [act] <> []) by (by destruct refs).
  assert (Hne : Forall (fun part : list Walker => part <> []) parts).
  { eapply Forall_impl; [exact Hok|]. simpl. tauto. }
  destruct (mapM_map_Forall crun_result
              (fun configs => CorrRun (length configs)
                                      (correlated_sample configs cands (refs ++ [act])).1)
              (partition_fits refs act cands all) parts)
    as (ds & Hds & Hfit').
  { eapply Forall_impl; [exact Hok|].
    intros configs (Hc & Hb & Hk). simpl.
    exact (partition_result refs act cands all configs Hc Hb Hk). }
  fold runs in Hds.
  destruct ds as [|d0 ds0] eqn:Eds.
  { apply Forall2_nil_inv_r in Hfit'. done. }
  rewrite <- Eds in *.
  assert (Hncand : length (data_total d0) = length cands).
  { rewrite Eds in Hfit'. apply Forall2_cons_inv_r in Hfit' as (part & ? & Hf & _ & _).
    by destruct Hf. }
  set (cand := fun p => active_after all (recomputed all act) (take (S p) cands)).
  set (rm := fun p (part : list Walker) =>
               mean (map (density_ratio (refs ++ [act]) (cand p)) part)).
  set (wm := fun p (part : list Walker) =>
               mean (map (spec_wt (refs ++ [act]) (cand p)) part) / rm p part).
  set (cf := fun part : list Walker =>
               INR (length part) / mean (map (fun part : list Walker => INR (length part)) parts)).
  assert (Hconf : map (fun s => s / mean (map (fun r => INR (crun_size r)) runs))
                      (map (fun r => INR (crun_size r)) runs)
                  = map cf parts).
  { subst runs cf. rewrite !map_map. simpl. done. }
  assert (Hcols : forall p, (p < length cands)%nat ->
            Forall2 (fun part d => (p < length (data_rhoprime d))%nat /\
                                   (p < length (data_weight d))%nat /\
                                   entry1 (data_rhoprime d) p = rm p part /\
                                   entry1 (data_weight d) p = wm p part) parts ds).
  { intros p Hp. eapply Forall2_impl; [exact Hfit'|]. simpl.
    intros part d (_ & Hlw & Hlr & Hent). destruct (Hent p Hp) as [H1 H2].
    split; [lia|]. split; [lia|]. split; [exact H1|]. subst wm rm. simpl. by rewrite H2. }
  assert (Hrhowt : forall p, (p < length cands)%nat ->
            column (zip_with (fun r c => map (fun x => x * c) (data_rhoprime r)) ds
                             (map cf parts)) p
            = map (fun part => rm p part * cf part) parts).
  { intros p Hp. apply column_rhowt. eapply Forall2_impl; [exact (Hcols p Hp)|].
    simpl. tauto. }
  assert (Hwt : forall p, (p < length cands)%nat ->
            column (zip_with (zip_with Rmult) (map data_weight ds)
                      (zip_with (fun r c => map (fun x => x * c) (data_rhoprime r)) ds
                                (map cf parts))) p
            = map (fun part => wm p part * (rm p part * cf part)) parts).
  { intros p Hp. apply (column_wt parts ds (rm p) (wm p) cf p). exact (Hcols p Hp). }
  assert (Hweights : forall p, (p < length cands)%nat ->
            column (map data_weight ds) p = map (wm p) parts).
  { intros p Hp. unfold column. rewrite map_map.
    apply Forall2_map_eq. eapply Forall2_impl; [exact (Hcols p Hp)|]. simpl. tauto. }
  assert (Hrho_pos : forall p w, 0 < density_ratio (refs ++ [act]) (cand p) w)
    by (intros; by apply density_ratio_pos).
  assert (Hwt_pos : forall p w, 0 < spec_wt (refs ++ [act]) (cand p) w)
    by (intros; by apply spec_wt_pos).
  unfold dist_correlated_sample. rewrite Hds, bind_inr.
  replace (match head ds with Some r => inr r | None => inl IndexError end)
    with (@inr error corr_data d0) by (by rewrite Eds).
  rewrite bind_inr, Hncand, Hconf.
  destruct (mapM_Forall
              (fun p => match average (column (map data_total ds) p)
                                      (column (zip_with (zip_with Rmult) (map data_weight ds)
                                                 (zip_with (fun r c => map (fun x => x * c)
                                                                           (data_rhoprime r))
                                                           ds (map cf parts))) p)
                        with Some x => inr x | None => inl ZeroDivisionError end)
              (fun _ _ => True) (seq 0 (length cands))) as (total & Htotal & _).
  { apply Forall_forall. intros p Hp. apply elem_of_seq in Hp.
    rewrite Hwt by lia. unfold average at 1. rewrite decide_False; [by eexists|].
    pose proof (joined_total_weights parts (density_ratio (refs ++ [act]) (cand p))
                  (spec_wt (refs ++ [act]) (cand p)) Hparts Hne (Hrho_pos p) (Hwt_pos p)) as H.
    rewrite zip_with_map_map in H. exact H. }
  unfold average_axis0. rewrite Htotal, bind_inr.
  unfold average_overlap. rewrite decide_False.
  2:{ subst cf. rewrite (vsum_map_div (fun part : list Walker => INR (length part))).
      rewrite <- INR_length_concat.
      pose proof (joined_size_pos parts Hparts Hne).
      pose proof (nbar_pos parts Hparts Hne).
      apply Rgt_not_eq. apply Rdiv_lt_0_compat; lra. }
  rewrite bind_inr.
  rewrite (mapM_inr_map_in _
             (fun p => mean (map (spec_wt (refs ++ [act]) (cand p)) all)
                       / mean (map (density_ratio (refs ++ [act]) (cand p)) all))).
  2:{ intros p Hp. apply elem_of_seq in Hp. rewrite Hweights, Hrhowt by lia.
      subst wm rm cf. simpl.
      by rewrite (joined_weight parts (density_ratio (refs ++ [act]) (cand p))
                    (spec_wt (refs ++ [act]) (cand p)) Hparts Hne (Hrho_pos p)). }
  rewrite bind_inr. eexists. split; [reflexivity|]. simpl.
  intros p Hp. rewrite !list_lookup_fmap, !lookup_seq_lt by done. simpl.
  split; [|done]. f_equal. rewrite Hrhowt by done.
  apply (joined_rhoprime parts (density_ratio (refs ++ [act]) (cand p)) Hparts Hne).
Qed.
End DistJoinedMain.

Lemma dist_correlated_sample_failure_witness :
  dist_correlated_sample ([CorrRun 1 (inr ex_corr_data)] ++ CorrRun 1 (inl Raised) :: [])
  = inl Raised.
Proof.
  apply (proj2 dist_correlated_sample_failure).
  - constructor; [by eexists|constructor].
  - reflexivity.
Defined.

Lemma dist_correlated_sample_single_witness :
  dist_correlated_sample [CorrRun 3 (inr ex_corr_data)]
  = inr (DistCorrData [1] [1/2] [[1; 1]] [1] [[1/2; 1/2]]).
Proof.
  apply (dist_correlated_sample_single 3 ex_corr_data).
  - lia.
  - reflexivity.
  - reflexivity.
  - reflexivity.
  - repeat constructor.
  - repeat constructor. simpl. lra.
  - repeat constructor. simpl. lra.
Defined.

Lemma dist_correlated_sample_joined_witness :
  let all := concat [[()]; [()]] in
  let runs := map (fun configs =>
                     CorrRun (length configs)
                             (correlated_sample (Tr := ex_transform) (Acc := ex_accumulator)
                                                configs [[1]] ex_wfs).1)
                  [[()]; [()]] in
  exists df,
    dist_correlated_sample runs = inr df /\
    forall p, (p < 1)%nat ->
      let cand := active_after (Tr := ex_transform) all (recomputed all ex_active)
                               (take (S p) [[1]]) in
      dist_rhoprime df !! p = Some (mean (map (density_ratio ex_wfs cand) all)) /\
      dist_weight df !! p
      = Some (mean (map (spec_wt ex_wfs cand) all) / mean (map (density_ratio ex_wfs cand) all)).
Proof.
  apply (dist_correlated_sample_joined (Tr := ex_transform) (Acc := ex_accumulator)
           [[()]; [()]] [ex_reference] ex_active [[1]]).
  - done.
  - repeat constructor; try done; try (by eexists).
Defined.

(** ** The distributed overlap sampler: the futures and the ensemble *)

Lemma combine_runs_inr {Walker} (nruns : nat) (runs : list (partition_run Walker)) :
  forall cws df fc df' fc',
    combine_runs nruns cws runs df fc = inr (df', fc') ->
    fc' = fc ++ map run_configs runs /\
    Forall (fun r => exists stats configs w,
              run_result r = inr (stats, configs) /\ item "weight" stats = inr w) runs.
Proof.
  induction runs as [|r runs IH]; intros cws df fc df' fc'.
  - simpl. intros [= <- <-]. by rewrite app_nil_r.
  - destruct cws as [|cw cws]; [done|]. simpl.
    destruct (run_result r) as [e|[stats configs]] eqn:Hr; [done|]. rewrite bind_inr. simpl.
    destruct (item "weight" stats) as [e|w] eqn:Hw; [done|]. rewrite bind_inr.
    destruct (combine_keys _ _ _ _ _) as [e|df1]; [done|]. rewrite bind_inr.
    intros Hrest. destruct (IH _ _ _ _ _ Hrest) as [Hfc Hall]. split.
    + rewrite Hfc, <- app_assoc. simpl. unfold run_configs at 2. by rewrite Hr.
    + constructor; [|done]. by exists stats, configs, w.
Qed.

(** [dist_sample_overlap] returns only if every future returned a result
    that holds a ["weight"], and the ensemble it returns is the join of the
    partitions' ensembles, in the order of the partitions. *)
Theorem dist_sample_overlap_ensemble {Walker} (runs : list (partition_run Walker))
    (df : gmap string ndarray) (configs : list Walker) :
  dist_sample_overlap runs = inr (df, configs) ->
  configs = concat (map run_configs runs) /\
  runs <> [] /\
  Forall (fun r => exists stats configs w,
            run_result r = inr (stats, configs) /\ item "weight" stats = inr w) runs.
Proof.
  unfold dist_sample_overlap.
  destruct (combine_runs _ _ _ _ _) as [e|[df0 fc]] eqn:Hc; [done|]. rewrite bind_inr.
  apply combine_runs_inr in Hc as [-> Hall].
  destruct (last runs) as [r|] eqn:Hl; [|done].
  destruct (run_result r) as [e|res]; [done|]. rewrite !bind_inr.
  change (mret (map fst res.1)) with (@inr error _ (map fst res.1)). rewrite bind_inr.
  destruct (normalize_keys _ _ _) as [e|df1]; [done|]. rewrite bind_inr.
  intros [= _ <-]. split; [done|]. split; [|done]. intros ->. done.
Qed.

(** The failures of [dist_sample_overlap] that come before any arithmetic:
    with no partition the second loop finds [keys] unbound ([NameError]);
    the exception of the first future is raised as it is; a first result
    without ["weight"] raises [KeyError]. *)
Theorem dist_sample_overlap_failures {Walker} :
  dist_sample_overlap (@nil (partition_run Walker)) = inl NameError /\
  (forall (r : partition_run Walker) rest e,
     run_result r = inl e -> dist_sample_overlap (r :: rest) = inl e) /\
  (forall (r : partition_run Walker) rest stats configs,
     run_result r = inr (stats, configs) -> item "weight" stats = inl KeyError ->
     dist_sample_overlap (r :: rest) = inl KeyError).
Proof.
  split; [done|]. split.
  - intros r rest e Hr. unfold dist_sample_overlap. simpl. by rewrite Hr.
  - intros r rest stats configs Hr Hw. unfold dist_sample_overlap. simpl.
    rewrite Hr, bind_inr. simpl. by rewrite Hw.
Qed.

Lemma ex_dist_returns :
  exists df configs, dist_sample_overlap ex_runs = inr (df, configs).
Proof. eexists _, _. vm_compute. reflexivity. Qed.

Lemma dist_sample_overlap_ensemble_witness :
  exists df configs,
    dist_sample_overlap ex_runs = inr (df, configs) /\
    configs = concat (map run_configs ex_runs) /\
    ex_runs <> [] /\
    Forall (fun r => exists stats configs w,
              run_result r = inr (stats, configs) /\ item "weight" stats = inr w) ex_runs.
Proof.
  destruct ex_dist_returns as (df & configs & Hrun).
  exists df, configs. split; [exact Hrun|].
  exact (dist_sample_overlap_ensemble ex_runs df configs Hrun).
Defined.

Lemma dist_sample_overlap_failures_witness :
  dist_sample_overlap [PartitionRun 1 (inl Raised); PartitionRun (Walker := unit) 1 (inl Raised)]
  = inl Raised /\
  dist_sample_overlap [PartitionRun 1 (inr ([("total"%string, NDArray [1%nat] [2])], [()]))]
  = inl KeyError.
Proof.
  split.
  - apply (proj1 (proj2 dist_sample_overlap_failures)). reflexivity.
  - apply (proj2 (proj2 dist_sample_overlap_failures)) with
      (stats := [("total"%string, NDArray [1%nat] [2])]) (configs := [()]); reflexivity.
Defined.

(** ** The overlap sampler: the whole run *)

Section SampleOverlapRun.
Context {Walker : Type} {Acc : Accumulator Walker} {Dyn : Dynamics Walker}.

Lemma after_sweeps_add (t u : nat) (st : sampler_state Walker Rng) :
  after_sweeps t (after_sweeps u st) = after_sweeps (t + u) st.
Proof. unfold after_sweeps. by rewrite Nat.iter_add. Qed.

Lemma after_sweeps_length (u : nat) (st : sampler_state Walker Rng) :
  length (st_wfs (after_sweeps u st)) = length (st_wfs st).
Proof. destruct u as [|u]; [done|]. by rewrite after_sweeps_wfs, length_map. Qed.

Lemma after_sweeps_snoc (u : nat) (st : sampler_state Walker Rng) refs act :
  st_wfs st = refs ++ [act] ->
  exists refs' act', st_wfs (after_sweeps u st) = refs' ++ [act'].
Proof.
  intros Hw. destruct u as [|u]; [by exists refs, act|].
  rewrite after_sweeps_wfs, Hw, map_app. by eexists _, _.
Qed.

Lemma sweeps_ok_shift (N n u : nat) (st : sampler_state Walker Rng) :
  sweeps_ok N st -> (u + n <= N)%nat -> sweeps_ok n (after_sweeps u st).
Proof.
  intros Hok Hle t Ht. rewrite after_sweeps_add.
  specialize (Hok (t + u)%nat ltac:(lia)).
  destruct u as [|u]; [done|].
  rewrite after_sweeps_wfs. apply Forall_fmap.
  eapply Forall_impl; [exact Hok|]. intros wf H. unfold compose.
  by rewrite eval_at_recomputed.
Qed.

Lemma shapes_stable_shift (N n u : nat) (st : sampler_state Walker Rng) :
  shapes_stable N st -> (u + n <= N)%nat -> shapes_stable n (after_sweeps u st).
Proof.
  intros Hs Hle t t' k sd sd' x x' Ht Ht'. rewrite !after_sweeps_add.
  apply Hs; lia.
Qed.

Lemma run_block_inv (n : nat) (st : sampler_state Walker Rng) refs act :
  st_wfs st = refs ++ [act] -> (0 < n)%nat ->
  sweeps_ok n st -> shapes_stable n st -> avg_leaves_overlap ->
  exists b,
    run_block n st = (inr b, after_sweeps n st) /\
    (forall k y, b !! k = Some y ->
       exists t sd x, (1 <= t <= n)%nat /\ stats_of (after_sweeps t st) = Some sd /\
                      sd !! k = Some x /\ shape y = shape x) /\
    b !! "overlap"%string = Some (nd_matrix (length (st_wfs st)) (block_overlap n st)).
Proof.
  intros Hw Hn Hok Hshape Havg.
  destruct (run_steps_inv n n st refs act Hw Hok Hshape Havg n 0%nat ∅ ltac:(lia))
    as (b' & Hrun & Hkeys & Hov).
  { split; [|done]. intros k y Hy. by rewrite lookup_empty in Hy. }
  exists b'. split; [exact Hrun|]. split; [exact Hkeys|]. simpl in Hov.
  destruct n as [|n]; [lia|]. rewrite Hov.
  unfold nd_matrix, block_overlap. rewrite length_map. do 2 f_equal.
  rewrite (concat_map_map_prod
             (fun wfi wfj =>
                mean (map (fun t => sampler_overlap (st_configs (after_sweeps t st))
                                                    (st_wfs st) wfi wfj)
                          (seq 1 (S n))))).
  apply map_ext. intros p. unfold mean.
  rewrite length_map, length_seq. apply vsum_map_div.
Qed.

Lemma store_block_is_Some nb b (rd : gmap string (list ndarray)) ba :
  (forall k x, ba !! k = Some x -> is_Some (store_key nb b (rd !! k) x)) ->
  is_Some (store_block nb b rd ba).
Proof.
  intros Hk. unfold store_block. rewrite decide_True; [by eexists|].
  intros k o. rewrite lookup_merge.
  destruct (ba !! k) as [x|] eqn:Es, (rd !! k) as [y|] eqn:Eb; simpl;
    intros [= <-]; try (by eexists).
  - specialize (Hk k x Es). by rewrite Eb in Hk.
  - specialize (Hk k x Es). by rewrite Eb in Hk.
Qed.
End SampleOverlapRun.

Section SampleOverlapWhole.
Context {Walker : Type} {Acc : Accumulator Walker} {Dyn : Dynamics Walker}.
Variables nb nspb : nat.
Variable st1 : sampler_state Walker Rng.
Variable refs : list (wavefunction Walker).
Variable act : wavefunction Walker.
Hypothesis Hw : st_wfs st1 = refs ++ [act].
Hypothesis Hn : (0 < nspb)%nat.
Hypothesis Hok : sweeps_ok (nb * nspb) st1.
Hypothesis Hshape : shapes_stable (nb * nspb) st1.
Hypothesis Havg : avg_leaves_overlap.

(** The state at the start of block [j]. *)
Local Abbreviation start := (fun j : nat => after_sweeps (j * nspb) st1).

(** What holds of [return_data] before block [j]. *)
Definition blocks_inv (j : nat) (rd : gmap string (list ndarray)) : Prop :=
  (forall k rows, rd !! k = Some rows ->
     length rows = nb /\
     Forall (fun row => exists t sd x,
               (1 <= t <= nb * nspb)%nat /\
               stats_of (after_sweeps t st1) = Some sd /\
               sd !! k = Some x /\ shape row = shape x) rows) /\
  match j with
  | O => rd = ∅
  | S _ =>
      exists rows, rd !! "overlap"%string = Some rows /\
        forall j', (j' < j)%nat ->
          rows !! j' = Some (nd_matrix (length (st_wfs st1))
                                       (block_overlap nspb (start j')))
  end.

Lemma run_blocks_inv (m : nat) : forall j rd,
  (j + m = nb)%nat -> blocks_inv j rd ->
  exists rd',
    run_blocks (seq j m) nb nspb rd (start j) = (inr rd', start (j + m)%nat) /\
    blocks_inv (j + m) rd'.
Proof.
  induction m as [|m IH]; intros j rd Hj Hinv.
  - exists rd. rewrite Nat.add_0_r. done.
  - cbn [seq run_blocks]. rewrite M_bind_run.
    destruct (after_sweeps_snoc (j * nspb) st1 refs act Hw) as (refs' & act' & Hw').
    assert (Hle : (j * nspb + nspb <= nb * nspb)%nat) by nia.
    destruct (run_block_inv nspb (start j) refs' act' Hw' Hn
                (sweeps_ok_shift _ _ _ _ Hok Hle) (shapes_stable_shift _ _ _ _ Hshape Hle) Havg)
      as (b & Hrun & Hkeys & Hov).
    rewrite Hrun, M_bind_run.
    assert (Hglobal : forall k y, b !! k = Some y ->
              exists t sd x, (1 <= t <= nb * nspb)%nat /\
                stats_of (after_sweeps t st1) = Some sd /\ sd !! k = Some x /\
                shape y = shape x).
    { intros k y Hy. destruct (Hkeys k y Hy) as (t & sd & x & Ht & Hsd & Hx & Hs).
      rewrite after_sweeps_add in Hsd. exists (t + j * nspb)%nat, sd, x.
      split; [lia|done]. }
    destruct Hinv as [Hrows Hovl].
    destruct (store_block_is_Some nb j rd b) as [rd1 Hst].
    { intros k x Hx. unfold store_key. rewrite decide_True; [by eexists|].
      destruct (Hglobal k x Hx) as (t & sd & x' & Ht & Hsd & Hx' & Hs).
      destruct (rd !! k) as [rows|] eqn:Hrd; simpl.
      - destruct (Hrows k rows Hrd) as [_ HF]. eapply Forall_impl; [exact HF|].
        simpl. intros row (t2 & sd2 & x2 & Ht2 & Hsd2 & Hx2 & Hs2).
        rewrite Hs, Hs2. by apply (Hshape t2 t k sd2 sd x2 x').
      - by apply Forall_replicate. }
    rewrite Hst. cbn [lift]. unfold mret at 1, M_ret. cbv beta.
    rewrite after_sweeps_add.
    change (nspb + j * nspb)%nat with (S j * nspb)%nat.
    replace (j + S m)%nat with (S j + m)%nat by lia.
    apply IH; [lia|]. split.
    + intros k rows Hk. rewrite (store_block_lookup _ _ _ _ _ k Hst) in Hk.
      destruct (b !! k) as [x|] eqn:Hb; [|by apply Hrows].
      unfold store_key in Hk. destruct (decide _) as [HF|]; [|done].
      injection Hk as <-.
      assert (Hlen : length (default (replicate nb (nd_zeros (shape x))) (rd !! k)) = nb).
      { destruct (rd !! k) as [rows|] eqn:Hrd; simpl; [by apply (Hrows k)|].
        by rewrite length_replicate. }
      split; [by rewrite length_insert|].
      destruct (Hglobal k x Hb) as (t & sd & x' & Ht & Hsd & Hx' & Hs).
      apply Forall_insert.
      * eapply Forall_impl; [exact HF|]. simpl. intros row Hrow.
        exists t, sd, x'. rewrite Hrow. done.
      * by exists t, sd, x'.
    + rewrite (store_block_lookup _ _ _ _ _ "overlap"%string Hst), Hov.
      unfold store_key. rewrite decide_True.
      2:{ destruct (Hglobal _ _ Hov) as (t & sd & x' & Ht & Hsd & Hx' & Hs).
          destruct (rd !! "overlap"%string) as [rows|] eqn:Hrd; cbn [default].
          - destruct (Hrows _ rows Hrd) as [_ HF]. eapply Forall_impl; [exact HF|].
            cbv beta. intros row (t2 & sd2 & x2 & Ht2 & Hsd2 & Hx2 & Hs2).
            rewrite Hs, Hs2. by apply (Hshape t2 t "overlap"%string sd2 sd x2 x').
          - by apply Forall_replicate. }
      eexists. split; [reflexivity|]. intros j' Hj'.
      rewrite after_sweeps_length.
      assert (Hlen : length (default (replicate nb (nd_zeros
                        (shape (nd_matrix (length (st_wfs st1))
                                          (block_overlap nspb (start j))))))
                               (rd !! "overlap"%string)) = nb).
      { destruct (rd !! "overlap"%string) as [rows|] eqn:Hrd; simpl;
          [by apply (Hrows "overlap"%string)|]. by rewrite length_replicate. }
      destruct (decide (j' = j)) as [->|Hne].
      * rewrite list_lookup_insert_eq; [done|lia].
      * rewrite list_lookup_insert_ne by done.
        destruct j as [|j0]; [lia|].
        destruct Hovl as (rows & Hrd & Hprev). rewrite Hrd. simpl.
        apply Hprev. lia.
Qed.
End SampleOverlapWhole.

(** [sample_overlap] as a whole.  When every evaluation returns and the
    statistics keep their shapes from step to step, the call returns after
    [nblocks * nsteps_per_block] sweeps over the electrons, and the
    ["overlap"] array it returns has shape (blocks, wavefunctions,
    wavefunctions): block [j] is the matrix of the means, over the steps of
    that block, of the per-step overlap. *)
Theorem sample_overlap_returns {Walker : Type} {Acc : Accumulator Walker}
    {Dyn : Dynamics Walker} (nblocks nsteps_per_block : nat)
    (st : sampler_state Walker Rng) refs act :
  st_wfs st = refs ++ [act] ->
  (0 < nblocks)%nat -> (0 < nsteps_per_block)%nat ->
  Forall (fun wf => is_Some (eval_at wf (parameters wf) (st_configs st))) (st_wfs st) ->
  let st1 := SamplerState (map (recomputed (st_configs st)) (st_wfs st))
                          (st_configs st) (st_rng st) in
  sweeps_ok (nblocks * nsteps_per_block) st1 ->
  shapes_stable (nblocks * nsteps_per_block) st1 ->
  avg_leaves_overlap ->
  exists return_data,
    sample_overlap nblocks nsteps_per_block None st
    = (inr return_data, after_sweeps (nblocks * nsteps_per_block) st1) /\
    return_data !! "overlap"%string
    = Some (NDArray [nblocks; length (st_wfs st); length (st_wfs st)]
              (concat (map (fun j => concat (block_overlap nsteps_per_block
                                               (after_sweeps (j * nsteps_per_block) st1)))
                           (seq 0 nblocks)))).
Proof.
  intros Hw Hnb Hn Hentry st1 Hok Hshape Havg.
  assert (Hw1 : st_wfs st1 = map (recomputed (st_configs st)) refs
                             ++ [recomputed (st_configs st) act]).
  { subst st1. simpl. by rewrite Hw, map_app. }
  destruct (run_blocks_inv nblocks nsteps_per_block st1 _ _ Hw1 Hn Hok Hshape Havg
              nblocks 0%nat ∅ eq_refl) as (rd & Hrun & Hrows & Hov).
  { split; [|done]. intros k rows Hk. by rewrite lookup_empty in Hk. }
  change (after_sweeps (0 * nsteps_per_block) st1) with st1 in Hrun.
  change (0 + nblocks)%nat with nblocks in *.
  exists (nd_stack <$> rd). split.
  - unfold sample_overlap. rewrite M_bind_run. unfold get at 1.
    rewrite recompute_all_ok by done.
    rewrite M_bind_run. unfold put at 1. rewrite M_bind_run. unfold mret at 1, M_ret.
    rewrite M_bind_run. fold st1. by rewrite Hrun.
  - destruct nblocks as [|nb'] eqn:Enb; [lia|]. rewrite <- Enb in *.
    destruct Hov as (rows & Hrd & Hrow). rewrite lookup_fmap, Hrd. simpl. f_equal.
    destruct (Hrows _ _ Hrd) as [Hlen _].
    assert (Hall : rows = map (fun j => nd_matrix (length (st_wfs st1))
                                          (block_overlap nsteps_per_block
                                             (after_sweeps (j * nsteps_per_block) st1)))
                              (seq 0 nblocks)).
    { apply list_eq. intros j. rewrite list_lookup_fmap.
      destruct (decide (j < nblocks)%nat) as [Hj|Hj].
      - rewrite lookup_seq_lt by done. simpl. by apply Hrow.
      - rewrite lookup_seq_ge by lia. simpl. apply lookup_ge_None. lia. }
    unfold nd_stack. rewrite Hlen. f_equal.
    + f_equal. rewrite Hall, Enb. simpl.
      unfold block_overlap. rewrite length_map. subst st1. simpl.
      by rewrite length_map.
    + rewrite Hall, map_map. done.
Qed.

Lemma sample_overlap_returns_witness :
  let st1 := SamplerState (map (recomputed [()]) ex_wfs) [()] () in
  exists return_data,
    sample_overlap (Acc := ex_accumulator) (Dyn := ex_dynamics) 2 1 None ex_state
    = (inr return_data, after_sweeps (Dyn := ex_dynamics) (2 * 1) st1) /\
    return_data !! "overlap"%string
    = Some (NDArray [2%nat; length ex_wfs; length ex_wfs]
              (concat (map (fun j => concat (block_overlap (Dyn := ex_dynamics) 1
                                               (after_sweeps (Dyn := ex_dynamics) (j * 1) st1)))
                           (seq 0 2)))).
Proof.
  apply (sample_overlap_returns (Acc := ex_accumulator) (Dyn := ex_dynamics)
           2 1 ex_state [ex_reference] ex_active).
  - reflexivity.
  - lia.
  - lia.
  - exact ex_base_ok.
  - intros t Ht. assert (t = 1 \/ t = 2)%nat as [-> | ->] by lia;
      repeat constructor; by eexists.
  - intros t t' k sd sd' x x' Ht Ht' Hsd Hsd' Hx Hx'.
    assert (Heq : Some sd = Some sd').
    { rewrite <- Hsd, <- Hsd'.
      assert (t = 1 \/ t = 2)%nat as [-> | ->] by lia;
        assert (t' = 1 \/ t' = 2)%nat as [-> | ->] by lia; reflexivity. }
    injection Heq as <-.
    rewrite Hx in Hx'. by injection Hx' as <-.
  - intros configs wf weights. apply lookup_empty.
Defined.

(** ** The correlated sampler: the overlap of an unchanged candidate *)

Section UnchangedOverlap.
Context {Walker : Type} {Tr : Transform} {Acc : Accumulator Walker}.

Lemma mean_pos_map {A} (f : A -> R) (l : list A) :
  l <> [] -> (forall x, 0 < f x) -> 0 < mean (map f l).
Proof.
  intros Hne Hf. unfold mean. apply Rdiv_lt_0_compat.
  - by apply vsum_pos_map.
  - rewrite length_map. apply lt_0_INR. destruct l; [done|simpl; lia].
Qed.

Lemma spec_base_weight_pos (configs : list Walker) (wfs : list (wavefunction Walker))
    (wf : wavefunction Walker) :
  configs <> [] -> wfs <> [] -> 0 < spec_base_weight configs wfs wf.
Proof.
  intros Hc Hw. unfold spec_base_weight. apply mean_pos_map; [done|].
  intros w. apply Rdiv_lt_0_compat; [lra|].
  apply vsum_pos_map; [done|]. intros. apply exp_pos.
Qed.

(** A candidate that leaves the parameters as they were on entry has overlap
    one with the active wavefunction, when the phase of the active
    wavefunction is a sign: the last entry of [overlap[p]] is 1. *)
Theorem unchanged_candidate_overlap configs refs act cands p :
  configs <> [] ->
  Forall (fun wf => is_Some (eval_at wf (parameters wf) configs)) (refs ++ [act]) ->
  candidates_ok configs (recomputed configs act) cands ->
  (p < length cands)%nat ->
  parameters (active_after configs (recomputed configs act) (take (S p) cands))
  = parameters act ->
  (forall w, w ∈ configs -> phase_at act (parameters act) w ^ 2 = 1) ->
  exists data wfs' row,
    correlated_sample configs cands (refs ++ [act]) = (inr data, wfs') /\
    data_overlap data !! p = Some row /\
    last row = Some 1.
Proof.
  intros Hc Hbase Hcands Hp Hpar Hphase.
  destruct (correlated_sample_ok configs refs act cands Hc Hbase Hcands)
    as (ref & rows & Href & Hrun & Hlen & Hrows).
  destruct (Hrows p Hp) as (E & _ & Hr).
  set (cand := active_after configs (recomputed configs act) (take (S p) cands)) in *.
  set (wfs := refs ++ [act]) in *.
  assert (Hne : wfs <> []) by (subst wfs; by destruct refs).
  eexists _, _, _. split; [exact Hrun|]. simpl.
  rewrite list_lookup_fmap, Hr. simpl. split; [reflexivity|].
  subst wfs. rewrite map_app. cbn [map]. rewrite last_snoc. f_equal.
  set (wfs := refs ++ [act]) in *.
  assert (Hamp : forall w, amp cand (parameters cand) w = amp act (parameters act) w).
  { intros w. unfold amp. rewrite Hpar. subst cand.
    by rewrite active_after_amplitude. }
  assert (Hwt : map (spec_wt wfs cand) configs
                = map (fun w => 1 / vsum (map (fun wm => exp (- 2 * (logmag_at act (parameters act) w
                                                                    - logmag_at wm (parameters wm) w)))
                                              wfs)) configs).
  { apply map_ext. intros w. unfold spec_wt. f_equal.
    apply vsum_map_ext_in. intros wm _. unfold logmag_at. rewrite Hamp. f_equal. lra. }
  assert (Hraw : spec_raw_overlap configs ref wfs cand act = spec_base_weight configs wfs act).
  { unfold spec_raw_overlap, spec_base_weight. f_equal.
    apply map_ext_in. intros w Hw. apply list_elem_of_In in Hw.
    unfold spec_normalized, spec_denominator, phase_at, logmag_at. rewrite Hamp.
    fold (phase_at act (parameters act) w). fold (logmag_at act (parameters act) w).
    set (a := logmag_at act (parameters act) w).
    rewrite (vsum_map_ext_in
               (fun wm => exp (- 2 * (a - (amp wm (parameters wm) w).2)))
               (fun wm => exp (- 2 * (a - ref))
                          * exp (2 * ((amp wm (parameters wm) w).2 - ref))))
      by (intros; rewrite <- exp_plus; f_equal; lra).
    rewrite vsum_map_scale.
    set (D := vsum _).
    assert (HD : 0 < D) by (apply vsum_pos_map; [done|]; intros; apply exp_pos).
    replace (phase_at act (parameters act) w * exp (a - ref)
             * (phase_at act (parameters act) w * exp (a - ref)))
      with (phase_at act (parameters act) w ^ 2 * (exp (a - ref) * exp (a - ref))) by ring.
    rewrite (Hphase w Hw), <- exp_plus.
    replace (- 2 * (a - ref)) with (- (a - ref + (a - ref))) by lra.
    rewrite exp_Ropp. pose proof (exp_pos (a - ref + (a - ref))).
    field. split; lra. }
  unfold spec_overlap_base. rewrite Hraw, Hwt.
  fold (spec_base_weight configs wfs act).
  pose proof (spec_base_weight_pos configs wfs act Hc Hne) as Hpos.
  rewrite sqrt_square by lra. field. lra.
Qed.
End UnchangedOverlap.

Lemma unchanged_candidate_overlap_witness :
  exists data wfs' row,
    correlated_sample (Tr := ex_transform) (Acc := ex_accumulator) [()] [[0]] ex_wfs
    = (inr data, wfs') /\
    data_overlap data !! 0%nat = Some row /\
    last row = Some 1.
Proof.
  apply (unchanged_candidate_overlap (Tr := ex_transform) (Acc := ex_accumulator)
           [()] [ex_reference] ex_active [[0]] 0 ltac:(done) ex_base_ok
           (ex_candidates_ok_all [[0]] (recomputed [()] ex_active) eq_refl)).
  - simpl. lia.
  - exact ex_unchanged_parameters.
  - intros w _. unfold phase_at, amp. simpl. lra.
Defined.
